(** * Radio MNS: the "now playing" resolver of [script.js]

    A shallow embedding of [computeNowFromScheduleDOM],
    [loadCurrentProgramFromPrograma], [fmt] and [escapeHtml], together with
    the small part of the JavaScript platform they rely on (strings as
    sequences of UTF-16 code units, [trim], [String.prototype.replace] with a
    string pattern, backtracking regular expressions, a stable [sort]). *)

From Stdlib Require Import ZArith NArith Lia Sorting.Sorted Sorting.Permutation.
From Stdlib Require Import DecimalN QArith.
From stdpp Require Import base option list gmap strings.

Local Open Scope Z_scope.

(** ** JavaScript strings *)

(** A JavaScript string is a sequence of UTF-16 code units. *)
Abbreviation jsstr := (list N).

(** Literals: the code units of an ASCII text. *)
Fixpoint u (s : string) : jsstr :=
  match s with
  | EmptyString => []
  | String a s' => Ascii.N_of_ascii a :: u s'
  end.

Module Chr.
Definition amp : N := 38.
Definition lt : N := 60.
Definition gt : N := 62.
Definition dquote : N := 34.
Definition squote : N := 39.
Definition colon : N := 58.
Definition hyphen : N := 45.
Definition endash : N := 0x2013.
Definition arrow : N := 0x2192.
Definition play : N := 0x25B6.
Definition space : N := 32.
Definition newline : N := 10.
Definition zero : N := 48.
End Chr.

(** [\d]: the ten ASCII digits. *)
Definition isDigit (c : N) : bool := ((48 <=? c) && (c <=? 57))%N.

(** [\s], which is also what [trim] strips: WhiteSpace and LineTerminator. *)
Definition isSpace (c : N) : bool :=
  (((9 <=? c) && (c <=? 13)) || (c =? 32) || (c =? 0xA0) || (c =? 0x1680)
   || ((0x2000 <=? c) && (c <=? 0x200A)) || (c =? 0x2028) || (c =? 0x2029)
   || (c =? 0x202F) || (c =? 0x205F) || (c =? 0x3000) || (c =? 0xFEFF))%N.

(** [[-–]]: hyphen-minus or en dash. *)
Definition isDash (c : N) : bool := ((c =? Chr.hyphen) || (c =? Chr.endash))%N.

Definition isColon (c : N) : bool := (c =? Chr.colon)%N.

(** Truthiness of a string: the empty string is falsy. *)
Definition truthyStr (s : jsstr) : bool :=
  match s with [] => false | _ => true end.

(** [a || b] on strings. *)
Definition orStr (a b : jsstr) : jsstr := if truthyStr a then a else b.

(** [s.trim()]. *)
Fixpoint trimStart (s : jsstr) : jsstr :=
  match s with
  | c :: t => if isSpace c then trimStart t else s
  | [] => []
  end.

Definition trim (s : jsstr) : jsstr := rev (trimStart (rev (trimStart s))).

Fixpoint startsWith (p s : jsstr) : bool :=
  match p, s with
  | [], _ => true
  | a :: p', b :: s' => (a =? b)%N && startsWith p' s'
  | _ :: _, [] => false
  end.

(** [s.replace(pat, '')] with a string pattern: the first occurrence of
    [pat] is removed. *)
Fixpoint removeFirst (pat s : jsstr) : jsstr :=
  if startsWith pat s then drop (length pat) s
  else match s with
       | [] => []
       | c :: t => c :: removeFirst pat t
       end.

(** [String(n)] for an integer [n]. *)
Fixpoint uintUnits (d : Decimal.uint) : jsstr :=
  match d with
  | Decimal.Nil => []
  | Decimal.D0 d => 48%N :: uintUnits d
  | Decimal.D1 d => 49%N :: uintUnits d
  | Decimal.D2 d => 50%N :: uintUnits d
  | Decimal.D3 d => 51%N :: uintUnits d
  | Decimal.D4 d => 52%N :: uintUnits d
  | Decimal.D5 d => 53%N :: uintUnits d
  | Decimal.D6 d => 54%N :: uintUnits d
  | Decimal.D7 d => 55%N :: uintUnits d
  | Decimal.D8 d => 56%N :: uintUnits d
  | Decimal.D9 d => 57%N :: uintUnits d
  end.

Definition toString (n : Z) : jsstr :=
  if n <? 0 then Chr.hyphen :: uintUnits (N.to_uint (Z.to_N (- n)))
  else uintUnits (N.to_uint (Z.to_N n)).

(** [s.padStart(n, c)] for a one-unit filler [c]. *)
Definition padStart (n : nat) (c : N) (s : jsstr) : jsstr :=
  replicate (n - length s) c ++ s.

(** [parseInt(s, 10)] on a string of decimal digits, the only strings the
    script passes to it (see [hm_groups_digits]): the value of the leading
    run of digits. *)
Definition digitVal (c : N) : Z := Z.of_N c - 48.

Fixpoint parseDigits (acc : Z) (s : jsstr) : Z :=
  match s with
  | c :: t => if isDigit c then parseDigits (acc * 10 + digitVal c) t else acc
  | [] => acc
  end.

Definition parseInt10 (s : jsstr) : Z := parseDigits 0 s.

(** ** Regular expressions *)

(** The fragment of the regular-expression syntax the script uses. Capturing
    groups are numbered by their opening parenthesis; none of the script's
    patterns nests them. *)
Inductive regex : Type :=
| Eps
| Cls (c : N → bool)
| Star (c : N → bool)
| Cat (r1 r2 : regex)
| Opt (r : regex)
| Grp (r : regex).

Fixpoint Exactly (n : nat) (c : N → bool) : regex :=
  match n with
  | O => Eps
  | S n' => Cat (Cls c) (Exactly n' c)
  end.

Fixpoint AtMost (n : nat) (c : N → bool) : regex :=
  match n with
  | O => Eps
  | S n' => Opt (Cat (Cls c) (AtMost n' c))
  end.

(** [c{lo,hi}], greedy. *)
Definition Rep (c : N → bool) (lo hi : nat) : regex :=
  Cat (Exactly lo c) (AtMost (hi - lo) c).

Section Matcher.
Context {A : Type}.

(** A continuation receives what is left of the input and the captures
    made so far; [None] makes the matcher backtrack. *)
Definition cont : Type := jsstr → list jsstr → option A.

(** Greedy [c*]: as many units as possible first, then fewer. *)
Fixpoint star (c : N → bool) (k : cont) (caps : list jsstr) (inp : jsstr)
  : option A :=
  match inp with
  | x :: t =>
      if c x then
        match star c k caps t with
        | Some a => Some a
        | None => k inp caps
        end
      else k inp caps
  | [] => k [] caps
  end.

Fixpoint run (r : regex) (inp : jsstr) (caps : list jsstr) (k : cont)
  : option A :=
  match r with
  | Eps => k inp caps
  | Cls c =>
      match inp with
      | x :: t => if c x then k t caps else None
      | [] => None
      end
  | Star c => star c k caps inp
  | Cat r1 r2 => run r1 inp caps (λ i cs, run r2 i cs k)
  | Opt r1 =>
      match run r1 inp caps k with
      | Some a => Some a
      | None => k inp caps
      end
  | Grp r1 =>
      run r1 inp caps
        (λ i cs, k i (cs ++ [take (length inp - length i) inp]))
  end.
End Matcher.

(** The array a successful [match] returns: element 0 is the matched text,
    the others are the captures. *)
Record MatchArray : Type := mkMatch { m0 : jsstr; groups : list jsstr }.

Definition matchAt (r : regex) (inp : jsstr) : option MatchArray :=
  run r inp []
    (λ rest cs, Some (mkMatch (take (length inp - length rest) inp) cs)).

(** [s.match(r)] for a pattern without flags: the leftmost match. *)
Fixpoint exec (r : regex) (s : jsstr) : option MatchArray :=
  match matchAt r s with
  | Some m => Some m
  | None =>
      match s with
      | [] => None
      | _ :: t => exec r t
      end
  end.

(** [\d{1,2}:\d{2}] *)
Definition reClock : regex :=
  Cat (Rep isDigit 1 2) (Cat (Cls isColon) (Rep isDigit 2 2)).

(** [/\d{1,2}:\d{2}(?:\s*[-–]\s*\d{1,2}:\d{2})?/] *)
Definition reItem : regex :=
  Cat reClock
      (Opt (Cat (Star isSpace) (Cat (Cls isDash) (Cat (Star isSpace) reClock)))).

(** [/(\d{1,2}):(\d{2})/] *)
Definition reHM : regex :=
  Cat (Grp (Rep isDigit 1 2)) (Cat (Cls isColon) (Grp (Rep isDigit 2 2))).

(** [/(\d{1,2}:\d{2})\s*[–\-]\s*(\d{1,2}:\d{2})/] *)
Definition reRange : regex :=
  Cat (Grp reClock)
      (Cat (Star isSpace) (Cat (Cls isDash) (Cat (Star isSpace) (Grp reClock)))).

(** [/(\d{1,2}:\d{2})/] *)
Definition reStart : regex := Grp reClock.


(** ** The schedule document *)

(** One element matched by [.program-item, li, .program]: the text of its
    first [time, .program-time] descendant and of its first [.program-title]
    descendant when there is one, and its own [textContent]. *)
Record Element : Type := mkElement {
  timeEl : option jsstr;
  titleEl : option jsstr;
  textContent : jsstr
}.

(** One [.schedule-day] node: [dataset.day] ([None] when the attribute is
    absent), [id] (empty when absent) and the program elements
    [querySelectorAll] finds inside it, in document order. *)
Record Node : Type := mkNode {
  datasetDay : option jsstr;
  id : jsstr;
  programEls : list Element
}.

(** What [new Date()] is asked for. *)
Record Date : Type := mkDate { getDay : nat; getHours : Z; getMinutes : Z }.

(** The getters of a date stay in their ranges. *)
Definition validDate (d : Date) : Prop :=
  (getDay d < 7)%nat ∧ 0 <= getHours d < 24 ∧ 0 <= getMinutes d < 60.

Record Item : Type := mkItem { timeText : jsstr; titleText : jsstr }.

(** [found] inside [computeNowFromScheduleDOM]; [end_] is [None] for
    [end: null]. *)
Record Found : Type := mkFound { title : jsstr; start : Z; end_ : option Z }.

(** An element of [starts]. *)
Record StartEntry : Type := mkStart { s_title : jsstr; s_start : Z }.

(** The object [{ html, found }] the script returns. *)
Record Out : Type := mkOut { html : jsstr; found : bool }.

Inductive Error : Type :=
| NetworkError
| FetchFailed (status : Z)
| BodyError
| NoScheduleNodes.

(** What the script can change: the [innerHTML] of [#now-playing] ([None]
    when the page has no such element) and the warnings on the console. *)
Record World : Type := mkWorld {
  nowPlaying : option jsstr;
  warnings : list Error
}.

(** A [fetch] of [programma.html]: the promise rejects, or it resolves to a
    response with its [ok] flag and status, whose body either cannot be read
    or parses to a document with the given [.schedule-day] nodes. *)
Inductive FetchResult : Type :=
| Rejected
| Response (ok : bool) (status : Z) (body : option (list Node)).

Inductive completion (A : Type) : Type :=
| Normal (a : A)
| Throw (e : Error).
Arguments Normal {A} a.
Arguments Throw {A} e.

(** ** Small helpers of the script *)

(** Truthiness of a number that is not [NaN]. *)
Definition truthyNum (n : Z) : bool := negb (n =? 0).

Definition truthyEnd (e : option Z) : bool :=
  match e with Some n => truthyNum n | None => false end.

(** [fmt]; [None] stands for [null] and [undefined]. The minutes are
    integers, [%] is the remainder with the sign of the dividend,
    [Math.floor(mins/60)] the quotient rounded down. The script computes
    in floating point: this is what it computes as long as [mins] and
    [mins + 24*60] are integers of magnitude at most 2^53 (beyond, the sum
    is rounded), which is the range the properties of [fmt] are stated
    on. *)
Definition fmt (mins : option Z) : jsstr :=
  match mins with
  | None => []
  | Some mins =>
      let mins := Z.rem (mins + 24 * 60) (24 * 60) in
      let h := mins / 60 in
      let m := Z.rem mins 60 in
      padStart 2 Chr.zero (toString h) ++ [Chr.colon]
        ++ padStart 2 Chr.zero (toString m)
  end.

Definition escapeChar (c : N) : jsstr :=
  if (c =? Chr.amp)%N then u "&amp;"
  else if (c =? Chr.lt)%N then u "&lt;"
  else if (c =? Chr.gt)%N then u "&gt;"
  else if (c =? Chr.dquote)%N then u "&quot;"
  else if (c =? Chr.squote)%N then u "&#39;"
  else [c].

Definition escapeHtml (s : jsstr) : jsstr := concat (map escapeChar s).

Definition renderNowPlayingToTarget (h : jsstr) (w : World) : World :=
  match nowPlaying w with
  | Some _ => mkWorld (Some h) (warnings w)
  | None => w
  end.

Definition q : jsstr := [Chr.dquote].
Definition nl : jsstr := [Chr.newline].
Definition ind (n : nat) : jsstr := replicate n Chr.space.

(** ['<div class="muted">Geen programma nu</div>'] *)
Definition nothingNow : jsstr :=
  u "<div class=" ++ q ++ u "muted" ++ q ++ u ">Geen programma nu</div>".

Definition nothingOut : Out := mkOut nothingNow false.

(** [a.sort(cmp)]: the sort is stable; insertion keeps an element in front
    of the later ones it compares equal to. *)
Section Sort.
Context {A : Type} (cmp : A → A → Z).

Fixpoint insertSorted (x : A) (l : list A) : list A :=
  match l with
  | [] => [x]
  | y :: l' => if cmp x y <=? 0 then x :: l else y :: insertSorted x l'
  end.

Fixpoint sort (l : list A) : list A :=
  match l with
  | [] => []
  | x :: l' => insertSorted x (sort l')
  end.
End Sort.

(** ** The resolver *)

Section Resolver.
(** [String.prototype.toLowerCase], supplied by the platform. *)
Variable toLowerCase : jsstr → jsstr.

(** Element [i] of a match array; an index past the last group reads as
    the empty text (none of the script's reads is past it). *)
Definition matchIdx (m : MatchArray) (i : nat) : jsstr :=
  match i with
  | O => m0 m
  | S j => default [] (groups m !! j)
  end.

(** The key under which a node is filed: [dataset.day] when truthy, else
    [id] when truthy, else [null]. *)
Definition keyOf (n : Node) : option jsstr :=
  match datasetDay n with
  | Some d =>
      if truthyStr d then Some (toLowerCase d)
      else if truthyStr (id n) then Some (toLowerCase (id n)) else None
  | None => if truthyStr (id n) then Some (toLowerCase (id n)) else None
  end.

(** [nodes.forEach(n => { ...; if (key) map[key] = n; })]. The object
    [map] is read only at the names of [daysMap], none of which an object
    inherits, so it is a finite map from keys to nodes; at a name an
    object does inherit ([constructor], [toString], ...) the finite map
    does not say what reading the object gives. *)
Definition fileNode (map : gmap jsstr Node) (n : Node) : gmap jsstr Node :=
  match keyOf n with
  | Some key => if truthyStr key then <[key := n]> map else map
  | None => map
  end.

Definition buildMap (nodes : list Node) : gmap jsstr Node :=
  foldl fileNode ∅ nodes.

Definition daysMap : list jsstr :=
  [u "zondag"; u "maandag"; u "dinsdag"; u "woensdag"; u "donderdag";
   u "vrijdag"; u "zaterdag"].

(** [daysMap[now.getDay()]]; an index outside the table reads
    [undefined], which as a property key is the text "undefined". *)
Definition dayKeyOf (now : Date) : jsstr :=
  default (u "undefined") (daysMap !! getDay now).

Definition itemOf (el : Element) : Item :=
  let rawText := trim (textContent el) in
  let timeText :=
    match timeEl el with
    | Some t => trim t
    | None =>
        match exec reItem rawText with
        | Some m => matchIdx m 0
        | None => []
        end
    end in
  let titleText :=
    match titleEl el with
    | Some t => trim t
    | None => trim (removeFirst timeText rawText)
    end in
  mkItem timeText titleText.

Definition itemsOf (scheduleNode : Node) : list Item :=
  filter (λ i, truthyStr (timeText i) || truthyStr (titleText i) = true)
         (map itemOf (programEls scheduleNode)).

(** [None] is [null]. *)
Definition toMinutes (hm : jsstr) : option Z :=
  if negb (truthyStr hm) then None
  else match exec reHM hm with
       | None => None
       | Some m => Some (parseInt10 (matchIdx m 1) * 60
                         + parseInt10 (matchIdx m 2))
       end.

Definition nowMinutesOf (now : Date) : Z := getHours now * 60 + getMinutes now.

Definition titleOr (it : Item) : jsstr := orStr (titleText it) (u "Onbekend").

(** One turn of the range loop: [Some] when [found] is set and the loop
    breaks. *)
Definition rangeEntry (nowMinutes : Z) (it : Item) : option Found :=
  match exec reRange (timeText it) with
  | Some range =>
      match toMinutes (matchIdx range 1), toMinutes (matchIdx range 2) with
      | Some s, Some e =>
          if s <=? e then
            if (s <=? nowMinutes) && (nowMinutes <? e)
            then Some (mkFound (titleOr it) s (Some e)) else None
          else
            if (s <=? nowMinutes) || (nowMinutes <? e)
            then Some (mkFound (titleOr it) s (Some e)) else None
      | _, _ => None
      end
  | None => None
  end.

Fixpoint rangePass (nowMinutes : Z) (items : list Item) : option Found :=
  match items with
  | [] => None
  | it :: rest =>
      match rangeEntry nowMinutes it with
      | Some f => Some f
      | None => rangePass nowMinutes rest
      end
  end.

(** [items.map(...).filter(i => i.start !== null)], the two steps fused. *)
Definition startOf (it : Item) : option StartEntry :=
  match exec reStart (timeText it) with
  | Some m =>
      match toMinutes (matchIdx m 1) with
      | Some s => Some (mkStart (titleOr it) s)
      | None => None
      end
  | None => None
  end.

Definition byStart (a b : StartEntry) : Z := s_start a - s_start b.

Definition startsOf (items : list Item) : list StartEntry :=
  sort byStart (omap startOf items).

(** [for (const p of starts) { if (p.start <= nowMinutes) cand = p; else break; }] *)
Fixpoint scan (nowMinutes : Z) (cand : option StartEntry)
         (starts : list StartEntry) : option StartEntry :=
  match starts with
  | [] => cand
  | p :: rest =>
      if s_start p <=? nowMinutes then scan nowMinutes (Some p) rest
      else cand
  end.

Definition fallbackPass (nowMinutes : Z) (items : list Item) : option Found :=
  let starts := startsOf items in
  match starts with
  | [] => None
  | _ :: _ =>
      match scan nowMinutes None starts with
      | Some cand => Some (mkFound (s_title cand) (s_start cand) None)
      | None => None
      end
  end.

(** [found] after both passes. *)
Definition resolve (nowMinutes : Z) (items : list Item) : option Found :=
  match rangePass nowMinutes items with
  | Some f => Some f
  | None => fallbackPass nowMinutes items
  end.

Definition safeTitleOf (f : Found) : jsstr :=
  escapeHtml (orStr (title f) (u "Onbekend programma")).

Definition timeStrOf (f : Found) : jsstr :=
  if truthyNum (start f) && truthyEnd (end_ f)
  then fmt (Some (start f)) ++ u " " ++ [Chr.endash] ++ u " " ++ fmt (end_ f)
  else if truthyNum (start f)
       then fmt (Some (start f)) ++ u " " ++ [Chr.arrow]
       else [].

(** The part of the template before [${safeTitle}]. *)
Definition htmlHead : jsstr :=
  nl ++ ind 6 ++ u "<div style=" ++ q
     ++ u "display:flex;align-items:center;gap:12px;" ++ q ++ u ">"
  ++ nl ++ ind 8 ++ u "<div style=" ++ q
     ++ u "width:56px;height:56px;border-radius:10px;"
     ++ u "background:linear-gradient(135deg,#f0fbff,#e6f7ff);"
     ++ u "display:flex;align-items:center;justify-content:center;"
     ++ u "font-weight:800;color:var(--accent-2);" ++ q ++ u ">"
  ++ nl ++ ind 10 ++ [Chr.play]
  ++ nl ++ ind 8 ++ u "</div>"
  ++ nl ++ ind 8 ++ u "<div style=" ++ q ++ u "flex:1;" ++ q ++ u ">"
  ++ nl ++ ind 10 ++ u "<div style=" ++ q
     ++ u "font-weight:800;font-size:1rem;" ++ q ++ u ">Nu: ".

(** Between [${safeTitle}] and [${timeStr}]. *)
Definition htmlMid : jsstr :=
  u "</div>"
  ++ nl ++ ind 10 ++ u "<div class=" ++ q ++ u "muted" ++ q
     ++ u " style=" ++ q ++ u "font-size:.92rem;margin-top:4px;" ++ q
     ++ u ">".

(** After [${timeStr}]. *)
Definition htmlTail : jsstr :=
  u "</div>"
  ++ nl ++ ind 8 ++ u "</div>"
  ++ nl ++ ind 6 ++ u "</div>"
  ++ nl ++ ind 4.

Definition htmlOf (f : Found) : jsstr :=
  htmlHead ++ safeTitleOf f ++ htmlMid ++ timeStrOf f ++ htmlTail.

Definition computeNowFromScheduleDOM
           (nodes : list Node) (remote : bool) (now : Date) (w : World)
  : Out * World :=
  let map := buildMap nodes in
  let dayKey := dayKeyOf now in
  match map !! dayKey with
  | None => (nothingOut, renderNowPlayingToTarget (html nothingOut) w)
  | Some scheduleNode =>
      let items := itemsOf scheduleNode in
      let nowMinutes := nowMinutesOf now in
      match resolve nowMinutes items with
      | None => (nothingOut, renderNowPlayingToTarget (html nothingOut) w)
      | Some f =>
          let h := htmlOf f in
          (mkOut h true, renderNowPlayingToTarget h w)
      end
  end.

Definition warn (e : Error) (w : World) : World :=
  mkWorld (nowPlaying w) (warnings w ++ [e]).

(** The [try] block of [loadCurrentProgramFromPrograma]. *)
Definition fetchAndCompute (fetched : FetchResult) (now : Date) (w : World)
  : completion (Out * World) :=
  match fetched with
  | Rejected => Throw NetworkError
  | Response ok status body =>
      if negb ok then Throw (FetchFailed status)
      else match body with
           | None => Throw BodyError
           | Some remoteNodes =>
               match remoteNodes with
               | [] => Throw NoScheduleNodes
               | _ :: _ =>
                   Normal (computeNowFromScheduleDOM remoteNodes true now w)
               end
           end
  end.

(** [localNodes] is what [$$('.schedule-day')] finds in the page;
    [fetched] is consulted only when it finds nothing. *)
Definition loadCurrentProgramFromPrograma
           (localNodes : list Node) (fetched : FetchResult) (now : Date)
           (w : World) : completion (Out * World) :=
  match localNodes with
  | _ :: _ => Normal (computeNowFromScheduleDOM localNodes false now w)
  | [] =>
      match fetchAndCompute fetched now w with
      | Normal r => Normal r
      | Throw err =>
          let w1 := warn err w in
          Normal (mkOut nothingNow false,
                  renderNowPlayingToTarget nothingNow w1)
      end
  end.
End Resolver.

(** [toLowerCase] on ASCII text, for the sample schedules. *)
Definition asciiLower (s : jsstr) : jsstr :=
  map (λ c, if ((65 <=? c) && (c <=? 90))%N then (c + 32)%N else c) s.

(** * The rest of the page script *)

(** ** [clamp] *)

(** [Math.max(a, Math.min(b, n))] on integers. *)
Definition clamp (n a b : Z) : Z := Z.max a (Z.min b n).

(** ** The carousel *)

(** [a || b] on numbers that are not [NaN]. *)
Definition orNum (a b : Z) : Z := if truthyNum a then a else b.

(** [s.split(/\r?\n/)]: the text between the line breaks, a carriage
    return counting as part of the break only right before a line feed. *)
Definition consHead (c : N) (ls : list jsstr) : list jsstr :=
  match ls with
  | l :: r => (c :: l) :: r
  | [] => [[c]]
  end.

Fixpoint splitLines (s : jsstr) : list jsstr :=
  match s with
  | [] => [[]]
  | c :: t =>
      if (c =? 10)%N then [] :: splitLines t
      else match t with
           | d :: t' =>
               if (c =? 13)%N && (d =? 10)%N then [] :: splitLines t'
               else consHead c (splitLines t)
           | [] => [[c]]
           end
  end.

Section Carousel.
(** The values of JSON, and [JSON.parse] followed by [Array.isArray]: the
    elements of the array a text denotes, [None] when parsing throws or
    yields something that is not an array. *)
Context {J : Type} (parseJsonArray : jsstr → option (list J)).

(** An element of the list of images: a value out of the JSON array, or a
    line of text. *)
Inductive ImageSrc : Type :=
| JsonSrc (v : J)
| TextSrc (s : jsstr).

Definition parseImageList (str : jsstr) : list ImageSrc :=
  if negb (truthyStr str) then []
  else
    let str := trim str in
    match parseJsonArray str with
    | Some p => map JsonSrc p
    | None =>
        let lines :=
          filter (λ s, truthyStr s = true) (map trim (splitLines str)) in
        match lines with
        | _ :: _ => map TextSrc lines
        | [] => [TextSrc str]
        end
    end.

(** A child of the track: one found in the markup, an image made from the
    list, or the placeholder. *)
Inductive Slide : Type :=
| Existing
| Img (src : ImageSrc) (alt : jsstr)
| Placeholder.

(** The widths [refresh] reads: [clientWidth] and [offsetWidth] of the
    viewport (the [.carousel-viewport] or else the root), [clientWidth]
    of the track. *)
Record Layout : Type := mkLayout {
  vpClientWidth : Z;
  vpOffsetWidth : Z;
  trackClientWidth : Z
}.

(** A button made by [createDots]. *)
Record Dot : Type := mkDot {
  dotLabel : jsstr;
  dotIndex : nat;
  dotActive : bool
}.

(** What [initCarousel] reads from the root element: the number of
    children of the [.carousel-track] ([None] without a track), whether the
    buttons and the [.carousel-dots] exist, the attributes [data-images]
    and [data-autoplay] ([None] when absent), the widths. *)
Record CarouselRoot : Type := mkCarouselRoot {
  trackChildren : option nat;
  hasPrevBtn : bool;
  hasNextBtn : bool;
  hasDotsWrap : bool;
  dataImages : option jsstr;
  dataAutoplay : option jsstr;
  rootLayout : Layout
}.

(** The timers of the carousel that are live. *)
Inductive TimerKind : Type :=
| IntervalNext
| TimeoutRefresh.

(** The variables the closures of [initCarousel] share, the parts of the
    page they change, and the carousel's live timers with the next timer
    id of the page. When a timer fires is the platform's matter; its delay
    is not part of the state. *)
Record Carousel : Type := mkCarousel {
  slides : list Slide;
  prevBtn : bool;
  nextBtn : bool;
  index : Z;
  autoplay : bool;
  timer : option positive;
  resizeTimer : option positive;
  startX : Z;
  deltaX : Z;
  layout : Layout;
  transform : jsstr;
  dots : option (list Dot);
  pool : gmap positive TimerKind;
  nextId : positive
}.

Definition setIndex (i : Z) (c : Carousel) : Carousel :=
  mkCarousel (slides c) (prevBtn c) (nextBtn c) i (autoplay c) (timer c)
    (resizeTimer c) (startX c) (deltaX c) (layout c) (transform c) (dots c)
    (pool c) (nextId c).

Definition setTimer (t : option positive) (p : gmap positive TimerKind)
           (n : positive) (c : Carousel) : Carousel :=
  mkCarousel (slides c) (prevBtn c) (nextBtn c) (index c) (autoplay c) t
    (resizeTimer c) (startX c) (deltaX c) (layout c) (transform c) (dots c)
    p n.

Definition setResizeTimer (t : option positive) (p : gmap positive TimerKind)
           (n : positive) (c : Carousel) : Carousel :=
  mkCarousel (slides c) (prevBtn c) (nextBtn c) (index c) (autoplay c)
    (timer c) t (startX c) (deltaX c) (layout c) (transform c) (dots c) p n.

Definition setTouch (x d : Z) (c : Carousel) : Carousel :=
  mkCarousel (slides c) (prevBtn c) (nextBtn c) (index c) (autoplay c)
    (timer c) (resizeTimer c) x d (layout c) (transform c) (dots c)
    (pool c) (nextId c).

Definition setLayout (l : Layout) (c : Carousel) : Carousel :=
  mkCarousel (slides c) (prevBtn c) (nextBtn c) (index c) (autoplay c)
    (timer c) (resizeTimer c) (startX c) (deltaX c) l (transform c) (dots c)
    (pool c) (nextId c).

Definition setView (t : jsstr) (ds : option (list Dot)) (c : Carousel)
  : Carousel :=
  mkCarousel (slides c) (prevBtn c) (nextBtn c) (index c) (autoplay c)
    (timer c) (resizeTimer c) (startX c) (deltaX c) (layout c) t ds
    (pool c) (nextId c).

(** [(viewport.clientWidth || viewport.offsetWidth) || track.clientWidth] *)
Definition widthOf (l : Layout) : Z :=
  orNum (orNum (vpClientWidth l) (vpOffsetWidth l)) (trackClientWidth l).

(** [`translateX(${px}px)`] *)
Definition translateX (px : Z) : jsstr :=
  u "translateX(" ++ toString px ++ u "px)".

Definition toggleActive (idx : Z) (i : nat) (d : Dot) : Dot :=
  mkDot (dotLabel d) (dotIndex d) (bool_decide (Z.of_nat i = idx)).

Definition refresh (c : Carousel) : Carousel :=
  let width := widthOf (layout c) in
  setView (translateX (- index c * width))
          (imap (toggleActive (index c)) <$> dots c) c.

Definition stopAutoplay (c : Carousel) : Carousel :=
  match timer c with
  | Some id => setTimer None (delete id (pool c)) (nextId c) c
  | None => c
  end.

Definition startAutoplay (c : Carousel) : Carousel :=
  if negb (autoplay c) then c
  else
    let c := stopAutoplay c in
    setTimer (Some (nextId c)) (<[nextId c := IntervalNext]> (pool c))
             (Pos.succ (nextId c)) c.

Definition resetAutoplay (c : Carousel) : Carousel :=
  startAutoplay (stopAutoplay c).

(** [((i % n) + n) % n] *)
Definition wrapIndex (i n : Z) : Z := Z.rem (Z.rem i n + n) n.

Definition goTo (i : Z) (c : Carousel) : Carousel :=
  let n := Z.of_nat (length (slides c)) in
  resetAutoplay (refresh (setIndex (wrapIndex i n) c)).

Definition next (c : Carousel) : Carousel := goTo (index c + 1) c.
Definition prev (c : Carousel) : Carousel := goTo (index c - 1) c.

(** [`Ga naar slide ${i+1}`] *)
Definition dotFor (i : nat) (s : Slide) : Dot :=
  mkDot (u "Ga naar slide " ++ toString (Z.of_nat i + 1)) i false.

Definition createDots (c : Carousel) : Carousel :=
  match dots c with
  | Some _ => setView (transform c) (Some (imap dotFor (slides c))) c
  | None => c
  end.

(** [`Studio foto ${i+1}`] *)
Definition imgFor (i : nat) (src : ImageSrc) : Slide :=
  Img src (u "Studio foto " ++ toString (Z.of_nat i + 1)).

(** The children of the track once the slides are built. *)
Definition buildSlides (existing : nat) (imgs : list ImageSrc) : list Slide :=
  let children :=
    match imgs, existing with
    | _ :: _, O => imap imgFor imgs
    | _, _ => replicate existing Existing
    end in
  match children with
  | [] => [Placeholder]
  | _ :: _ => children
  end.

(** [initCarousel(root)]; [firstId] is the id the page's next timer gets.
    [None] when the root has no track. *)
Definition initCarousel (root : CarouselRoot) (firstId : positive)
  : option Carousel :=
  match trackChildren root with
  | None => None
  | Some existing =>
      let data := orStr (default [] (dataImages root)) [] in
      let imgs := parseImageList data in
      let c :=
        mkCarousel (buildSlides existing imgs) (hasPrevBtn root)
          (hasNextBtn root) 0
          (bool_decide (dataAutoplay root = Some (u "true"))) None None 0 0
          (rootLayout root) []
          (if hasDotsWrap root then Some [] else None) ∅ firstId in
      Some (startAutoplay (refresh (createDots c)))
  end.

(** What can happen to a carousel: a listener or a timer callback runs. A
    touch carries the [clientX] of its first point, in whole pixels. *)
Inductive Event : Type :=
| ClickNext
| ClickPrev
| ClickDot (i : nat)
| KeyDown (key : jsstr)
| Resize (l : Layout)
| TimeoutFires (id : positive)
| IntervalFires (id : positive)
| TouchStart (x : Z)
| TouchMove (x : Z)
| TouchEnd
| MouseEnter
| MouseLeave
| FocusIn
| FocusOut.

Definition onKeyDown (key : jsstr) (c : Carousel) : Carousel :=
  let c := if bool_decide (key = u "ArrowLeft") then prev c else c in
  if bool_decide (key = u "ArrowRight") then next c else c.

Definition onResize (l : Layout) (c : Carousel) : Carousel :=
  let c := setLayout l c in
  let p := match resizeTimer c with
           | Some id => delete id (pool c)
           | None => pool c
           end in
  setResizeTimer (Some (nextId c)) (<[nextId c := TimeoutRefresh]> p)
                 (Pos.succ (nextId c)) c.

Definition onTouchMove (x : Z) (c : Carousel) : Carousel :=
  let d := x - startX c in
  let c := setTouch (startX c) d c in
  let width := widthOf (layout c) in
  setView (translateX (- index c * width + d)) (dots c) c.

Definition onTouchEnd (c : Carousel) : Carousel :=
  let c :=
    if 60 <? Z.abs (deltaX c)
    then (if deltaX c <? 0 then next c else prev c)
    else refresh c in
  resetAutoplay c.

(** The listener of an event, or the callback of a timer that is live. A
    click on a button or a dot that does not exist, and a timer that is
    not live, change nothing. *)
Definition handle (e : Event) (c : Carousel) : Carousel :=
  match e with
  | ClickNext => if nextBtn c then next c else c
  | ClickPrev => if prevBtn c then prev c else c
  | ClickDot i =>
      match dots c with
      | Some ds => if bool_decide (i < length ds)%nat
                   then goTo (Z.of_nat i) c else c
      | None => c
      end
  | KeyDown key => onKeyDown key c
  | Resize l => onResize l c
  | TimeoutFires id =>
      match pool c !! id with
      | Some TimeoutRefresh =>
          refresh (setResizeTimer (resizeTimer c) (delete id (pool c))
                     (nextId c) c)
      | _ => c
      end
  | IntervalFires id =>
      match pool c !! id with
      | Some IntervalNext => next c
      | _ => c
      end
  | TouchStart x => stopAutoplay (setTouch x 0 c)
  | TouchMove x => onTouchMove x c
  | TouchEnd => onTouchEnd c
  | MouseEnter => stopAutoplay c
  | MouseLeave => resetAutoplay c
  | FocusIn => stopAutoplay c
  | FocusOut => resetAutoplay c
  end.

(** The events of a list, in order. *)
Definition runEvents (es : list Event) (c : Carousel) : Carousel :=
  foldl (λ c e, handle e c) c es.
End Carousel.

(** ** The day tabs *)

(** A [.schedule-day] element as the tabs see it: the node, and whether
    its class list holds [hidden]. *)
Record DaySection : Type := mkDaySection { sdNode : Node; sdHidden : bool }.

(** A [.day-tab]: [dataset.day] and the attribute [aria-pressed] ([None]
    when absent). *)
Record Tab : Type := mkTab { tabDay : option jsstr; ariaPressed : option jsstr }.

(** [document.querySelector(sel)]: the selector is refused, or the first
    matching element is returned, here by its position among the
    [.schedule-day] elements, or [null]. *)
Inductive QueryResult : Type :=
| QueryThrows
| QueryFinds (first : option nat).

(** How a listener ended: it returned, or an exception escaped it. *)
Inductive Ended : Type :=
| Returned
| Threw.

(** The tabs of one container, the day-sections of the page, whether the
    listeners of [initDayTabs] are attached, and the element last scrolled
    into view. *)
Record TabsPage : Type := mkTabsPage {
  tabs : list Tab;
  scheduleDays : list DaySection;
  wired : bool;
  scrolledTo : option nat
}.

Section DayTabs.
Variable toLowerCase : jsstr → jsstr.
Variable querySelector : jsstr → QueryResult.

(** [(sd.dataset.day || sd.id || '').toLowerCase()] *)
Definition showKey (sd : DaySection) : jsstr :=
  toLowerCase
    (orStr (orStr (default [] (datasetDay (sdNode sd))) (id (sdNode sd))) []).

(** [(t.dataset.day || 'all').toLowerCase()] *)
Definition tabKey (t : Tab) : jsstr :=
  toLowerCase (orStr (default [] (tabDay t)) (u "all")).

(** [`.schedule-day[data-day="${day}"], .schedule-day#${day}`] *)
Definition selectorFor (day : jsstr) : jsstr :=
  u ".schedule-day[data-day=" ++ q ++ day ++ q ++ u "], .schedule-day#"
    ++ day.

Definition setHidden (h : bool) (sd : DaySection) : DaySection :=
  mkDaySection (sdNode sd) h.

Definition showOnly (day : jsstr) (sd : DaySection) : DaySection :=
  setHidden (negb (bool_decide (showKey sd = day))) sd.

Definition show (day : jsstr) (p : TabsPage) : TabsPage * Ended :=
  if bool_decide (day = u "all") then
    (mkTabsPage (tabs p) (map (setHidden false) (scheduleDays p)) (wired p)
       (scrolledTo p), Returned)
  else
    let days := map (showOnly day) (scheduleDays p) in
    match querySelector (selectorFor day) with
    | QueryThrows => (mkTabsPage (tabs p) days (wired p) (scrolledTo p), Threw)
    | QueryFinds None =>
        (mkTabsPage (tabs p) days (wired p) (scrolledTo p), Returned)
    | QueryFinds (Some first) =>
        (mkTabsPage (tabs p) days (wired p) (Some first), Returned)
    end.

Definition setPressed (v : jsstr) (t : Tab) : Tab := mkTab (tabDay t) (Some v).

(** The click listener of tab [i]. *)
Definition clickTab (i : nat) (p : TabsPage) : TabsPage * Ended :=
  if negb (wired p) then (p, Returned)
  else
    match tabs p !! i with
    | None => (p, Returned)
    | Some t =>
        let ts := map (setPressed (u "false")) (tabs p) in
        let ts := <[i := setPressed (u "true") t]> ts in
        show (tabKey t)
             (mkTabsPage ts (scheduleDays p) (wired p) (scrolledTo p))
    end.

(** The keydown listener of tab [i]: Enter and the space bar click it. *)
Definition keyTab (i : nat) (key : jsstr) (p : TabsPage) : TabsPage * Ended :=
  if negb (wired p) then (p, Returned)
  else if bool_decide (key = u "Enter") || bool_decide (key = u " ")
       then clickTab i p else (p, Returned).

(** [initDayTabs(container)] for the tabs of the container and the
    day-sections of the page. *)
Definition initDayTabs (ts : list Tab) (days : list DaySection)
  : TabsPage * Ended :=
  match days with
  | [] => (mkTabsPage ts days false None, Returned)
  | _ :: _ =>
      let active :=
        match list_find (λ t, ariaPressed t = Some (u "true")) ts with
        | Some it => Some it
        | None => match ts with t :: _ => Some (O, t) | [] => None end
        end in
      match active with
      | Some (i, t) =>
          show (tabKey t)
               (mkTabsPage (<[i := setPressed (u "true") t]> ts) days true
                  None)
      | None => (mkTabsPage ts days true None, Returned)
      end
  end.
End DayTabs.

(** ** The sticky header *)

(** The variable [ticking], the [update] callbacks waiting for the next
    animation frame, whether the header has the class [scrolled], and the
    scroll offset of the window. *)
Record Header : Type := mkHeader {
  ticking : bool;
  frames : nat;
  scrolled : bool;
  scrollY : Q
}.

(** [y > TH] with [TH = 60]. *)
Definition pastThreshold (y : Q) : bool := negb (Qle_bool y (inject_Z 60)).

(** [update()] *)
Definition updateHeader (h : Header) : Header :=
  mkHeader false (frames h) (pastThreshold (scrollY h)) (scrollY h).

(** [initHeaderSticky()] on a page with a [#site-header], at scroll offset
    [y]: [update] runs once. *)
Definition initHeaderSticky (y : Q) : Header :=
  updateHeader (mkHeader false 0 false y).

(** The window is scrolled to [y] and the scroll listener runs. *)
Definition onScroll (y : Q) (h : Header) : Header :=
  if ticking h then mkHeader true (frames h) (scrolled h) y
  else mkHeader true (S (frames h)) (scrolled h) y.

(** An animation frame: every waiting callback runs. *)
Definition onFrame (h : Header) : Header :=
  Nat.iter (frames h) updateHeader
           (mkHeader (ticking h) 0 (scrolled h) (scrollY h)).

Inductive HeaderEvent : Type :=
| Scroll (y : Q)
| Frame.

Definition handleHeader (e : HeaderEvent) (h : Header) : Header :=
  match e with
  | Scroll y => onScroll y h
  | Frame => onFrame h
  end.

(** * Vocabulary and sample schedules of the properties *)

(** [sem r w cs]: the pattern [r] can match exactly the text [w], capturing
    [cs]. *)
Inductive sem : regex → jsstr → list jsstr → Prop :=
| sem_eps : sem Eps [] []
| sem_cls c x : c x = true → sem (Cls c) [x] []
| sem_star c w : Forall (λ x, c x = true) w → sem (Star c) w []
| sem_cat r1 r2 w1 w2 c1 c2 :
    sem r1 w1 c1 → sem r2 w2 c2 → sem (Cat r1 r2) (w1 ++ w2) (c1 ++ c2)
| sem_opt_some r w cs : sem r w cs → sem (Opt r) w cs
| sem_opt_none r : sem (Opt r) [] []
| sem_grp r w cs : sem r w cs → sem (Grp r) w (cs ++ [w]).

#[local] Hint Constructors sem : core.

Definition allDigits (w : jsstr) : Prop := Forall (λ x, isDigit x = true) w.

(** The time text of an entry parses as a range: the range pattern matches
    and both captures convert to minutes, the start and the end. *)
Definition parseRange (tt : jsstr) : option (Z * Z) :=
  match exec reRange tt with
  | Some range =>
      match toMinutes (matchIdx range 1), toMinutes (matchIdx range 2) with
      | Some s, Some e => Some (s, e)
      | _, _ => None
      end
  | None => None
  end.

Definition foundOf (it : Item) (s e : Z) : Found :=
  mkFound (titleOr it) s (Some e).

Definition startLe (a b : StartEntry) : Prop := s_start a <= s_start b.

(** The entries of the example of the fallback ordering, in document
    order. *)
Definition fallbackExample : list Item :=
  [mkItem (u "09:00") (u "Negen"); mkItem (u "08:00") (u "Acht");
   mkItem (u "10:00") (u "Tien")].

(** The external document could not be acquired. *)
Definition fetchFails (fetched : FetchResult) : Prop :=
  match fetched with
  | Rejected => True
  | Response ok _ body => ok = false ∨ body = None ∨ body = Some []
  end.

Definition emptyWorld : World := mkWorld (Some []) [].

(** A Sunday schedule with one program from midnight to one o'clock. *)
Definition midnightStart : Node :=
  mkNode (Some (u "zondag")) []
    [mkElement (Some (u "00:00 - 01:00")) (Some (u "Nachtprogramma"))
       (u "00:00 - 01:00 Nachtprogramma")].

(** A Sunday schedule with one program from eleven to midnight. *)
Definition midnightEnd : Node :=
  mkNode (Some (u "zondag")) []
    [mkElement (Some (u "23:00 - 00:00")) (Some (u "Late avond"))
       (u "23:00 - 00:00 Late avond")].

(** The unit of the decimal digit [d]. *)
Definition digit (d : Z) : N := Z.to_N (48 + d).

(** ["HH:MM"] for [r] minutes after midnight, both fields on two digits. *)
Definition clockText (r : Z) : jsstr :=
  [digit (r / 60 / 10); digit ((r / 60) mod 10); Chr.colon;
   digit (r mod 60 / 10); digit ((r mod 60) mod 10)].

(** A Monday schedule whose only entry carries the time text
    "25:99 - 26:00". *)
Definition oddClockDay : Node :=
  mkNode (Some (u "maandag")) []
    [mkElement (Some (u "25:99 - 26:00")) (Some (u "Nacht"))
       (u "25:99 - 26:00 Nacht")].

Definition special (c : N) : Prop :=
  c = Chr.amp ∨ c = Chr.lt ∨ c = Chr.gt ∨ c = Chr.dquote ∨ c = Chr.squote.

(** A Sunday schedule whose entry has markup in its title. *)
Definition scriptTitleDay : Node :=
  mkNode (Some (u "zondag")) []
    [mkElement (Some (u "08:00 - 09:00")) (Some (u "<script>alert('x')</script>"))
       (u "08:00 - 09:00 <script>alert('x')</script>")].

(** The Wednesday schedule of the end-to-end example, read from list items
    without sub-fields. *)
Definition woensdag : Node :=
  mkNode (Some (u "Woensdag")) []
    [mkElement None None (u " 08:00-09:00 Ochtendshow ");
     mkElement None None (u " 09:00-10:30 Muziek ")].

Definition morningShow : Item := mkItem (u "08:00-09:00") (u "Ochtendshow").
Definition nightShow : Item := mkItem (u "23:00 - 01:00") (u "Nacht").
Definition earlyShow : Item := mkItem (u "07:00-08:00") (u "Vroeg").
Definition overlapShow : Item := mkItem (u "08:30-09:30") (u "Overlap").

(** Two sections for Sunday, the first under [data-day], the second under
    [id], and one for Monday. *)
Definition zondagFirst : Node :=
  mkNode (Some (u "Zondag")) []
    [mkElement (Some (u "08:00 - 12:00")) (Some (u "Eerste")) (u "Eerste")].
Definition zondagLast : Node :=
  mkNode None (u "ZONDAG")
    [mkElement (Some (u "08:00 - 12:00")) (Some (u "Laatste")) (u "Laatste")].
Definition maandag : Node :=
  mkNode (Some (u "maandag")) []
    [mkElement (Some (u "08:00 - 12:00")) (Some (u "Maandag")) (u "Maandag")].

(** Two programs announced for the same time. *)
Definition tiedStarts : list Item :=
  [mkItem (u "09:00") (u "Eerst"); mkItem (u "08:00") (u "Vroeg");
   mkItem (u "09:00") (u "Later")].

Definition isSpaces (s : jsstr) : Prop := Forall (λ c, isSpace c = true) s.

(** No white space at either end. *)
Definition noSpaceEnds (t : jsstr) : Prop :=
  match t with
  | [] => True
  | c :: _ => isSpace c = false ∧ ∃ d, last t = Some d ∧ isSpace d = false
  end.

(** A text that begins and ends with a digit. *)
Definition digitEnds (w : jsstr) : Prop :=
  ∃ c t d, w = c :: t ∧ isDigit c = true ∧ last w = Some d ∧ isDigit d = true.

(** The index is a position among the slides. *)
Definition indexOk {J} (c : @Carousel J) : Prop :=
  slides c ≠ [] ∧ 0 <= index c < Z.of_nat (length (slides c)).

(** There is one dot per slide and the active dot is the one at the
    index. *)
Definition dotsOk {J} (c : @Carousel J) : Prop :=
  ∀ ds, dots c = Some ds →
    length ds = length (slides c)
    ∧ ∀ i d, ds !! i = Some d → dotActive d = bool_decide (Z.of_nat i = index c).

(** The live timers are the ones the variables know: the autoplay interval
    is live exactly when [timer] holds its id, a live refresh timeout is
    the one [resizeTimer] holds, which is never the id of the interval, no
    id in use is the id of a later timer, and without autoplay there is no
    interval. *)
Definition timersOk {J} (c : @Carousel J) : Prop :=
  (∀ id, pool c !! id = Some IntervalNext ↔ timer c = Some id)
  ∧ (∀ id, pool c !! id = Some TimeoutRefresh → resizeTimer c = Some id)
  ∧ (∀ id k, pool c !! id = Some k → (id < nextId c)%positive)
  ∧ (∀ id, resizeTimer c = Some id →
           (id < nextId c)%positive ∧ pool c !! id ≠ Some IntervalNext)
  ∧ (autoplay c = false → timer c = None).

Definition timerFields {J} (c : @Carousel J) :=
  (pool c, timer c, resizeTimer c, nextId c, autoplay c).

Definition viewFields {J} (c : @Carousel J) :=
  (slides c, index c, dots c).

Definition carouselOk {J} (c : @Carousel J) : Prop :=
  indexOk c ∧ dotsOk c ∧ timersOk c.

(** Everything of a carousel but its timers. *)
Definition restFields {J} (c : @Carousel J) :=
  (slides c, prevBtn c, nextBtn c, index c, autoplay c, startX c, deltaX c,
   layout c, transform c, dots c).

(** The lines of a list, one per line. *)
Fixpoint joinLines (ls : list jsstr) : jsstr :=
  match ls with
  | [] => []
  | [l] => l
  | l :: rest => l ++ 10%N :: joinLines rest
  end.

(** A line as [parseImageList] returns them: not empty, no white space at
    either end, no line feed. *)
Definition cleanLine (l : jsstr) : Prop :=
  l ≠ [] ∧ noSpaceEnds l ∧ 10%N ∉ l.

(** No update is lost and none is doubled: at most one callback waits, one
    waits exactly when [ticking] is set, and while none waits the class
    agrees with the scroll offset. *)
Definition headerOk (h : Header) : Prop :=
  (frames h <= 1)%nat
  ∧ (ticking h = true ↔ frames h = 1%nat)
  ∧ (ticking h = false → scrolled h = pastThreshold (scrollY h)).

(** A page whose [data-images] is never JSON. *)
Definition noJson (s : jsstr) : option (list unit) := None.

(** A carousel with an empty track, both buttons, dots, two images given
    one per line, and autoplay. *)
Definition sampleRoot : CarouselRoot :=
  mkCarouselRoot (Some O) true true true
    (Some (u "studio-1.jpg" ++ [10%N] ++ u "  studio-2.jpg "))
    (Some (u "true")) (mkLayout 300 300 600).

Definition sampleEvents : list Event :=
  [ClickPrev; MouseEnter; Resize (mkLayout 200 200 400); TimeoutFires 2;
   KeyDown (u "ArrowRight"); MouseLeave; IntervalFires 5].

(** Three day-sections, the last without key, and three tabs. *)
Definition sampleDays : list DaySection :=
  [mkDaySection zondagFirst false; mkDaySection maandag false;
   mkDaySection (mkNode None [] []) false].

Definition sampleTabs : list Tab :=
  [mkTab None None; mkTab (Some (u "Zondag")) None;
   mkTab (Some (u "maandag")) (Some (u "true"))].

(** A document in which the selector of a day finds nothing. *)
Definition findsNothing (sel : jsstr) : QueryResult := QueryFinds None.

(** A morning show that is over, announced with its range, before an entry
    with a single start time. *)
Definition expiredRange : list Item :=
  [mkItem (u "08:00-09:00") (u "Ochtendshow"); mkItem (u "07:00") (u "Vroeg")].

(** The hour and the minute [toMinutes] reads from a text: [parseInt] of
    the two captures of the clock pattern, when it matches. *)
Definition clockFields (hm : jsstr) : option (Z * Z) :=
  match exec reHM hm with
  | Some m => Some (parseInt10 (matchIdx m 1), parseInt10 (matchIdx m 2))
  | None => None
  end.

(** The largest [m] for which [m + 24*60] is computed exactly. *)
Definition maxExact : Z := 2 ^ 53 - 1440.

(** * Properties *)

(** ** What a successful match looks like *)

Lemma take_consumed (w rest : jsstr) :
  take (length (w ++ rest) - length rest) (w ++ rest) = w.
Proof.
  rewrite length_app.
  replace (length w + length rest - length rest)%nat with (length w) by lia.
  by rewrite take_app_length.
Qed.

Lemma star_sound {A} c (k : @cont A) caps inp a :
  star c k caps inp = Some a →
  ∃ w rest, inp = w ++ rest ∧ Forall (λ x, c x = true) w ∧ k rest caps = Some a.
Proof.
  induction inp as [|x t IH]; simpl; intros H.
  - exists [], []. auto.
  - destruct (c x) eqn:Hc.
    + destruct (star c k caps t) as [a'|] eqn:Hs.
      * injection H as ->. destruct (IH eq_refl) as (w & rest & -> & Hw & Hk).
        exists (x :: w), rest. auto.
      * exists [], (x :: t). auto.
    + exists [], (x :: t). auto.
Qed.

Lemma run_sound {A} r : ∀ inp caps (k : @cont A) a,
  run r inp caps k = Some a →
  ∃ w rest cs, inp = w ++ rest ∧ sem r w cs ∧ k rest (caps ++ cs) = Some a.
Proof.
  induction r as [|c|c|r1 IH1 r2 IH2|r IH|r IH]; simpl; intros inp caps k a H.
  - exists [], inp, []. rewrite app_nil_r. auto.
  - destruct inp as [|x t]; [done|]. destruct (c x) eqn:Hc; [|done].
    exists [x], t, []. rewrite app_nil_r. auto.
  - apply star_sound in H as (w & rest & -> & Hw & Hk).
    exists w, rest, []. rewrite app_nil_r. auto.
  - apply IH1 in H as (w1 & rest1 & c1 & -> & H1 & H).
    apply IH2 in H as (w2 & rest2 & c2 & -> & H2 & H).
    exists (w1 ++ w2), rest2, (c1 ++ c2).
    rewrite <- !app_assoc. rewrite <- app_assoc in H. auto.
  - destruct (run r inp caps k) as [a'|] eqn:Hr.
    + injection H as ->. apply IH in Hr as (w & rest & cs & -> & Hs & Hk).
      exists w, rest, cs. auto.
    + exists [], inp, []. rewrite app_nil_r. auto.
  - apply IH in H as (w & rest & cs & -> & Hs & Hk).
    rewrite take_consumed in Hk.
    exists w, rest, (cs ++ [w]). rewrite app_assoc. auto.
Qed.

Lemma matchAt_sound r inp m :
  matchAt r inp = Some m → ∃ rest, inp = m0 m ++ rest ∧ sem r (m0 m) (groups m).
Proof.
  unfold matchAt. intros H.
  apply run_sound in H as (w & rest & cs & -> & Hs & Hk).
  injection Hk as <-. simpl. rewrite take_consumed. eauto.
Qed.

Lemma exec_sound r s m :
  exec r s = Some m →
  ∃ pre rest, s = pre ++ m0 m ++ rest ∧ sem r (m0 m) (groups m).
Proof.
  induction s as [|x t IH]; simpl.
  - destruct (matchAt r []) eqn:Hm; [|done]. intros [= ->].
    apply matchAt_sound in Hm as (rest & ? & ?). exists [], rest. auto.
  - destruct (matchAt r (x :: t)) eqn:Hm.
    + intros [= ->]. apply matchAt_sound in Hm as (rest & ? & ?).
      exists [], rest. auto.
    + intros H. destruct (IH H) as (pre & rest & -> & Hs).
      exists (x :: pre), rest. auto.
Qed.

Lemma sem_Exactly n c w cs :
  sem (Exactly n c) w cs →
  cs = [] ∧ Forall (λ x, c x = true) w ∧ length w = n.
Proof.
  revert w cs. induction n as [|n IH]; simpl; intros w cs H.
  - inversion H; subst. auto.
  - inversion H as [| | |? ? ? ? ? ? H1 H2| | |]; subst.
    inversion H1; subst. apply IH in H2 as (-> & ? & ?). simpl. auto.
Qed.

Lemma sem_AtMost n c w cs :
  sem (AtMost n c) w cs →
  cs = [] ∧ Forall (λ x, c x = true) w ∧ (length w <= n)%nat.
Proof.
  revert w cs. induction n as [|n IH]; simpl; intros w cs H.
  - inversion H; subst. auto.
  - inversion H as [| | | |? ? ? H1|?|]; subst.
    + inversion H1 as [| | |? ? ? ? ? ? H2 H3| | |]; subst.
      inversion H2; subst. apply IH in H3 as (-> & ? & ?).
      simpl. split_and!; auto. lia.
    + split_and!; auto. simpl. lia.
Qed.

Lemma sem_Rep c lo hi w cs :
  sem (Rep c lo hi) w cs →
  cs = [] ∧ Forall (λ x, c x = true) w
  ∧ (lo <= length w <= lo + (hi - lo))%nat.
Proof.
  unfold Rep. intros H.
  inversion H as [| | |? ? ? ? ? ? H1 H2| | |]; subst.
  apply sem_Exactly in H1 as (-> & ? & ?).
  apply sem_AtMost in H2 as (-> & ? & ?).
  rewrite length_app. split_and!; auto; try lia. by apply Forall_app.
Qed.

(** The two captures of [reHM] are one or two digits and two digits. *)
Lemma hm_groups_digits hm m :
  exec reHM hm = Some m →
  ∃ g1 g2, groups m = [g1; g2]
    ∧ allDigits g1 ∧ (1 <= length g1 <= 2)%nat
    ∧ allDigits g2 ∧ length g2 = 2%nat.
Proof.
  intros H. apply exec_sound in H as (pre & rest & _ & H).
  revert H. generalize (m0 m) (groups m). intros w cs H. unfold reHM in H.
  inversion H as [| | |? ? ? ? ? ? Hg1 Htl| | |]; subst.
  inversion Hg1 as [| | | | | |? ? ? Hr1]; subst.
  inversion Htl as [| | |? ? ? ? ? ? Hcol Hg2| | |]; subst.
  inversion Hcol; subst.
  inversion Hg2 as [| | | | | |? ? ? Hr2]; subst.
  apply sem_Rep in Hr1 as (-> & ? & ?). apply sem_Rep in Hr2 as (-> & ? & ?).
  simpl. eexists _, _. split; [reflexivity|]. unfold allDigits.
  split_and!; auto; lia.
Qed.

Lemma digitVal_range c : isDigit c = true → 0 <= digitVal c <= 9.
Proof.
  unfold isDigit, digitVal. intros H.
  apply andb_true_iff in H as [H1 H2].
  apply N.leb_le in H1, H2. lia.
Qed.

Lemma parseInt10_two_digits g :
  allDigits g → (length g <= 2)%nat → 0 <= parseInt10 g <= 99.
Proof.
  unfold parseInt10, allDigits. intros Hd Hl.
  destruct g as [|a [|b [|? ?]]]; simpl in *; try lia.
  - apply Forall_cons in Hd as [Ha _]. rewrite Ha.
    apply digitVal_range in Ha. lia.
  - apply Forall_cons in Hd as [Ha Hd]. apply Forall_cons in Hd as [Hb _].
    rewrite Ha, Hb. apply digitVal_range in Ha, Hb. lia.
Qed.

(** ** The range pass *)

Lemma rangeEntry_parsed now it s e :
  parseRange (timeText it) = Some (s, e) →
  rangeEntry now it =
    if s <=? e then
      if (s <=? now) && (now <? e) then Some (foundOf it s e) else None
    else
      if (s <=? now) || (now <? e) then Some (foundOf it s e) else None.
Proof.
  unfold parseRange, rangeEntry.
  destruct (exec reRange (timeText it)) as [range|]; [|done].
  destruct (toMinutes (matchIdx range 1)); [|done].
  destruct (toMinutes (matchIdx range 2)); [|done].
  by intros [= -> ->].
Qed.

Lemma rangePass_skip now pre rest :
  (∀ x, x ∈ pre → rangeEntry now x = None) →
  rangePass now (pre ++ rest) = rangePass now rest.
Proof.
  induction pre as [|x pre IH]; simpl; intros H; [done|].
  rewrite (H x) by set_solver. apply IH. intros y Hy. apply H. set_solver.
Qed.

Lemma rangePass_first now items f :
  rangePass now items = Some f →
  ∃ pre it post, items = pre ++ it :: post
    ∧ (∀ x, x ∈ pre → rangeEntry now x = None)
    ∧ rangeEntry now it = Some f.
Proof.
  induction items as [|x items IH]; simpl; [done|].
  destruct (rangeEntry now x) as [g|] eqn:Hx.
  - intros [= ->]. exists [], x, items. split_and!; auto. set_solver.
  - intros H. destruct (IH H) as (pre & it & post & -> & Hpre & Hit).
    exists (x :: pre), it, post. split_and!; auto.
    intros y Hy. apply elem_of_cons in Hy as [->|Hy]; auto.
Qed.

(** C1. An entry whose time text parses as a range with start [s] and end
    [e], [s <= e], is selected by the range pass for the reference time
    [now] iff [s <= now < e]: the loop body sets [found] to this entry
    exactly then, and, when no earlier entry of the list matches, the pass
    returns this entry exactly then (and goes on to the later entries
    otherwise). At [now = e] the entry is not selected; at [now = s] it is
    (the interval being non-empty, [s < e]). *)
Theorem C1_nonwrapping_range (now : Z) (it : Item) (s e : Z) :
  parseRange (timeText it) = Some (s, e) → s <= e →
  (rangeEntry now it = Some (foundOf it s e) ↔ s <= now < e)
  ∧ (rangeEntry now it = None ↔ ¬ (s <= now < e))
  ∧ (∀ pre post, (∀ x, x ∈ pre → rangeEntry now x = None) →
       rangePass now (pre ++ it :: post) =
         if decide (s <= now < e) then Some (foundOf it s e)
         else rangePass now post)
  ∧ (now = e → rangeEntry now it = None)
  ∧ (now = s → s < e → rangeEntry now it = Some (foundOf it s e)).
Proof.
  intros Hp Hse. pose proof (rangeEntry_parsed now it s e Hp) as Hr.
  destruct (Z.leb_spec s e) as [_|?]; [|lia].
  assert (Hiff : (s <=? now) && (now <? e) = true ↔ s <= now < e).
  { rewrite andb_true_iff, Z.leb_le, Z.ltb_lt. tauto. }
  assert (Hsel : rangeEntry now it = Some (foundOf it s e) ↔ s <= now < e).
  { rewrite Hr, <- Hiff. destruct ((s <=? now) && (now <? e)); split; done. }
  assert (Hnone : rangeEntry now it = None ↔ ¬ (s <= now < e)).
  { rewrite Hr, <- Hiff. destruct ((s <=? now) && (now <? e)); split; done. }
  split_and!; [exact Hsel | exact Hnone | | |].
  - intros pre post Hpre. rewrite rangePass_skip by done. simpl.
    case_decide as Hd.
    + by rewrite (proj2 Hsel Hd).
    + by rewrite (proj2 Hnone Hd).
  - intros ->. apply Hnone. lia.
  - intros -> Hlt. apply Hsel. lia.
Qed.

(** C2. An entry whose time text parses as a range that wraps past midnight
    (start [s] greater than end [e]) is selected by the range pass for the
    reference time [now] iff [now >= s] or [now < e]; for a reference time
    of the day that is [now] in [[s,1440)] or in [[0,e)]. *)
Theorem C2_wrapping_range (now : Z) (it : Item) (s e : Z) :
  parseRange (timeText it) = Some (s, e) → s > e →
  (rangeEntry now it = Some (foundOf it s e) ↔ now >= s ∨ now < e)
  ∧ (rangeEntry now it = None ↔ ¬ (now >= s ∨ now < e))
  ∧ (∀ pre post, (∀ x, x ∈ pre → rangeEntry now x = None) →
       rangePass now (pre ++ it :: post) =
         if decide (now >= s ∨ now < e) then Some (foundOf it s e)
         else rangePass now post)
  ∧ (0 <= now < 1440 →
       (rangeEntry now it = Some (foundOf it s e)
        ↔ s <= now < 1440 ∨ 0 <= now < e)).
Proof.
  intros Hp Hse. pose proof (rangeEntry_parsed now it s e Hp) as Hr.
  destruct (Z.leb_spec s e) as [?|_]; [lia|].
  assert (Hiff : (s <=? now) || (now <? e) = true ↔ now >= s ∨ now < e).
  { rewrite orb_true_iff, Z.leb_le, Z.ltb_lt. lia. }
  assert (Hsel : rangeEntry now it = Some (foundOf it s e)
                 ↔ now >= s ∨ now < e).
  { rewrite Hr, <- Hiff. destruct ((s <=? now) || (now <? e)); split; done. }
  assert (Hnone : rangeEntry now it = None ↔ ¬ (now >= s ∨ now < e)).
  { rewrite Hr, <- Hiff. destruct ((s <=? now) || (now <? e)); split; done. }
  split_and!; [exact Hsel | exact Hnone | |].
  - intros pre post Hpre. rewrite rangePass_skip by done. simpl.
    case_decide as Hd.
    + by rewrite (proj2 Hsel Hd).
    + by rewrite (proj2 Hnone Hd).
  - intros Hnow. rewrite Hsel. lia.
Qed.

(** C3. The range pass returns the first entry, in list order, that
    contains [now]: when no entry of [pre] matches and [it] does, the pass
    over [pre ++ it :: post] returns [it]'s program whatever follows it, so
    that a later entry that matches as well is never returned; and whatever
    the pass returns is the program of an entry with no match before it. *)
Theorem C3_first_match_wins (now : Z) :
  (∀ pre it post f,
     (∀ x, x ∈ pre → rangeEntry now x = None) →
     rangeEntry now it = Some f →
     rangePass now (pre ++ it :: post) = Some f
     ∧ ∀ post', rangePass now (pre ++ it :: post')
                = rangePass now (pre ++ it :: post))
  ∧ (∀ items f, rangePass now items = Some f →
       ∃ pre it post, items = pre ++ it :: post
         ∧ (∀ x, x ∈ pre → rangeEntry now x = None)
         ∧ rangeEntry now it = Some f).
Proof.
  split.
  - intros pre it post f Hpre Hit.
    assert (∀ p, rangePass now (pre ++ it :: p) = Some f) as Hall.
    { intros p. rewrite rangePass_skip by done. simpl. by rewrite Hit. }
    split; [apply Hall|]. intros post'. by rewrite !Hall.
  - apply rangePass_first.
Qed.

(** ** The fallback pass *)

Lemma insertSorted_perm {A} (cmp : A → A → Z) x l :
  insertSorted cmp x l ≡ₚ x :: l.
Proof.
  induction l as [|y l IH]; simpl; [done|].
  destruct (cmp x y <=? 0); [done|]. rewrite IH. apply Permutation_swap.
Qed.

Lemma sort_perm {A} (cmp : A → A → Z) l : sort cmp l ≡ₚ l.
Proof.
  induction l as [|x l IH]; simpl; [done|].
  by rewrite insertSorted_perm, IH.
Qed.

Lemma insertSorted_sorted x l :
  StronglySorted startLe l → StronglySorted startLe (insertSorted byStart x l).
Proof.
  induction 1 as [|y l Hs IH Hy]; simpl.
  - repeat constructor.
  - unfold byStart at 1. destruct (Z.leb_spec (s_start x - s_start y) 0).
    + constructor; [by constructor|]. constructor; [unfold startLe; lia|].
      eapply Forall_impl; [exact Hy|]. unfold startLe. simpl. lia.
    + constructor; [done|]. rewrite insertSorted_perm.
      constructor; [unfold startLe; lia|done].
Qed.

Lemma sort_sorted l : StronglySorted startLe (sort byStart l).
Proof.
  induction l; simpl; [constructor|]. by apply insertSorted_sorted.
Qed.

Lemma scan_origin now cand l p :
  scan now cand l = Some p → cand = Some p ∨ (p ∈ l ∧ s_start p <= now).
Proof.
  revert cand. induction l as [|x l IH]; simpl; intros cand H; [by left|].
  destruct (Z.leb_spec (s_start x) now); [|by left].
  destruct (IH _ H) as [[= ->]|[? ?]]; right; split; auto; set_solver.
Qed.

Lemma scan_greatest now cand l p :
  StronglySorted startLe l → scan now cand l = Some p →
  ∀ q, q ∈ l → s_start q <= now → s_start q <= s_start p.
Proof.
  intros Hs. revert cand. induction Hs as [|x l Hs IH Hx]; simpl;
    intros cand H q Hq Hle; [set_solver|].
  rewrite Forall_forall in Hx. unfold startLe in Hx.
  destruct (Z.leb_spec (s_start x) now) as [Hxn|Hxn].
  - apply elem_of_cons in Hq as [->|Hq]; [|by eapply IH].
    destruct (scan_origin _ _ _ _ H) as [[= ->]|[Hp _]]; [lia|by apply Hx].
  - apply elem_of_cons in Hq as [->|Hq]; [lia|]. specialize (Hx _ Hq). lia.
Qed.

Lemma scan_none now l :
  StronglySorted startLe l →
  (scan now None l = None ↔ ∀ q, q ∈ l → now < s_start q).
Proof.
  intros Hs. destruct Hs as [|x l Hs Hx]; simpl; [set_solver|].
  rewrite Forall_forall in Hx. unfold startLe in Hx.
  destruct (Z.leb_spec (s_start x) now) as [Hxn|Hxn]; split.
  - intros H. exfalso.
    assert (∀ c t, scan now (Some c) t ≠ None) as Hne.
    { intros c t. revert c. induction t as [|y t IH]; simpl; [done|].
      intros c. destruct (s_start y <=? now); [apply IH|done]. }
    by apply Hne in H.
  - intros H. assert (now < s_start x); [apply H; set_solver|lia].
  - intros _ q Hq. apply elem_of_cons in Hq as [->|Hq]; [lia|].
    specialize (Hx _ Hq). lia.
  - done.
Qed.

Lemma startsOf_perm items : startsOf items ≡ₚ omap startOf items.
Proof. apply sort_perm. Qed.

Lemma fallbackPass_some now items f :
  fallbackPass now items = Some f →
  end_ f = None
  ∧ mkStart (title f) (start f) ∈ omap startOf items
  ∧ start f <= now
  ∧ ∀ q, q ∈ omap startOf items → s_start q <= now → s_start q <= start f.
Proof.
  unfold fallbackPass.
  pose proof (sort_sorted (omap startOf items)) as Hs.
  pose proof (startsOf_perm items) as Hp. fold (startsOf items) in Hs.
  destruct (startsOf items) as [|x l] eqn:Hst; [done|].
  destruct (scan now None (x :: l)) as [cand|] eqn:Hsc; [|done].
  intros [= <-]. simpl.
  destruct (scan_origin _ _ _ _ Hsc) as [?|[Hin Hle]]; [done|].
  split_and!; auto.
  - rewrite <- Hp. by destruct cand.
  - intros q Hq. rewrite <- Hp in Hq. by eapply scan_greatest.
Qed.

Lemma fallbackPass_none now items :
  fallbackPass now items = None
  ↔ ∀ q, q ∈ omap startOf items → now < s_start q.
Proof.
  unfold fallbackPass.
  pose proof (sort_sorted (omap startOf items)) as Hs.
  pose proof (startsOf_perm items) as Hp. fold (startsOf items) in Hs.
  setoid_rewrite <- Hp.
  destruct (startsOf items) as [|x l] eqn:Hst; [set_solver|].
  rewrite <- (scan_none now (x :: l) Hs).
  destruct (scan now None (x :: l)); split; done.
Qed.

Lemma rangePass_none now items :
  rangePass now items = None ↔ ∀ x, x ∈ items → rangeEntry now x = None.
Proof.
  induction items as [|x items IH]; simpl; [set_solver|].
  destruct (rangeEntry now x) eqn:Hx.
  - split; [done|]. intros H. rewrite <- Hx. apply H, elem_of_cons. by left.
  - rewrite IH. split.
    + intros H y Hy. apply elem_of_cons in Hy as [->|Hy]; auto.
    + intros H y Hy. apply H, elem_of_cons. by right.
Qed.

(** C4 (as stated, refuted). The fallback pass does not look at the
    entries with a single start time only: an entry in range form takes
    part with its start. At 09:30 the range 08:00-09:00 is over, so no
    range matches; the only entry with a single start time is the one of
    07:00, yet the result is the entry of the range, with start 08:00 and
    no end. *)
Lemma C4_counterexample :
  rangePass 570 expiredRange = None
  ∧ parseRange (u "08:00-09:00") = Some (480, 540)
  ∧ filter (λ it, parseRange (timeText it) = None) expiredRange
    = [mkItem (u "07:00") (u "Vroeg")]
  ∧ startOf (mkItem (u "07:00") (u "Vroeg")) = Some (mkStart (u "Vroeg") 420)
  ∧ resolve 570 expiredRange = Some (mkFound (u "Ochtendshow") 480 None)
  ∧ resolve 570 expiredRange ≠ Some (mkFound (u "Vroeg") 420 None).
Proof. by vm_compute. Qed.

(** C4 (amended). When no range matches, the candidates are the entries
    whose time text contains an [HH:MM], in range form or not, each with
    the first [HH:MM] of its text as start; they are sorted ascending by
    start, and the result is the candidate with the greatest start not
    after [now], whatever the document order (permuting the entries does
    not change the start chosen), returned without end; the result is "not
    found" exactly when every candidate starts after [now], in particular
    when there is none. With starts 09:00, 08:00, 10:00 and [now] = 09:30
    the 09:00 entry is chosen. *)
Theorem C4_fallback_greatest_start :
  (∀ now items, rangePass now items = None →
     (StronglySorted startLe (startsOf items)
      ∧ startsOf items ≡ₚ omap startOf items)
     ∧ (∀ f, resolve now items = Some f →
          end_ f = None
          ∧ mkStart (title f) (start f) ∈ omap startOf items
          ∧ start f <= now
          ∧ ∀ q, q ∈ omap startOf items → s_start q <= now →
                 s_start q <= start f)
     ∧ (resolve now items = None
        ↔ ∀ q, q ∈ omap startOf items → now < s_start q)
     ∧ (omap startOf items = [] → resolve now items = None)
     ∧ (∀ items', items' ≡ₚ items →
          start <$> resolve now items' = start <$> resolve now items)
     ∧ (∀ q, q ∈ omap startOf items
             ↔ ∃ it, it ∈ items ∧ startOf it = Some q))
  ∧ resolve 570 fallbackExample = Some (mkFound (u "Negen") 540 None).
Proof.
  split; [|by vm_compute].
  intros now items Hr.
  assert (Hres : resolve now items = fallbackPass now items).
  { unfold resolve. by rewrite Hr. }
  split_and!.
  - apply sort_sorted.
  - apply startsOf_perm.
  - intros f Hf. rewrite Hres in Hf. by apply fallbackPass_some.
  - rewrite Hres. apply fallbackPass_none.
  - intros He. rewrite Hres. apply fallbackPass_none. rewrite He. set_solver.
  - intros items' Hp.
    assert (Hr' : rangePass now items' = None).
    { apply rangePass_none. intros x Hx. rewrite Hp in Hx.
      revert x Hx. by apply rangePass_none. }
    assert (Hres' : resolve now items' = fallbackPass now items').
    { unfold resolve. by rewrite Hr'. }
    rewrite Hres, Hres'.
    assert (Hc : omap startOf items' ≡ₚ omap startOf items) by by rewrite Hp.
    destruct (fallbackPass now items) as [f|] eqn:Hf;
      destruct (fallbackPass now items') as [f'|] eqn:Hf'; simpl; try done.
    + apply fallbackPass_some in Hf as (_ & Hin & Hle & Hmax).
      apply fallbackPass_some in Hf' as (_ & Hin' & Hle' & Hmax').
      f_equal. apply Z.le_antisymm.
      * apply (Hmax (mkStart (title f') (start f'))); [by rewrite <- Hc|done].
      * apply (Hmax' (mkStart (title f) (start f))); [by rewrite Hc|done].
    + apply fallbackPass_some in Hf as (_ & Hin & Hle & _).
      pose proof (proj1 (fallbackPass_none now items') Hf') as Hall.
      rewrite <- Hc in Hin. apply Hall in Hin. simpl in Hin. lia.
    + apply fallbackPass_some in Hf' as (_ & Hin & Hle & _).
      pose proof (proj1 (fallbackPass_none now items) Hf) as Hall.
      rewrite Hc in Hin. apply Hall in Hin. simpl in Hin. lia.
  - intros q. apply list_elem_of_omap.
Qed.

(** ** Failures *)

Lemma fetchFails_throws lower fetched now w :
  fetchFails fetched → ∃ e, fetchAndCompute lower fetched now w = Throw e.
Proof.
  destruct fetched as [|ok status body]; simpl; [eauto|].
  intros [-> | [-> | ->]]; simpl; eauto; destruct ok; simpl; eauto.
Qed.

Lemma compute_not_found lower nodes remote now w out w' :
  computeNowFromScheduleDOM lower nodes remote now w = (out, w') →
  found out = false →
  out = nothingOut ∧ w' = renderNowPlayingToTarget nothingNow w.
Proof.
  unfold computeNowFromScheduleDOM.
  destruct (buildMap lower nodes !! dayKeyOf now) as [n|].
  - destruct (resolve (nowMinutesOf now) (itemsOf n)) as [f|].
    + by intros [= <- <-].
    + by intros [= <- <-].
  - by intros [= <- <-].
Qed.

(** C5. The three kinds of failure end the same way. (a) No day-section is
    filed under today's key, or today's section has no entries; (c) neither
    pass finds an entry: [computeNowFromScheduleDOM] returns
    [found = false] with the fixed "Geen programma nu" payload and renders
    that payload. (b) The page has no day-sections and the fetch fails (the
    request is rejected, the status is not a success, the body cannot be
    read, or the document holds no day-section):
    [loadCurrentProgramFromPrograma] logs the error and returns the same
    result. The call always completes normally, and every result with
    [found = false] carries that payload. *)
Theorem C5_failures_converge (lower : jsstr → jsstr) :
  (∀ nodes remote now w,
     buildMap lower nodes !! dayKeyOf now = None →
     computeNowFromScheduleDOM lower nodes remote now w
     = (nothingOut, renderNowPlayingToTarget nothingNow w))
  ∧ (∀ nodes remote now w n,
       buildMap lower nodes !! dayKeyOf now = Some n → itemsOf n = [] →
       computeNowFromScheduleDOM lower nodes remote now w
       = (nothingOut, renderNowPlayingToTarget nothingNow w))
  ∧ (∀ nodes remote now w n,
       buildMap lower nodes !! dayKeyOf now = Some n →
       rangePass (nowMinutesOf now) (itemsOf n) = None →
       fallbackPass (nowMinutesOf now) (itemsOf n) = None →
       computeNowFromScheduleDOM lower nodes remote now w
       = (nothingOut, renderNowPlayingToTarget nothingNow w))
  ∧ (∀ fetched now w, fetchFails fetched →
       ∃ e, loadCurrentProgramFromPrograma lower [] fetched now w
            = Normal (nothingOut,
                      renderNowPlayingToTarget nothingNow (warn e w)))
  ∧ (∀ localNodes fetched now w,
       ∃ out w', loadCurrentProgramFromPrograma lower localNodes fetched now w
                 = Normal (out, w')
                 ∧ (found out = false → out = nothingOut)).
Proof.
  split_and!.
  - intros nodes remote now w H. unfold computeNowFromScheduleDOM.
    by rewrite H.
  - intros nodes remote now w n H Hi. unfold computeNowFromScheduleDOM.
    by rewrite H, Hi.
  - intros nodes remote now w n H Hr Hf. unfold computeNowFromScheduleDOM.
    rewrite H. unfold resolve. by rewrite Hr, Hf.
  - intros fetched now w Hf.
    destruct (fetchFails_throws lower fetched now w Hf) as [e He].
    exists e. unfold loadCurrentProgramFromPrograma. by rewrite He.
  - intros localNodes fetched now w. unfold loadCurrentProgramFromPrograma.
    destruct localNodes as [|n l].
    + destruct (fetchAndCompute lower fetched now w) as [[out w']|e] eqn:Hfc.
      * exists out, w'. split; [done|]. intros Hnf.
        destruct fetched as [|ok status [[|r rs]|]]; simpl in Hfc;
          try done; destruct ok; simpl in Hfc; try done.
        injection Hfc as Hfc.
        by destruct (compute_not_found _ _ _ _ _ _ _ Hfc Hnf).
      * eexists _, _. split; [reflexivity|done].
    + destruct (computeNowFromScheduleDOM lower (n :: l) false now w)
        as [out w'] eqn:Hc.
      exists out, w'. split; [done|]. intros Hnf.
      by destruct (compute_not_found _ _ _ _ _ _ _ Hc Hnf).
Qed.

(** ** The time label *)

(** C6 (the script at the failing inputs). A program that starts at 00:00
    gets no time label at all, whatever its end: on a Sunday at 00:30 the
    program "00:00 - 01:00" is resolved with start 0 and end 60 and
    rendered with an empty label. A program that ends at 00:00 gets the
    label of a program without end: at 23:30 the program "23:00 - 00:00" is
    resolved with start 1380 and end 0 and labelled "23:00 →". *)
Theorem C6_midnight_label_dropped :
  (∀ t e, timeStrOf (mkFound t 0 e) = [])
  ∧ resolve 30 (itemsOf midnightStart)
    = Some (mkFound (u "Nachtprogramma") 0 (Some 60))
  ∧ fst (computeNowFromScheduleDOM asciiLower [midnightStart] false
           (mkDate 0 0 30) emptyWorld)
    = mkOut (htmlHead ++ u "Nachtprogramma" ++ htmlMid ++ [] ++ htmlTail) true
  ∧ resolve 1410 (itemsOf midnightEnd)
    = Some (mkFound (u "Late avond") 1380 (Some 0))
  ∧ fst (computeNowFromScheduleDOM asciiLower [midnightEnd] false
           (mkDate 0 23 30) emptyWorld)
    = mkOut (htmlHead ++ u "Late avond" ++ htmlMid
               ++ (u "23:00 " ++ [Chr.arrow]) ++ htmlTail) true.
Proof.
  split_and!; [done | by vm_compute..].
Qed.

(** ** Formatting minutes *)

Lemma fmt_day_table :
  Forall (λ n, fmt (Some (Z.of_nat n)) = clockText (Z.of_nat n))
         (seq 0 1440).
Proof. refine (bool_decide_unpack _ _). by vm_compute. Qed.

Lemma fmt_day r : 0 <= r < 1440 → fmt (Some r) = clockText r.
Proof.
  intros Hr. pose proof fmt_day_table as H. rewrite Forall_forall in H.
  specialize (H (Z.to_nat r)). rewrite Z2Nat.id in H by lia.
  apply H, elem_of_seq. lia.
Qed.

Lemma fmt_unfold m :
  fmt (Some m) =
    padStart 2 Chr.zero (toString (Z.rem (m + 1440) 1440 / 60))
    ++ [Chr.colon]
    ++ padStart 2 Chr.zero (toString (Z.rem (Z.rem (m + 1440) 1440) 60)).
Proof. reflexivity. Qed.

Lemma fmt_normalises m :
  -1440 <= m → fmt (Some m) = fmt (Some (m mod 1440)).
Proof.
  intros Hm. pose proof (Z.mod_pos_bound m 1440 ltac:(lia)) as Hr.
  rewrite !fmt_unfold.
  assert (Z.rem (m + 1440) 1440 = m mod 1440) as ->.
  { rewrite Z.rem_mod_nonneg by lia.
    replace (m + 1440) with (m + 1 * 1440) by lia. apply Z_mod_plus_full. }
  assert (Z.rem (m mod 1440 + 1440) 1440 = m mod 1440) as ->; [|done].
  rewrite Z.rem_mod_nonneg by lia.
  replace (m mod 1440 + 1440) with (m mod 1440 + 1 * 1440) by lia.
  rewrite Z_mod_plus_full. apply Z.mod_small. lia.
Qed.

(** C7 (as stated, refuted). Below -1440 the single [+ 24*60] does not
    bring the input back above zero and the remainder keeps its sign:
    [fmt(-1500)] is "-1:00" while [fmt(-1500 mod 1440) = fmt(1380)] is
    "23:00". *)
Lemma C7_counterexample :
  fmt (Some (-1500)) = u "-1:00"
  ∧ fmt (Some ((-1500) mod 1440)) = u "23:00"
  ∧ fmt (Some (-1500)) ≠ fmt (Some ((-1500) mod 1440)).
Proof. by vm_compute. Qed.

(** C7 (amended). For every integer [m] from -1440 up to 2^53 - 1440 (the
    inputs whose sum with [24*60] is not negative and is computed
    exactly), [fmt] formats [m] reduced modulo 1440 into [[0,1440)], hours
    and minutes zero-padded to two digits each: [fmt(m) = fmt(m mod 1440)],
    and it is the five units HH:MM of that value. [fmt(-30)] = "23:30",
    [fmt(1440)] = "00:00", [fmt(75)] = "01:15". *)
Theorem C7_fmt_normalises (m : Z) :
  -1440 <= m <= maxExact →
  0 <= m mod 1440 < 1440
  ∧ fmt (Some m) = fmt (Some (m mod 1440))
  ∧ fmt (Some m) = clockText (m mod 1440)
  ∧ length (fmt (Some m)) = 5%nat
  ∧ fmt (Some (-30)) = u "23:30"
  ∧ fmt (Some 1440) = u "00:00"
  ∧ fmt (Some 75) = u "01:15".
Proof.
  intros [Hm _]. pose proof (Z.mod_pos_bound m 1440 ltac:(lia)) as Hr.
  assert (fmt (Some m) = clockText (m mod 1440)) as Hc.
  { rewrite fmt_normalises by done. by apply fmt_day. }
  split; [exact Hr|]. split; [by apply fmt_normalises|].
  split; [exact Hc|]. split; [by rewrite Hc|]. by vm_compute.
Qed.

(** ** Where a resolved program comes from *)

Lemma orStr_nonempty a b : b ≠ [] → orStr a b ≠ [].
Proof. unfold orStr. by destruct a. Qed.

Lemma titleOr_nonempty it : titleOr it ≠ [].
Proof. by apply orStr_nonempty. Qed.

Lemma rangeEntry_origin now it f :
  rangeEntry now it = Some f →
  title f = titleOr it
  ∧ (∃ hm, toMinutes hm = Some (start f))
  ∧ ∃ e hm, end_ f = Some e ∧ toMinutes hm = Some e.
Proof.
  unfold rangeEntry.
  destruct (exec reRange (timeText it)) as [range|]; [|done].
  destruct (toMinutes (matchIdx range 1)) as [s|] eqn:Hs; [|done].
  destruct (toMinutes (matchIdx range 2)) as [e|] eqn:He; [|done].
  destruct (s <=? e).
  - destruct ((s <=? now) && (now <? e)); [|done].
    intros [= <-]. simpl. split_and!; eauto.
  - destruct ((s <=? now) || (now <? e)); [|done].
    intros [= <-]. simpl. split_and!; eauto.
Qed.

Lemma startOf_origin it p :
  startOf it = Some p →
  s_title p = titleOr it ∧ ∃ hm, toMinutes hm = Some (s_start p).
Proof.
  unfold startOf. destruct (exec reStart (timeText it)) as [m|]; [|done].
  destruct (toMinutes (matchIdx m 1)) as [s|] eqn:Hs; [|done].
  intros [= <-]. simpl. eauto.
Qed.

Lemma resolve_origin now items f :
  resolve now items = Some f →
  (∃ it, it ∈ items ∧ title f = titleOr it)
  ∧ (∃ hm, toMinutes hm = Some (start f))
  ∧ ∀ e, end_ f = Some e → ∃ hm, toMinutes hm = Some e.
Proof.
  unfold resolve. destruct (rangePass now items) as [g|] eqn:Hr.
  - intros [= ->].
    apply rangePass_first in Hr as (pre & it & post & -> & _ & Hit).
    apply rangeEntry_origin in Hit as (Ht & Hs & e & hm & He & Hm).
    split_and!; auto.
    + exists it. split; [|done]. apply elem_of_app. right. by left.
    + intros e' He'. rewrite He in He'. injection He' as <-. eauto.
  - intros Hf. apply fallbackPass_some in Hf as (He & Hin & _ & _).
    apply list_elem_of_omap in Hin as (it & Hit & Hst).
    apply startOf_origin in Hst as (Ht & Hs). simpl in *.
    split_and!; eauto. intros e He'. congruence.
Qed.

(** ** The range of the minutes *)

Lemma toMinutes_fields hm v :
  toMinutes hm = Some v →
  ∃ hh mm, v = hh * 60 + mm ∧ 0 <= hh <= 99 ∧ 0 <= mm <= 99.
Proof.
  unfold toMinutes. destruct (negb (truthyStr hm)); [done|].
  destruct (exec reHM hm) as [m|] eqn:Hm; [|done]. intros [= <-].
  apply hm_groups_digits in Hm as (g1 & g2 & Hg & D1 & L1 & D2 & L2).
  unfold matchIdx. rewrite Hg. simpl.
  exists (parseInt10 g1), (parseInt10 g2). split; [done|].
  split; apply parseInt10_two_digits; auto; lia.
Qed.

(** C8 (as stated, refuted). The time text "25:99" is accepted and converts
    to 25*60+99 = 1599 minutes; at 10:00 the entry "25:99 - 26:00" is
    resolved with start 1599 and end 1560, both outside [[0,1440)]. *)
Lemma C8_counterexample :
  toMinutes (u "25:99") = Some 1599
  ∧ ∃ f, resolve (nowMinutesOf (mkDate 1 10 0)) (itemsOf oddClockDay) = Some f
         ∧ start f = 1599 ∧ end_ f = Some 1560
         ∧ ¬ (0 <= start f < 1440).
Proof.
  split; [by vm_compute|].
  exists (mkFound (u "Nacht") 1599 (Some 1560)).
  split; [by vm_compute|]. simpl. split_and!; auto. lia.
Qed.

Lemma hm_match_shape hm m :
  exec reHM hm = Some m →
  ∃ pre g1 g2 post,
    hm = pre ++ g1 ++ [Chr.colon] ++ g2 ++ post
    ∧ groups m = [g1; g2]
    ∧ allDigits g1 ∧ (1 <= length g1 <= 2)%nat
    ∧ allDigits g2 ∧ length g2 = 2%nat.
Proof.
  intros H. apply exec_sound in H as (pre & rest & Hhm & H).
  destruct m as [w cs]. simpl in *. unfold reHM in H.
  inversion H as [| | |? ? wa wb ? ? Hg1 Htl| | |]; subst.
  inversion Hg1 as [| | | | | |? ? ? Hr1]; subst.
  inversion Htl as [| | |? ? wc wd ? ? Hcol Hg2| | |]; subst.
  inversion Hcol as [|? x Hx| | | | |]; subst.
  inversion Hg2 as [| | | | | |? ? ? Hr2]; subst.
  apply sem_Rep in Hr1 as (-> & ? & ?). apply sem_Rep in Hr2 as (-> & ? & ?).
  apply N.eqb_eq in Hx as ->.
  exists pre, wa, wd, rest. rewrite <- !app_assoc. simpl.
  unfold allDigits. split_and!; auto; lia.
Qed.

Lemma clockFields_shape hm hh mm :
  clockFields hm = Some (hh, mm) →
  ∃ pre g1 g2 post,
    hm = pre ++ g1 ++ [Chr.colon] ++ g2 ++ post
    ∧ allDigits g1 ∧ (1 <= length g1 <= 2)%nat
    ∧ allDigits g2 ∧ length g2 = 2%nat
    ∧ hh = parseInt10 g1 ∧ mm = parseInt10 g2.
Proof.
  unfold clockFields. destruct (exec reHM hm) as [m|] eqn:Hm; [|done].
  apply hm_match_shape in Hm as (pre & g1 & g2 & post & E & Hg & ?).
  unfold matchIdx. rewrite Hg. simpl. intros [= <- <-].
  exists pre, g1, g2, post. split_and!; tauto.
Qed.

Lemma toMinutes_clockFields hm v :
  toMinutes hm = Some v
  ↔ ∃ hh mm, clockFields hm = Some (hh, mm) ∧ v = hh * 60 + mm.
Proof.
  unfold toMinutes, clockFields. destruct hm as [|c hm].
  - simpl. split; [done|]. by intros (? & ? & ? & _).
  - simpl negb. cbv iota. destruct (exec reHM (c :: hm)) as [m|].
    + split.
      * intros [= <-]. eauto.
      * by intros (? & ? & [= <- <-] & ->).
    + split; [done|]. by intros (? & ? & ? & _).
Qed.

Lemma rangeEntry_fields now it f :
  rangeEntry now it = Some f →
  ∃ range hh mm hh2 mm2,
    exec reRange (timeText it) = Some range
    ∧ clockFields (matchIdx range 1) = Some (hh, mm)
    ∧ clockFields (matchIdx range 2) = Some (hh2, mm2)
    ∧ start f = hh * 60 + mm ∧ end_ f = Some (hh2 * 60 + mm2).
Proof.
  unfold rangeEntry.
  destruct (exec reRange (timeText it)) as [range|]; [|done].
  destruct (toMinutes (matchIdx range 1)) as [s|] eqn:Hs; [|done].
  destruct (toMinutes (matchIdx range 2)) as [e|] eqn:He; [|done].
  apply toMinutes_clockFields in Hs as (hh & mm & Hf1 & ->).
  apply toMinutes_clockFields in He as (hh2 & mm2 & Hf2 & ->).
  intros Hsel. exists range, hh, mm, hh2, mm2.
  destruct (_ <=? _) in Hsel;
    [destruct (_ && _) in Hsel|destruct (_ || _) in Hsel];
    try done; injection Hsel as <-; done.
Qed.

Lemma startOf_fields it p :
  startOf it = Some p →
  ∃ m hh mm,
    exec reStart (timeText it) = Some m
    ∧ clockFields (matchIdx m 1) = Some (hh, mm)
    ∧ s_start p = hh * 60 + mm.
Proof.
  unfold startOf. destruct (exec reStart (timeText it)) as [m|]; [|done].
  destruct (toMinutes (matchIdx m 1)) as [s|] eqn:Hs; [|done].
  apply toMinutes_clockFields in Hs as (hh & mm & Hf & ->).
  intros [= <-]. eauto 6.
Qed.

(** C8 (amended). The start and the end of a resolved program are
    [hh*60 + mm], where [hh] and [mm] are the hour and the minute read
    from the clock text captured from the entry's time text (by the range
    pattern in the range pass: start and end; by the start pattern in the
    fallback pass: start only): the one or two digits before the colon and
    the two digits after it of the first clock in that text, with no
    reduction modulo 1440. So [0 <= hh <= 99] and [0 <= mm <= 99], the
    value lies in [[0, 6039]], and in [[0,1440)] when [hh <= 23] and
    [mm <= 59]. That is what [toMinutes] returns for every text. The
    reference value [nowMinutes] of a date lies in [[0,1440)]. *)
Theorem C8_minutes_range :
  (∀ hm v, toMinutes hm = Some v
           ↔ ∃ hh mm, clockFields hm = Some (hh, mm) ∧ v = hh * 60 + mm)
  ∧ (∀ hm hh mm, clockFields hm = Some (hh, mm) →
       (∃ pre g1 g2 post,
          hm = pre ++ g1 ++ [Chr.colon] ++ g2 ++ post
          ∧ allDigits g1 ∧ (1 <= length g1 <= 2)%nat
          ∧ allDigits g2 ∧ length g2 = 2%nat
          ∧ hh = parseInt10 g1 ∧ mm = parseInt10 g2)
       ∧ 0 <= hh <= 99 ∧ 0 <= mm <= 99
       ∧ 0 <= hh * 60 + mm <= 6039
       ∧ (hh <= 23 → mm <= 59 → 0 <= hh * 60 + mm < 1440))
  ∧ (∀ now items f, resolve now items = Some f →
       ∃ it, it ∈ items
         ∧ ((∃ range hh mm hh2 mm2,
               exec reRange (timeText it) = Some range
               ∧ clockFields (matchIdx range 1) = Some (hh, mm)
               ∧ clockFields (matchIdx range 2) = Some (hh2, mm2)
               ∧ start f = hh * 60 + mm
               ∧ end_ f = Some (hh2 * 60 + mm2))
            ∨ (∃ m hh mm,
                 exec reStart (timeText it) = Some m
                 ∧ clockFields (matchIdx m 1) = Some (hh, mm)
                 ∧ start f = hh * 60 + mm
                 ∧ end_ f = None)))
  ∧ (∀ now items f, resolve now items = Some f →
       0 <= start f <= 6039 ∧ ∀ e, end_ f = Some e → 0 <= e <= 6039)
  ∧ (∀ d, validDate d → 0 <= nowMinutesOf d < 1440).
Proof.
  assert (Hb : ∀ hm hh mm, clockFields hm = Some (hh, mm) →
                 0 <= hh <= 99 ∧ 0 <= mm <= 99).
  { intros hm hh mm H.
    apply clockFields_shape in H as (_ & g1 & g2 & _ & _ & D1 & L1 & D2 & L2
                                     & -> & ->).
    split; apply parseInt10_two_digits; auto; lia. }
  assert (Hres : ∀ now items f, resolve now items = Some f →
       ∃ it, it ∈ items
         ∧ ((∃ range hh mm hh2 mm2,
               exec reRange (timeText it) = Some range
               ∧ clockFields (matchIdx range 1) = Some (hh, mm)
               ∧ clockFields (matchIdx range 2) = Some (hh2, mm2)
               ∧ start f = hh * 60 + mm
               ∧ end_ f = Some (hh2 * 60 + mm2))
            ∨ (∃ m hh mm,
                 exec reStart (timeText it) = Some m
                 ∧ clockFields (matchIdx m 1) = Some (hh, mm)
                 ∧ start f = hh * 60 + mm
                 ∧ end_ f = None))).
  { intros now items f. unfold resolve.
    destruct (rangePass now items) as [g|] eqn:Hr.
    - intros [= ->].
      apply rangePass_first in Hr as (pre & it & post & -> & _ & Hit).
      exists it. split; [apply elem_of_app; right; by left|]. left.
      by apply rangeEntry_fields in Hit.
    - intros Hf. apply fallbackPass_some in Hf as (He & Hin & _ & _).
      apply list_elem_of_omap in Hin as (it & Hit & Hst).
      exists it. split; [done|]. right.
      apply startOf_fields in Hst as (m & hh & mm & ? & ? & ?).
      exists m, hh, mm. done. }
  split; [apply toMinutes_clockFields|]. split; [|split; [exact Hres|split]].
  - intros hm hh mm H. destruct (Hb _ _ _ H) as [? ?].
    split; [by apply clockFields_shape|]. lia.
  - intros now items f Hf.
    destruct (Hres _ _ _ Hf) as (it & _ & [H|H]).
    + destruct H as (range & hh & mm & hh2 & mm2 & _ & F1 & F2 & -> & ->).
      apply Hb in F1, F2. split; [lia|]. intros e [= <-]. lia.
    + destruct H as (m & hh & mm & _ & F1 & -> & ->).
      apply Hb in F1. split; [lia|]. done.
  - intros d (_ & Hh & Hm). unfold nowMinutesOf. lia.
Qed.

(** ** Escaping *)

Lemma escapeHtml_app a b : escapeHtml (a ++ b) = escapeHtml a ++ escapeHtml b.
Proof. unfold escapeHtml. by rewrite map_app, concat_app. Qed.

Lemma escapeChar_cases c :
  (c = Chr.amp ∧ escapeChar c = u "&amp;")
  ∨ (c = Chr.lt ∧ escapeChar c = u "&lt;")
  ∨ (c = Chr.gt ∧ escapeChar c = u "&gt;")
  ∨ (c = Chr.dquote ∧ escapeChar c = u "&quot;")
  ∨ (c = Chr.squote ∧ escapeChar c = u "&#39;")
  ∨ (¬ special c ∧ escapeChar c = [c]).
Proof.
  unfold escapeChar, special.
  destruct (N.eqb_spec c Chr.amp) as [->|?]; [by left|right].
  destruct (N.eqb_spec c Chr.lt) as [->|?]; [by left|right].
  destruct (N.eqb_spec c Chr.gt) as [->|?]; [by left|right].
  destruct (N.eqb_spec c Chr.dquote) as [->|?]; [by left|right].
  destruct (N.eqb_spec c Chr.squote) as [->|?]; [by left|right].
  split; [tauto|done].
Qed.

Lemma escapeChar_plain c : ¬ special c → escapeChar c = [c].
Proof.
  intros H. unfold special in H.
  destruct (escapeChar_cases c) as [[? _]|[[? _]|[[? _]|[[? _]|[[? _]|[_ ?]]]]]];
    tauto.
Qed.

Lemma escapeChar_markup_free c x :
  x ∈ escapeChar c →
  x ≠ Chr.lt ∧ x ≠ Chr.gt ∧ x ≠ Chr.dquote ∧ x ≠ Chr.squote.
Proof.
  destruct (escapeChar_cases c)
    as [[_ ->]|[[_ ->]|[[_ ->]|[[_ ->]|[[_ ->]|[Hc ->]]]]]].
  1-5: vm_compute; intros Hx;
       repeat (apply elem_of_cons in Hx as [->|Hx]; [done|]);
       by apply elem_of_nil in Hx.
  intros ->%list_elem_of_singleton. unfold special in Hc. tauto.
Qed.

Lemma escapeHtml_markup_free s x :
  x ∈ escapeHtml s →
  x ≠ Chr.lt ∧ x ≠ Chr.gt ∧ x ≠ Chr.dquote ∧ x ≠ Chr.squote.
Proof.
  induction s as [|c s IH]; [by intros ?%elem_of_nil|].
  change (c :: s) with ([c] ++ s). rewrite escapeHtml_app.
  intros [Hx|Hx]%elem_of_app; [|by apply IH].
  unfold escapeHtml in Hx. simpl in Hx. rewrite app_nil_r in Hx.
  by eapply escapeChar_markup_free.
Qed.

(** C9. The payload of a resolved program is the template with the escaped
    title in it: the title (never empty for a resolved program) with every
    ampersand, less-than, greater-than, double quote and single quote
    replaced by its entity and every other unit kept, so that no angle
    bracket or quote of the title is left. A title containing [<script>]
    appears as [&lt;script&gt;]. *)
Theorem C9_title_escaped :
  (∀ now items f, resolve now items = Some f →
     htmlOf f = htmlHead ++ escapeHtml (title f) ++ htmlMid
                  ++ timeStrOf f ++ htmlTail)
  ∧ (escapeHtml [] = []
     ∧ (∀ a b, escapeHtml (a ++ b) = escapeHtml a ++ escapeHtml b)
     ∧ escapeHtml [Chr.amp] = u "&amp;"
     ∧ escapeHtml [Chr.lt] = u "&lt;"
     ∧ escapeHtml [Chr.gt] = u "&gt;"
     ∧ escapeHtml [Chr.dquote] = u "&quot;"
     ∧ escapeHtml [Chr.squote] = u "&#39;"
     ∧ (∀ c, ¬ special c → escapeHtml [c] = [c]))
  ∧ (∀ s x, x ∈ escapeHtml s →
       x ≠ Chr.lt ∧ x ≠ Chr.gt ∧ x ≠ Chr.dquote ∧ x ≠ Chr.squote)
  ∧ escapeHtml (u "<script>") = u "&lt;script&gt;"
  ∧ fst (computeNowFromScheduleDOM asciiLower [scriptTitleDay] false
           (mkDate 0 8 30) emptyWorld)
    = mkOut (htmlHead ++ u "&lt;script&gt;alert(&#39;x&#39;)&lt;/script&gt;"
               ++ htmlMid ++ (u "08:00 " ++ [Chr.endash] ++ u " 09:00")
               ++ htmlTail) true.
Proof.
  split_and!; try done.
  - intros now items f Hf. unfold htmlOf, safeTitleOf.
    apply resolve_origin in Hf as ((it & _ & Ht) & _).
    pose proof (titleOr_nonempty it) as Hne. rewrite <- Ht in Hne.
    unfold orStr. by destruct (title f).
  - apply escapeHtml_app.
  - intros c Hc. unfold escapeHtml. simpl. rewrite app_nil_r.
    by apply escapeChar_plain.
  - apply escapeHtml_markup_free.
Qed.

(** ** Day sections *)

Lemma fileNodes_other lower k post m :
  (∀ x, x ∈ post → keyOf lower x ≠ Some k) →
  foldl (fileNode lower) m post !! k = m !! k.
Proof.
  revert m. induction post as [|x post IH]; simpl; intros m H; [done|].
  rewrite IH by (intros y Hy; apply H, elem_of_cons; by right).
  unfold fileNode. assert (keyOf lower x ≠ Some k) as Hx.
  { apply H, elem_of_cons. by left. }
  destruct (keyOf lower x) as [k'|]; [|done].
  destruct (truthyStr k'); [|done]. apply lookup_insert_ne. congruence.
Qed.

Lemma buildMap_last lower pre n post k :
  keyOf lower n = Some k → k ≠ [] →
  (∀ x, x ∈ post → keyOf lower x ≠ Some k) →
  buildMap lower (pre ++ n :: post) !! k = Some n.
Proof.
  intros Hn Hk Hpost. unfold buildMap. rewrite foldl_app. simpl.
  rewrite fileNodes_other by done. unfold fileNode at 1. rewrite Hn.
  destruct k; [done|]. simpl. apply lookup_insert_eq.
Qed.

Lemma dayKeyOf_nonempty now : dayKeyOf now ≠ [].
Proof.
  unfold dayKeyOf. destruct now as [d ? ?]. simpl.
  do 7 (destruct d as [|d]; [done|]). done.
Qed.

(** C10. When several day-sections are filed under the same key, the last
    one in node order is the one the key map holds, and the one today's
    resolution reads: the result is the program resolved from the entries
    of that last section (its payload rendered and returned with
    [found = true], or the "nothing now" result when none of its entries
    matches), which is the result for that section taken alone, whatever
    the sections before it are. *)
Theorem C10_last_section_wins (lower : jsstr → jsstr)
        (pre : list Node) (n : Node) (post : list Node) :
  (∀ k, keyOf lower n = Some k → k ≠ [] →
        (∀ x, x ∈ post → keyOf lower x ≠ Some k) →
        buildMap lower (pre ++ n :: post) !! k = Some n)
  ∧ (∀ remote now w,
       keyOf lower n = Some (dayKeyOf now) →
       (∀ x, x ∈ post → keyOf lower x ≠ Some (dayKeyOf now)) →
       computeNowFromScheduleDOM lower (pre ++ n :: post) remote now w
       = computeNowFromScheduleDOM lower [n] remote now w
       ∧ (∀ pre',
           computeNowFromScheduleDOM lower (pre' ++ n :: post) remote now w
           = computeNowFromScheduleDOM lower (pre ++ n :: post) remote now w)
       ∧ computeNowFromScheduleDOM lower (pre ++ n :: post) remote now w
         = match resolve (nowMinutesOf now) (itemsOf n) with
           | Some f =>
               (mkOut (htmlOf f) true, renderNowPlayingToTarget (htmlOf f) w)
           | None => (nothingOut, renderNowPlayingToTarget nothingNow w)
           end).
Proof.
  split; [intros k; apply buildMap_last|].
  intros remote now w Hn Hpost.
  assert (∀ p q, computeNowFromScheduleDOM lower (p ++ n :: q) remote now w
                 = computeNowFromScheduleDOM lower (pre ++ n :: post)
                     remote now w
                 ∨ ¬ (∀ x, x ∈ q → keyOf lower x ≠ Some (dayKeyOf now)))
    as Hall.
  { intros p q.
    destruct (decide (Forall (λ x, keyOf lower x ≠ Some (dayKeyOf now)) q))
      as [Hq|Hq]; rewrite Forall_forall in Hq; [left|by right].
    unfold computeNowFromScheduleDOM.
    rewrite !(buildMap_last lower _ n _ (dayKeyOf now))
      by auto using dayKeyOf_nonempty. done. }
  split; [|split].
  - destruct (Hall [] []) as [H|H]; [by rewrite <- H|].
    exfalso. apply H. by intros x ?%elem_of_nil.
  - intros pre'. destruct (Hall pre' post) as [H|H]; [done|by exfalso].
  - unfold computeNowFromScheduleDOM.
    rewrite (buildMap_last lower pre n post (dayKeyOf now))
      by auto using dayKeyOf_nonempty.
    by destruct (resolve (nowMinutesOf now) (itemsOf n)).
Qed.

(** ** The script on concrete schedules *)

Example woensdag_items :
  itemsOf woensdag = [mkItem (u "08:00-09:00") (u "Ochtendshow");
                      mkItem (u "09:00-10:30") (u "Muziek")].
Proof. by vm_compute. Qed.

Example woensdag_quarter_past_nine :
  resolve (nowMinutesOf (mkDate 3 9 15)) (itemsOf woensdag)
  = Some (mkFound (u "Muziek") 540 (Some 630)).
Proof. by vm_compute. Qed.

Example woensdag_on_a_thursday :
  fst (computeNowFromScheduleDOM asciiLower [woensdag] false
         (mkDate 4 9 15) emptyWorld) = nothingOut.
Proof. by vm_compute. Qed.

Lemma C1_witness :
  parseRange (timeText morningShow) = Some (480, 540)
  ∧ rangeEntry 480 morningShow = Some (foundOf morningShow 480 540)
  ∧ rangeEntry 540 morningShow = None.
Proof.
  assert (parseRange (timeText morningShow) = Some (480, 540)) as Hp
    by (vm_compute; reflexivity).
  split; [exact Hp|]. split.
  - apply (C1_nonwrapping_range 480 morningShow 480 540 Hp); lia.
  - apply (C1_nonwrapping_range 540 morningShow 480 540 Hp); lia.
Defined.

Lemma C2_witness :
  parseRange (timeText nightShow) = Some (1380, 60)
  ∧ rangeEntry 30 nightShow = Some (foundOf nightShow 1380 60)
  ∧ rangeEntry 600 nightShow = None.
Proof.
  assert (parseRange (timeText nightShow) = Some (1380, 60)) as Hp
    by (vm_compute; reflexivity).
  split; [exact Hp|]. split.
  - apply (C2_wrapping_range 30 nightShow 1380 60 Hp); lia.
  - apply (C2_wrapping_range 600 nightShow 1380 60 Hp); lia.
Defined.

Lemma C3_witness :
  rangeEntry 520 overlapShow = Some (foundOf overlapShow 510 570)
  ∧ rangePass 520 ([earlyShow] ++ morningShow :: [overlapShow])
    = Some (foundOf morningShow 480 540).
Proof.
  split; [vm_compute; reflexivity|].
  apply (proj1 (C3_first_match_wins 520) [earlyShow] morningShow [overlapShow]).
  - intros x Hx. apply list_elem_of_singleton in Hx. rewrite Hx.
    vm_compute. reflexivity.
  - vm_compute. reflexivity.
Defined.

Lemma C4_witness :
  rangePass 570 fallbackExample = None
  ∧ StronglySorted startLe (startsOf fallbackExample)
  ∧ ∀ f, resolve 570 fallbackExample = Some f → start f <= 570.
Proof.
  assert (rangePass 570 fallbackExample = None) as Hr
    by (vm_compute; reflexivity).
  pose proof (proj1 C4_fallback_greatest_start 570 fallbackExample Hr)
    as ((Hs & _) & Hf & _).
  split; [exact Hr|]. split; [exact Hs|].
  intros f H. apply (Hf f H).
Defined.

Lemma C5_witness :
  fetchFails (Response false 404 None)
  ∧ ∃ e, loadCurrentProgramFromPrograma asciiLower []
           (Response false 404 None) (mkDate 0 12 0) emptyWorld
         = Normal (nothingOut,
                   renderNowPlayingToTarget nothingNow (warn e emptyWorld)).
Proof.
  assert (fetchFails (Response false 404 None)) as Hf by (simpl; auto).
  split; [exact Hf|].
  apply (C5_failures_converge asciiLower). exact Hf.
Defined.

Lemma C7_witness :
  -1440 <= -30 <= maxExact ∧ fmt (Some (-30)) = fmt (Some ((-30) mod 1440)).
Proof.
  assert (-1440 <= -30 <= maxExact) as H by (unfold maxExact; lia).
  split; [exact H|]. apply (C7_fmt_normalises (-30) H).
Defined.

Lemma C8_witness :
  resolve (nowMinutesOf (mkDate 3 9 15)) (itemsOf woensdag)
  = Some (mkFound (u "Muziek") 540 (Some 630))
  ∧ 0 <= start (mkFound (u "Muziek") 540 (Some 630)) <= 6039
  ∧ validDate (mkDate 3 9 15)
  ∧ 0 <= nowMinutesOf (mkDate 3 9 15) < 1440.
Proof.
  assert (resolve (nowMinutesOf (mkDate 3 9 15)) (itemsOf woensdag)
          = Some (mkFound (u "Muziek") 540 (Some 630))) as Hr
    by (vm_compute; reflexivity).
  assert (validDate (mkDate 3 9 15)) as Hv by (unfold validDate; simpl; lia).
  pose proof C8_minutes_range as (_ & _ & _ & Hbound & Hnow).
  split; [exact Hr|]. split; [exact (proj1 (Hbound _ _ _ Hr))|].
  split; [exact Hv|]. exact (Hnow _ Hv).
Defined.

Lemma C9_witness :
  resolve 510 (itemsOf scriptTitleDay)
  = Some (mkFound (u "<script>alert('x')</script>") 480 (Some 540))
  ∧ htmlOf (mkFound (u "<script>alert('x')</script>") 480 (Some 540))
    = htmlHead ++ escapeHtml (u "<script>alert('x')</script>") ++ htmlMid
        ++ timeStrOf (mkFound (u "<script>alert('x')</script>") 480 (Some 540))
        ++ htmlTail.
Proof.
  assert (resolve 510 (itemsOf scriptTitleDay)
          = Some (mkFound (u "<script>alert('x')</script>") 480 (Some 540)))
    as Hr by (vm_compute; reflexivity).
  split; [exact Hr|].
  apply (proj1 C9_title_escaped 510 (itemsOf scriptTitleDay) _ Hr).
Defined.

Lemma C10_witness :
  keyOf asciiLower zondagFirst = Some (dayKeyOf (mkDate 0 9 0))
  ∧ keyOf asciiLower zondagLast = Some (dayKeyOf (mkDate 0 9 0))
  ∧ resolve (nowMinutesOf (mkDate 0 9 0)) (itemsOf zondagLast)
    = Some (mkFound (u "Laatste") 480 (Some 720))
  ∧ computeNowFromScheduleDOM asciiLower
      ([zondagFirst] ++ zondagLast :: [maandag]) false (mkDate 0 9 0)
      emptyWorld
    = (mkOut (htmlOf (mkFound (u "Laatste") 480 (Some 720))) true,
       renderNowPlayingToTarget
         (htmlOf (mkFound (u "Laatste") 480 (Some 720))) emptyWorld).
Proof.
  assert (keyOf asciiLower zondagLast = Some (dayKeyOf (mkDate 0 9 0))) as Hk
    by (vm_compute; reflexivity).
  assert (resolve (nowMinutesOf (mkDate 0 9 0)) (itemsOf zondagLast)
          = Some (mkFound (u "Laatste") 480 (Some 720))) as Hr
    by (vm_compute; reflexivity).
  split; [vm_compute; reflexivity|]. split; [exact Hk|]. split; [exact Hr|].
  assert (∀ x, x ∈ [maandag] →
               keyOf asciiLower x ≠ Some (dayKeyOf (mkDate 0 9 0))) as Hpost.
  { intros x Hx. apply list_elem_of_singleton in Hx. rewrite Hx.
    vm_compute. discriminate. }
  destruct (proj2 (C10_last_section_wins asciiLower [zondagFirst] zondagLast
                     [maandag]) false (mkDate 0 9 0) emptyWorld Hk Hpost)
    as (_ & _ & H).
  rewrite H, Hr. reflexivity.
Defined.

(** * Further properties of the resolver *)

(** ** Formatting and parsing a time of day *)

Lemma toMinutes_fmt_table :
  Forall (λ n, toMinutes (fmt (Some (Z.of_nat n))) = Some (Z.of_nat n))
         (seq 0 1440).
Proof. refine (bool_decide_unpack _ _). by vm_compute. Qed.

(** X1. [toMinutes] reads back what [fmt] writes: for a minute of the day
    [m] in [[0,1440)], [toMinutes(fmt(m)) = m]; for any [m] from -1440 up
    to 2^53 - 1440 (where [fmt] computes exactly) it is [m mod 1440]. *)
Theorem X1_toMinutes_fmt (m : Z) :
  -1440 <= m <= maxExact →
  toMinutes (fmt (Some m)) = Some (m mod 1440)
  ∧ (m < 1440 → 0 <= m → toMinutes (fmt (Some m)) = Some m).
Proof.
  intros [Hm _]. pose proof (Z.mod_pos_bound m 1440 ltac:(lia)) as Hr.
  assert (toMinutes (fmt (Some m)) = Some (m mod 1440)) as H.
  { rewrite fmt_normalises by done.
    pose proof toMinutes_fmt_table as T. rewrite Forall_forall in T.
    specialize (T (Z.to_nat (m mod 1440))). rewrite Z2Nat.id in T by lia.
    apply T, elem_of_seq. lia. }
  split; [exact H|]. intros ? ?. rewrite H. f_equal. apply Z.mod_small. lia.
Qed.

Lemma X1_witness :
  -1440 <= 615 <= maxExact ∧ toMinutes (fmt (Some 615)) = Some 615.
Proof.
  assert (-1440 <= 615 <= maxExact) as H by (unfold maxExact; lia).
  split; [exact H|]. apply (X1_toMinutes_fmt 615 H); lia.
Defined.

(** ** What a call changes *)

Lemma render_target h w :
  nowPlaying (renderNowPlayingToTarget h w) = (λ _, h) <$> nowPlaying w
  ∧ warnings (renderNowPlayingToTarget h w) = warnings w.
Proof. unfold renderNowPlayingToTarget. by destruct w as [[t|] ?]. Qed.

Lemma compute_effects lower nodes remote now w out w' :
  computeNowFromScheduleDOM lower nodes remote now w = (out, w') →
  nowPlaying w' = (λ _, html out) <$> nowPlaying w
  ∧ warnings w' = warnings w.
Proof.
  unfold computeNowFromScheduleDOM.
  destruct (buildMap lower nodes !! dayKeyOf now) as [n|].
  - destruct (resolve (nowMinutesOf now) (itemsOf n)) as [f|];
      intros [= <- <-]; simpl; apply render_target.
  - intros [= <- <-]. simpl. apply render_target.
Qed.

(** X2. What is shown is what is returned: after
    [loadCurrentProgramFromPrograma] the [#now-playing] element, when the
    page has one, holds exactly the returned [html], and a page without
    the element stays without it. When the page has no schedule sections
    and the external document cannot be acquired, the console gets exactly
    one more warning, the error the [try] block threw, and the result is
    "not found"; in every other case the console gets no warning. *)
Theorem X2_shown_is_returned (lower : jsstr → jsstr)
        (localNodes : list Node) (fetched : FetchResult) (now : Date)
        (w : World) (out : Out) (w' : World) :
  loadCurrentProgramFromPrograma lower localNodes fetched now w
  = Normal (out, w') →
  nowPlaying w' = (λ _, html out) <$> nowPlaying w
  ∧ (localNodes = [] ∧ fetchFails fetched →
     ∃ e, fetchAndCompute lower fetched now w = Throw e
          ∧ warnings w' = warnings w ++ [e] ∧ out = nothingOut)
  ∧ (¬ (localNodes = [] ∧ fetchFails fetched) → warnings w' = warnings w).
Proof.
  unfold loadCurrentProgramFromPrograma. destruct localNodes as [|n l].
  - destruct (fetchAndCompute lower fetched now w) as [[o1 w1]|e] eqn:Hf.
    + intros [= <- <-].
      assert (¬ fetchFails fetched) as Hnf.
      { intros Hff. destruct (fetchFails_throws lower fetched now w Hff)
          as [e He]. rewrite He in Hf. discriminate. }
      destruct fetched as [|ok status [[|r rs]|]]; simpl in Hf;
        try done; destruct ok; simpl in Hf; try done.
      injection Hf as Hf. apply compute_effects in Hf as [? ?].
      split; [done|]. split; [intros [_ ?]; done|done].
    + intros [= <- <-].
      destruct (render_target nothingNow (warn e w)) as [R1 R2].
      simpl in R1, R2. split; [exact R1|]. split.
      * intros _. exists e. split; [reflexivity|]. split; [exact R2|done].
      * intros Hn. exfalso. apply Hn. split; [done|].
        destruct fetched as [|ok status [[|r rs]|]]; simpl in *; auto;
          destruct ok; simpl in *; auto; done.
  - intros [= H]. apply compute_effects in H as [? ?].
    split; [done|]. split; [intros [? _]; done|done].
Qed.

Lemma X2_witness :
  loadCurrentProgramFromPrograma asciiLower [] (Response false 404 None)
    (mkDate 3 9 15) emptyWorld
  = Normal (nothingOut, mkWorld (Some nothingNow) [FetchFailed 404])
  ∧ fetchFails (Response false 404 None)
  ∧ fetchAndCompute asciiLower (Response false 404 None) (mkDate 3 9 15)
      emptyWorld = Throw (FetchFailed 404)
  ∧ ∃ e, fetchAndCompute asciiLower (Response false 404 None)
           (mkDate 3 9 15) emptyWorld = Throw e
         ∧ warnings (mkWorld (Some nothingNow) [FetchFailed 404])
           = warnings emptyWorld ++ [e]
         ∧ nothingOut = nothingOut.
Proof.
  assert (loadCurrentProgramFromPrograma asciiLower [] (Response false 404 None)
            (mkDate 3 9 15) emptyWorld
          = Normal (nothingOut, mkWorld (Some nothingNow) [FetchFailed 404]))
    as Hrun by reflexivity.
  assert (fetchFails (Response false 404 None)) as Hf by (simpl; auto).
  split; [exact Hrun|]. split; [exact Hf|]. split; [reflexivity|].
  exact (proj1 (proj2 (X2_shown_is_returned asciiLower [] (Response false 404 None)
                         (mkDate 3 9 15) emptyWorld _ _ Hrun))
           (conj eq_refl Hf)).
Defined.

(** ** The key map *)

Lemma fileNode_lookup lower m n k :
  fileNode lower m n !! k =
    if decide (keyOf lower n = Some k ∧ k ≠ []) then Some n else m !! k.
Proof.
  unfold fileNode. destruct (keyOf lower n) as [k'|] eqn:Hk.
  - destruct k' as [|c k']; simpl.
    + case_decide as H; [|done]. destruct H as [[= <-] ?]. done.
    + case_decide as H.
      * destruct H as [[= <-] _]. apply lookup_insert_eq.
      * apply lookup_insert_ne. intros <-. apply H. done.
  - case_decide as H; [|done]. by destruct H.
Qed.

Lemma buildMap_lookup_Some lower nodes k n :
  buildMap lower nodes !! k = Some n →
  n ∈ nodes ∧ keyOf lower n = Some k ∧ k ≠ [].
Proof.
  unfold buildMap. induction nodes as [|x nodes IH] using rev_ind.
  - simpl. by rewrite lookup_empty.
  - rewrite foldl_app. simpl. rewrite fileNode_lookup. case_decide as H.
    + intros [= <-]. destruct H. split_and!; auto.
      apply elem_of_app. right. by left.
    + intros Hm. destruct (IH Hm) as (? & ? & ?). split_and!; auto.
      apply elem_of_app. by left.
Qed.

Lemma buildMap_lookup_None lower nodes k :
  k ≠ [] →
  (buildMap lower nodes !! k = None
   ↔ ∀ n, n ∈ nodes → keyOf lower n ≠ Some k).
Proof.
  intros Hk. unfold buildMap. induction nodes as [|x nodes IH] using rev_ind.
  - simpl. rewrite lookup_empty. split; [|done].
    intros _ n Hn. by apply elem_of_nil in Hn.
  - rewrite foldl_app. simpl. rewrite fileNode_lookup. case_decide as H.
    + split; [done|]. intros Hall. destruct H as [H _]. exfalso.
      apply (Hall x); [|done]. apply elem_of_app. right. by left.
    + rewrite IH. split.
      * intros Hall n [Hn|Hn]%elem_of_app; [by apply Hall|].
        apply list_elem_of_singleton in Hn as ->. intros Hx. apply H. done.
      * intros Hall n Hn. apply Hall, elem_of_app. by left.
Qed.

(** X4. Looking up the key map at a day name, the only keys the script
    reads and none of them a name an object inherits. A day name is absent
    exactly when no node of the list is filed under it; the node found
    under a day name is a node of the list whose lower-cased key is that
    name. A node with neither [data-day] nor [id] is found under no day
    name. *)
Theorem X4_key_map_lookup (lower : jsstr → jsstr) (nodes : list Node)
        (k : jsstr) :
  k ∈ daysMap →
  (buildMap lower nodes !! k = None
   ↔ ∀ n, n ∈ nodes → keyOf lower n ≠ Some k)
  ∧ (∀ n, buildMap lower nodes !! k = Some n →
          n ∈ nodes ∧ keyOf lower n = Some k)
  ∧ (∀ n, datasetDay n = None → id n = [] →
          buildMap lower nodes !! k ≠ Some n).
Proof.
  intros Hday. assert (k ≠ []) as Hk.
  { intros ->. revert Hday. unfold daysMap.
    rewrite !elem_of_cons, elem_of_nil. intros H.
    repeat (destruct H as [H|H]; [discriminate H|]). done. }
  split; [by apply buildMap_lookup_None|]. split.
  - intros n Hn. apply buildMap_lookup_Some in Hn as (? & ? & ?). auto.
  - intros n Hd Hi Hm.
    apply buildMap_lookup_Some in Hm as (_ & Hkey & _).
    unfold keyOf in Hkey. rewrite Hd, Hi in Hkey. done.
Qed.

Lemma X4_witness :
  u "maandag" ∈ daysMap
  ∧ buildMap asciiLower [zondagFirst; maandag] !! u "maandag" = Some maandag
  ∧ maandag ∈ [zondagFirst; maandag]
  ∧ keyOf asciiLower maandag = Some (u "maandag").
Proof.
  assert (u "maandag" ∈ daysMap) as Hd
    by (unfold daysMap; rewrite !elem_of_cons; right; left; reflexivity).
  assert (buildMap asciiLower [zondagFirst; maandag] !! u "maandag"
          = Some maandag) as Hm by (vm_compute; reflexivity).
  split; [exact Hd|]. split; [exact Hm|].
  apply (X4_key_map_lookup asciiLower [zondagFirst; maandag] (u "maandag"));
    [exact Hd|exact Hm].
Defined.

(** X5. Only the seven day names are ever looked up: on a valid date the
    key is the name at the weekday's index, different weekdays have
    different keys, and a schedule none of whose sections is filed under
    a day name resolves to "not found" on every date. *)
Theorem X5_day_names (now : Date) :
  validDate now →
  daysMap !! getDay now = Some (dayKeyOf now)
  ∧ (∀ other, validDate other →
       (dayKeyOf other = dayKeyOf now ↔ getDay other = getDay now))
  ∧ (∀ lower nodes remote w,
       (∀ n k, n ∈ nodes → keyOf lower n = Some k → k ∉ daysMap) →
       computeNowFromScheduleDOM lower nodes remote now w
       = (nothingOut, renderNowPlayingToTarget nothingNow w)).
Proof.
  intros (Hd & _ & _). destruct now as [d h mi]. simpl in Hd.
  assert (daysMap !! d = Some (dayKeyOf (mkDate d h mi))) as Hk.
  { unfold dayKeyOf. simpl.
    do 7 (destruct d as [|d]; [done|]). lia. }
  split; [exact Hk|]. split.
  - intros [d' h' mi'] (Hd' & _ & _). simpl in *. unfold dayKeyOf. simpl.
    do 7 (destruct d as [|d]; [do 7 (destruct d' as [|d']; [done|]); lia|]).
    lia.
  - intros lower nodes remote w Hall. unfold computeNowFromScheduleDOM.
    destruct (buildMap lower nodes !! dayKeyOf (mkDate d h mi)) as [n|] eqn:Hm;
      [|done].
    apply buildMap_lookup_Some in Hm as (Hin & Hkey & _).
    exfalso. apply (Hall n _ Hin Hkey).
    simpl. eapply list_elem_of_lookup_2. exact Hk.
Qed.

Lemma X5_witness :
  validDate (mkDate 3 9 15)
  ∧ daysMap !! getDay (mkDate 3 9 15) = Some (dayKeyOf (mkDate 3 9 15)).
Proof.
  assert (validDate (mkDate 3 9 15)) as Hv by (unfold validDate; simpl; lia).
  split; [exact Hv|]. apply (X5_day_names (mkDate 3 9 15) Hv).
Defined.

(** ** Ties in the fallback pass *)

Lemma insertSorted_stable v x l :
  filter (λ p, s_start p = v) (insertSorted byStart x l)
  = filter (λ p, s_start p = v) (x :: l).
Proof.
  induction l as [|y l IH]; simpl; [done|].
  unfold byStart at 1. destruct (Z.leb_spec (s_start x - s_start y) 0); [done|].
  rewrite filter_cons, IH, !filter_cons.
  repeat case_decide; try done. lia.
Qed.

Lemma sort_stable v l :
  filter (λ p, s_start p = v) (sort byStart l)
  = filter (λ p, s_start p = v) l.
Proof.
  induction l as [|x l IH]; simpl; [done|].
  by rewrite insertSorted_stable, !filter_cons, IH.
Qed.

Lemma filter_none {A} (P : A → Prop) `{∀ x, Decision (P x)} (l : list A) :
  (∀ x, x ∈ l → ¬ P x) → filter P l = [].
Proof.
  induction l as [|x l IH]; [done|]. intros Hall. rewrite filter_cons.
  case_decide as Hx.
  - exfalso. apply (Hall x); [by left|done].
  - apply IH. intros y Hy. apply Hall. by right.
Qed.

Lemma scan_last now cand l p :
  StronglySorted startLe l → scan now cand l = Some p →
  (s_start p <= now
   ∧ last (filter (λ q, s_start q = s_start p) l) = Some p)
  ∨ (cand = Some p ∧ ∀ q, q ∈ l → now < s_start q).
Proof.
  intros Hs. revert cand. induction Hs as [|x l Hs IH Hx]; simpl;
    intros cand H.
  - right. split; [done|]. intros q Hq. by apply elem_of_nil in Hq.
  - rewrite Forall_forall in Hx. unfold startLe in Hx.
    destruct (Z.leb_spec (s_start x) now) as [Hxn|Hxn].
    + left. rewrite filter_cons.
      destruct (IH _ H) as [[Hle Hl]|[[= <-] Hall]].
      * split; [done|]. case_decide; [|done]. by rewrite last_cons, Hl.
      * split; [done|]. case_decide; [|done].
        rewrite filter_none; [done|].
        intros q Hq. specialize (Hall q Hq). lia.
    + right. split; [done|]. intros q [->|Hq]%elem_of_cons; [lia|].
      specialize (Hx q Hq). lia.
Qed.

(** X6. Ties in the fallback pass go to the entry latest in the document:
    the sort keeps entries with equal starts in document order and the
    scan keeps the last entry not after [now], so among the entries that
    share the chosen start the last one in document order is returned (the
    range pass, by contrast, returns the first match). *)
Theorem X6_fallback_tie_last (now : Z) (items : list Item) (f : Found) :
  rangePass now items = None →
  resolve now items = Some f →
  last (filter (λ p, s_start p = start f) (omap startOf items))
  = Some (mkStart (title f) (start f)).
Proof.
  intros Hr. unfold resolve. rewrite Hr. unfold fallbackPass.
  pose proof (sort_sorted (omap startOf items)) as Hs.
  fold (startsOf items) in Hs.
  destruct (startsOf items) as [|x l] eqn:Hst; [done|].
  destruct (scan now None (x :: l)) as [cand|] eqn:Hsc; [|done].
  intros [= <-]. simpl.
  destruct (scan_last _ _ _ _ Hs Hsc) as [[_ Hl]|[? _]]; [|done].
  rewrite <- Hst in Hl. unfold startsOf in Hl. rewrite sort_stable in Hl.
  rewrite Hl. by destruct cand.
Qed.

Lemma X6_witness :
  rangePass 570 tiedStarts = None
  ∧ resolve 570 tiedStarts = Some (mkFound (u "Later") 540 None)
  ∧ last (filter (λ p, s_start p = 540) (omap startOf tiedStarts))
    = Some (mkStart (u "Later") 540).
Proof.
  assert (rangePass 570 tiedStarts = None) as Hr by (vm_compute; reflexivity).
  assert (resolve 570 tiedStarts = Some (mkFound (u "Later") 540 None))
    as Hf by (vm_compute; reflexivity).
  split; [exact Hr|]. split; [exact Hf|].
  apply (X6_fallback_tie_last 570 tiedStarts _ Hr Hf).
Defined.

(** ** Escaping is faithful *)

Lemma escapeChar_prefix_inj a b x y :
  escapeChar a ++ x = escapeChar b ++ y → a = b ∧ x = y.
Proof.
  unfold special.
  destruct (escapeChar_cases a)
    as [[-> ->]|[[-> ->]|[[-> ->]|[[-> ->]|[[-> ->]|[Ha ->]]]]]];
  destruct (escapeChar_cases b)
    as [[-> ->]|[[-> ->]|[[-> ->]|[[-> ->]|[[-> ->]|[Hb ->]]]]]];
  unfold special in *; cbn; intros H; try discriminate H;
    try (injection H as H; auto; done);
    try (injection H as <- H; exfalso; apply Hb; auto 6; done);
    try (injection H as -> H; exfalso; apply Ha; auto 6; done).
Qed.

Lemma escapeHtml_cons c s : escapeHtml (c :: s) = escapeChar c ++ escapeHtml s.
Proof. reflexivity. Qed.

Lemma escapeChar_nonempty c : escapeChar c ≠ [].
Proof.
  destruct (escapeChar_cases c)
    as [[_ ->]|[[_ ->]|[[_ ->]|[[_ ->]|[[_ ->]|[_ ->]]]]]]; done.
Qed.

(** X7. Escaping loses nothing and invents nothing: two titles with the
    same escaped text are the same title, a title is returned unchanged
    exactly when it contains none of the five special characters, and the
    escaped text is never shorter than the title. Escaping is not
    idempotent: an ampersand escaped twice reads [&amp;amp;]. *)
Theorem X7_escapeHtml_injective :
  (∀ a b, escapeHtml a = escapeHtml b → a = b)
  ∧ (∀ s, escapeHtml s = s ↔ ∀ c, c ∈ s → ¬ special c)
  ∧ (∀ s, (length s <= length (escapeHtml s))%nat)
  ∧ escapeHtml (escapeHtml [Chr.amp]) = u "&amp;amp;".
Proof.
  assert (Hinj : ∀ a b, escapeHtml a = escapeHtml b → a = b).
  { induction a as [|x a IH]; intros [|y b]; rewrite ?escapeHtml_cons.
    - done.
    - intros H. symmetry in H. apply app_eq_nil in H as [H _].
      by apply escapeChar_nonempty in H.
    - intros H. apply app_eq_nil in H as [H _].
      by apply escapeChar_nonempty in H.
    - intros H. apply escapeChar_prefix_inj in H as [-> H].
      f_equal. by apply IH. }
  assert (Hplain : ∀ s, (∀ c, c ∈ s → ¬ special c) → escapeHtml s = s).
  { induction s as [|x s IH]; [done|]. intros Hall.
    rewrite escapeHtml_cons, escapeChar_plain, IH; [done| |].
    - intros c Hc. apply Hall. by right.
    - apply Hall. by left. }
  assert (Hlen : ∀ s, (length s <= length (escapeHtml s))%nat).
  { induction s as [|x s IH]; [done|].
    rewrite escapeHtml_cons, length_app. simpl.
    pose proof (escapeChar_nonempty x).
    destruct (escapeChar x); [done|]. simpl. lia. }
  split; [exact Hinj|]. split; [|split; [exact Hlen|done]].
  intros s. split; [|apply Hplain].
  induction s as [|x s IH]; [by intros _ c ?%elem_of_nil|].
  rewrite escapeHtml_cons. intros H c Hc.
  pose proof (Hlen s) as Hs. pose proof (f_equal length H) as HL.
  rewrite length_app in HL. simpl in HL.
  destruct (escapeChar_cases x)
    as [[-> E]|[[-> E]|[[-> E]|[[-> E]|[[-> E]|[Hx E]]]]]];
    rewrite E in H, HL; try (cbn in HL; lia).
  injection H as H. apply elem_of_cons in Hc as [->|Hc]; [done|].
  by apply IH.
Qed.

Lemma X7_witness :
  escapeHtml (u "a<b") = escapeHtml (u "a<b") ∧ u "a<b" = u "a<b".
Proof.
  split; [reflexivity|].
  apply (proj1 X7_escapeHtml_injective (u "a<b") (u "a<b")). reflexivity.
Defined.

(** ** Trimming *)

Lemma trimStart_split s :
  ∃ l, s = l ++ trimStart s ∧ isSpaces l
       ∧ match trimStart s with [] => True | c :: _ => isSpace c = false end.
Proof.
  induction s as [|c s (l & Hs & Hl & Hh)]; simpl.
  - exists []. split_and!; auto. constructor.
  - destruct (isSpace c) eqn:Hc.
    + exists (c :: l). split_and!; auto.
      * simpl. by f_equal.
      * by constructor.
    + exists []. split_and!; auto. constructor.
Qed.

Lemma trimStart_id s :
  match s with [] => True | c :: _ => isSpace c = false end → trimStart s = s.
Proof. destruct s as [|c s]; simpl; [done|]. by intros ->. Qed.

Lemma trim_split s :
  ∃ l r, s = l ++ trim s ++ r ∧ isSpaces l ∧ isSpaces r ∧ noSpaceEnds (trim s).
Proof.
  unfold trim.
  destruct (trimStart_split s) as (l & Hs & Hl & Hh).
  destruct (trimStart_split (rev (trimStart s))) as (r & Hr & Hrs & Hrh).
  set (a := trimStart s) in *. set (b := trimStart (rev a)) in *.
  assert (a = rev b ++ rev r) as Ea.
  { rewrite <- rev_app_distr, <- Hr. by rewrite rev_involutive. }
  exists l, (rev r). split_and!; auto.
  - by rewrite <- Ea.
  - by apply Forall_rev.
  - destruct (rev b) as [|c t] eqn:Hb; [done|]. simpl. split.
    + rewrite Ea in Hh. exact Hh.
    + destruct b as [|d b']; [done|]. exists d. split; [|exact Hrh].
      rewrite <- Hb. simpl. apply last_snoc.
Qed.

Lemma noSpaceEnds_trim t : noSpaceEnds t → trim t = t.
Proof.
  destruct t as [|c t]; [done|]. intros [Hc (d & Hl & Hd)].
  unfold trim. rewrite (trimStart_id (c :: t)) by done.
  rewrite trimStart_id; [apply rev_involutive|].
  destruct (rev (c :: t)) as [|e t'] eqn:Hr; [done|].
  assert (c :: t = rev t' ++ [e]) as E.
  { rewrite <- (rev_involutive (c :: t)), Hr. done. }
  rewrite E, last_snoc in Hl. by injection Hl as ->.
Qed.

Lemma trim_idemp s : trim (trim s) = trim s.
Proof.
  destruct (trim_split s) as (_ & _ & _ & _ & _ & H).
  by apply noSpaceEnds_trim.
Qed.

(** ** Extraction of the entries *)

Lemma isDigit_not_space c : isDigit c = true → isSpace c = false.
Proof.
  unfold isDigit, isSpace. intros [H1 H2]%andb_true_iff.
  apply N.leb_le in H1, H2.
  rewrite !orb_false_iff, !andb_false_iff, !N.eqb_neq, !N.leb_gt. lia.
Qed.

Lemma digitEnds_noSpaceEnds w : digitEnds w → noSpaceEnds w.
Proof.
  intros (c & t & d & -> & Hc & Hl & Hd). simpl. split.
  - by apply isDigit_not_space.
  - exists d. split; [done|]. by apply isDigit_not_space.
Qed.

Lemma digitEnds_app w1 mid w2 :
  digitEnds w1 → digitEnds w2 → digitEnds (w1 ++ mid ++ w2).
Proof.
  intros (c & t & _ & -> & Hc & _ & _) (c2 & t2 & d & E2 & _ & Hl & Hd).
  exists c, (t ++ mid ++ w2), d. split_and!; auto.
  rewrite app_assoc, E2. rewrite E2 in Hl.
  rewrite last_app_cons. exact Hl.
Qed.

Lemma sem_reClock w cs :
  sem reClock w cs → cs = [] ∧ digitEnds w.
Proof.
  unfold reClock. intros H.
  inversion H as [| | |? ? ? ? ? ? Hh Htl| | |]; subst.
  inversion Htl as [| | |? ? ? ? ? ? Hcol Hm| | |]; subst.
  inversion Hcol; subst.
  apply sem_Rep in Hh as (-> & Dh & Lh). apply sem_Rep in Hm as (-> & Dm & Lm).
  split; [done|].
  destruct w1 as [|c t]; [simpl in Lh; lia|].
  destruct w3 as [|m1 [|m2 [|? ?]]]; simpl in Lm; try lia.
  apply Forall_cons in Dh as [Hc _].
  apply Forall_cons in Dm as [_ [Hm2 _]%Forall_cons].
  exists c, (t ++ [x] ++ [m1; m2]), m2. split_and!; auto.
  change (c :: t) with ([c] ++ t). rewrite <- !app_assoc.
  change ([x] ++ [m1; m2]) with ([x; m1] ++ [m2]).
  rewrite !app_assoc. apply last_snoc.
Qed.

Lemma sem_reItem w cs : sem reItem w cs → cs = [] ∧ digitEnds w.
Proof.
  unfold reItem. intros H.
  inversion H as [| | |? ? ? ? ? ? Hc1 Hopt| | |]; subst.
  apply sem_reClock in Hc1 as (-> & D1).
  inversion Hopt as [| | | |? ? ? Hrest|?|]; subst.
  - inversion Hrest as [| | |? ? ? ? ? ? Hs1 Hr1| | |]; subst.
    inversion Hs1; subst.
    inversion Hr1 as [| | |? ? ? ? ? ? Hd Hr2| | |]; subst.
    inversion Hd; subst.
    inversion Hr2 as [| | |? ? ? ? ? ? Hs2 Hc2| | |]; subst.
    inversion Hs2; subst.
    apply sem_reClock in Hc2 as (-> & D2). split; [done|].
    match goal with
    | |- digitEnds (?a ++ ?s1 ++ [?d] ++ ?s2 ++ ?b) =>
        replace (a ++ s1 ++ [d] ++ s2 ++ b) with (a ++ (s1 ++ [d] ++ s2) ++ b)
          by (by rewrite <- !app_assoc)
    end.
    by apply digitEnds_app.
  - split; [done|]. by rewrite app_nil_r.
Qed.

(** X8. What is extracted from an element. Both fields of an item are
    trimmed: neither the time text nor the title text begins or ends with
    white space. Without a time sub-field the time text is empty or is a
    piece of the element's trimmed text of the shape of the time pattern (a
    clock, or two clocks around a dash), beginning and ending with a digit.
    An element yields an entry unless both of its fields come out empty. *)
Theorem X8_extracted_fields :
  (∀ el, trim (timeText (itemOf el)) = timeText (itemOf el)
         ∧ trim (titleText (itemOf el)) = titleText (itemOf el))
  ∧ (∀ el, timeEl el = None →
       timeText (itemOf el) = []
       ∨ ((∃ pre post, trim (textContent el)
                       = pre ++ timeText (itemOf el) ++ post)
          ∧ sem reItem (timeText (itemOf el)) []
          ∧ digitEnds (timeText (itemOf el))))
  ∧ (∀ n it, it ∈ itemsOf n
       ↔ ∃ el, el ∈ programEls n ∧ it = itemOf el
               ∧ ¬ (timeText it = [] ∧ titleText it = [])).
Proof.
  assert (Hshape : ∀ el, timeEl el = None →
            timeText (itemOf el) = []
            ∨ ((∃ pre post, trim (textContent el)
                            = pre ++ timeText (itemOf el) ++ post)
               ∧ sem reItem (timeText (itemOf el)) []
               ∧ digitEnds (timeText (itemOf el)))).
  { intros el He. unfold itemOf. rewrite He. simpl.
    destruct (exec reItem (trim (textContent el))) as [m|] eqn:Hm; [|by left].
    right. apply exec_sound in Hm as (pre & post & Hs & Hsem).
    destruct (sem_reItem _ _ Hsem) as [Hg Hd]. rewrite Hg in Hsem.
    split_and!; eauto. }
  split; [|split; [exact Hshape|]].
  - intros el. split.
    + destruct (timeEl el) as [t|] eqn:He.
      * unfold itemOf. rewrite He. simpl. apply trim_idemp.
      * destruct (Hshape el He) as [->|(_ & _ & Hd)]; [done|].
        by apply noSpaceEnds_trim, digitEnds_noSpaceEnds.
    + unfold itemOf. simpl. destruct (titleEl el); apply trim_idemp.
  - intros n it. unfold itemsOf. rewrite list_elem_of_filter, list_elem_of_fmap.
    split.
    + intros [Ht (el & -> & Hel)]. exists el. split_and!; auto.
      intros [E1 E2]. rewrite E1, E2 in Ht. done.
    + intros (el & Hel & -> & Hne). split; [|eauto].
      destruct (timeText (itemOf el)); [|done].
      destruct (titleText (itemOf el)); [|done]. exfalso. by apply Hne.
Qed.

(** * The carousel *)

Lemma timersOk_ext {J} (c c' : @Carousel J) :
  timerFields c' = timerFields c → timersOk c → timersOk c'.
Proof. unfold timerFields, timersOk. intros [= -> -> -> -> ->]. done. Qed.

Lemma wrapIndex_mod i n : 0 < n → wrapIndex i n = i mod n.
Proof.
  intros Hn. unfold wrapIndex.
  pose proof (Z.quot_rem' i n) as Hq.
  pose proof (Z.rem_bound_abs i n ltac:(lia)) as Hb.
  assert (0 <= Z.rem i n + n) as Hnn by lia.
  rewrite (Z.rem_mod_nonneg (Z.rem i n + n) n) by lia.
  replace (Z.rem i n + n) with (i + (1 - i ÷ n) * n) by lia.
  apply Z_mod_plus_full.
Qed.

Lemma wrapIndex_range i n : 0 < n → 0 <= wrapIndex i n < n.
Proof. intros Hn. rewrite wrapIndex_mod by done. by apply Z.mod_pos_bound. Qed.

Lemma stopAutoplay_timers {J} (c : @Carousel J) :
  timersOk c → timersOk (stopAutoplay c) ∧ timer (stopAutoplay c) = None.
Proof.
  intros Hc. pose proof Hc as (Hi & Hr & Hn & Hs & Ha). unfold stopAutoplay.
  destruct (timer c) as [id|] eqn:Ht; [|by rewrite Ht].
  split; [|done]. unfold timersOk. simpl. split_and!.
  - intros id'. rewrite lookup_delete_Some. split; [|done].
    intros [Hne Hp]. apply Hi in Hp. congruence.
  - intros id' [_ Hp]%lookup_delete_Some. by apply Hr.
  - intros id' k [_ Hp]%lookup_delete_Some. by eapply Hn.
  - intros id' Hid. destruct (Hs _ Hid) as [? Hne]. split; [done|].
    intros [_ Hp]%lookup_delete_Some. done.
  - done.
Qed.

Lemma startAutoplay_timers {J} (c : @Carousel J) :
  timersOk c → timersOk (startAutoplay c)
               ∧ (autoplay c = true → ∃ id, timer (startAutoplay c) = Some id).
Proof.
  intros Hc. unfold startAutoplay. destruct (autoplay c) eqn:Hau; simpl;
    [|by split].
  destruct (stopAutoplay_timers c Hc) as ((Hi & Hr & Hn & Hs & Ha) & Ht).
  set (c' := stopAutoplay c) in *. split; [|eauto].
  unfold timersOk. simpl. split_and!.
  - intros id. rewrite lookup_insert_Some. split.
    + intros [[<- _]|[_ Hp]]; [done|]. apply Hi in Hp. congruence.
    + intros [= <-]. by left.
  - intros id [[_ ?]|[_ Hp]]%lookup_insert_Some; [done|]. by apply Hr.
  - intros id k [[<- _]|[_ Hp]]%lookup_insert_Some; [lia|].
    specialize (Hn _ _ Hp). lia.
  - intros id Hid. destruct (Hs _ Hid) as [Hlt Hne]. split; [lia|].
    rewrite lookup_insert_ne by lia. done.
  - intros Hf. exfalso. revert Hf. unfold c', stopAutoplay.
    destruct (timer c); simpl; congruence.
Qed.

Lemma resetAutoplay_timers {J} (c : @Carousel J) :
  timersOk c → timersOk (resetAutoplay c).
Proof.
  intros Hc. unfold resetAutoplay.
  apply startAutoplay_timers. by apply stopAutoplay_timers.
Qed.

Lemma stopAutoplay_view {J} (c : @Carousel J) :
  viewFields (stopAutoplay c) = viewFields c.
Proof. unfold stopAutoplay. by destruct (timer c). Qed.

Lemma startAutoplay_view {J} (c : @Carousel J) :
  viewFields (startAutoplay c) = viewFields c.
Proof.
  unfold startAutoplay. destruct (autoplay c); simpl; [|done].
  unfold viewFields. simpl. apply stopAutoplay_view.
Qed.

Lemma resetAutoplay_view {J} (c : @Carousel J) :
  viewFields (resetAutoplay c) = viewFields c.
Proof.
  unfold resetAutoplay. by rewrite startAutoplay_view, stopAutoplay_view.
Qed.

Lemma refresh_dots {J} (c : @Carousel J) :
  (∀ ds, dots c = Some ds → length ds = length (slides c)) →
  dotsOk (refresh c).
Proof.
  intros Hlen ds. unfold refresh. simpl.
  destruct (dots c) as [ds0|]; simpl; [|done]. intros [= <-].
  rewrite length_imap. split; [by apply Hlen|].
  intros i d. rewrite list_lookup_imap.
  destruct (ds0 !! i); simpl; [|done]. by intros [= <-].
Qed.

Lemma carouselOk_view {J} (c c' : @Carousel J) :
  viewFields c' = viewFields c → timersOk c' → carouselOk c → carouselOk c'.
Proof.
  unfold viewFields, carouselOk, indexOk, dotsOk.
  intros [= -> -> ->] Ht (Hi & Hd & _). done.
Qed.

Lemma goTo_ok {J} (i : Z) (c : @Carousel J) :
  carouselOk c →
  carouselOk (goTo i c)
  ∧ index (goTo i c) = i mod Z.of_nat (length (slides c))
  ∧ slides (goTo i c) = slides c.
Proof.
  intros ([Hne Hidx] & Hd & Ht).
  assert (0 < Z.of_nat (length (slides c))) as Hpos.
  { destruct (slides c); [done|]. simpl. lia. }
  unfold goTo. cbv zeta.
  set (w := wrapIndex i (Z.of_nat (length (slides c)))).
  pose proof (resetAutoplay_view (refresh (setIndex w c))) as Hv.
  unfold viewFields in Hv. simpl in Hv. injection Hv as Hs Hi Hds.
  split; [split; [|split]|split].
  - unfold indexOk. rewrite Hs, Hi. split; [done|]. by apply wrapIndex_range.
  - intros ds Hdots. rewrite Hds in Hdots. rewrite Hs, Hi.
    eapply (refresh_dots (setIndex w c)); [|exact Hdots].
    simpl. intros ds0 H0. by apply Hd.
  - apply resetAutoplay_timers. eapply timersOk_ext; [|exact Ht]. done.
  - rewrite Hi. by apply wrapIndex_mod.
  - exact Hs.
Qed.

Lemma refresh_ok {J} (c : @Carousel J) : carouselOk c → carouselOk (refresh c).
Proof.
  intros (Hi & Hd & Ht). split; [exact Hi|split].
  - apply refresh_dots. intros ds H. by apply Hd.
  - eapply timersOk_ext; [|exact Ht]. done.
Qed.

Lemma stopAutoplay_ok {J} (c : @Carousel J) :
  carouselOk c → carouselOk (stopAutoplay c).
Proof.
  intros Hc. eapply carouselOk_view; [apply stopAutoplay_view| |exact Hc].
  apply stopAutoplay_timers, Hc.
Qed.

Lemma resetAutoplay_ok {J} (c : @Carousel J) :
  carouselOk c → carouselOk (resetAutoplay c).
Proof.
  intros Hc. eapply carouselOk_view; [apply resetAutoplay_view| |exact Hc].
  apply resetAutoplay_timers, Hc.
Qed.

Lemma onResize_timers {J} l (c : @Carousel J) :
  timersOk c → timersOk (onResize l c).
Proof.
  intros (Hti & Htr & Htn & Hts & Hta). unfold onResize, timersOk. simpl.
  set (p := match resizeTimer c with
            | Some id => delete id (pool c) | None => pool c end).
  assert (Hp : ∀ id k, p !! id = Some k → pool c !! id = Some k).
  { intros id k. unfold p. destruct (resizeTimer c); [|done].
    by intros [_ ?]%lookup_delete_Some. }
  assert (Hp' : ∀ id, pool c !! id = Some IntervalNext →
                      p !! id = Some IntervalNext).
  { intros id Hid. unfold p. destruct (resizeTimer c) as [r|] eqn:Hr; [|done].
    apply lookup_delete_Some. split; [|done]. intros <-.
    by destruct (Hts r eq_refl). }
  assert (Hp'' : ∀ id, p !! id ≠ Some TimeoutRefresh).
  { intros id Hid. pose proof (Htr _ (Hp _ _ Hid)) as Hr.
    revert Hid. unfold p. rewrite Hr, lookup_delete_eq. done. }
  split; [|split; [|split; [|split]]].
  - intros id. rewrite lookup_insert_Some. split.
    + intros [[_ ?]|[_ Hid]]; [done|]. by apply Hti, Hp.
    + intros Hid. right. apply Hti in Hid as Hid'. split.
      * intros <-. specialize (Htn _ _ Hid'). lia.
      * by apply Hp'.
  - intros id [[<- _]|[_ Hid]]%lookup_insert_Some; [done|].
    by apply Hp'' in Hid.
  - intros id k [[<- _]|[_ Hid]]%lookup_insert_Some; [lia|].
    apply Hp, Htn in Hid. lia.
  - intros id [= <-]. split; [lia|]. by rewrite lookup_insert_eq.
  - done.
Qed.

Lemma timeout_fired_timers {J} id (c : @Carousel J) :
  pool c !! id = Some TimeoutRefresh →
  timersOk c →
  timersOk (setResizeTimer (resizeTimer c) (delete id (pool c)) (nextId c) c).
Proof.
  intros Hid (Hti & Htr & Htn & Hts & Hta). unfold timersOk. simpl.
  split; [|split; [|split; [|split]]].
  - intros id'. rewrite lookup_delete_Some. split.
    + intros [_ ?]. by apply Hti.
    + intros Ht. apply Hti in Ht. split; [|done]. intros <-. congruence.
  - intros id' [_ ?]%lookup_delete_Some. by apply Htr.
  - intros id' k [_ ?]%lookup_delete_Some. by eapply Htn.
  - intros id' Hr. destruct (Hts _ Hr). split; [done|].
    intros [_ ?]%lookup_delete_Some. done.
  - done.
Qed.

Lemma handle_ok {J} (e : Event) (c : @Carousel J) :
  carouselOk c → carouselOk (handle e c).
Proof.
  intros Hc. destruct e as [| |i|key|l|id|id|x|x| | | | |]; simpl.
  - destruct (nextBtn c); [by apply goTo_ok|done].
  - destruct (prevBtn c); [by apply goTo_ok|done].
  - destruct (dots c); [|done]. case_bool_decide; [by apply goTo_ok|done].
  - unfold onKeyDown.
    assert (carouselOk (if bool_decide (key = u "ArrowLeft")
                        then prev c else c)) as Hc'.
    { case_bool_decide; [by apply goTo_ok|done]. }
    revert Hc'.
    generalize (if bool_decide (key = u "ArrowLeft") then prev c else c).
    intros c1 Hc1. case_bool_decide; [by apply goTo_ok|done].
  - eapply carouselOk_view; [|apply onResize_timers, Hc|exact Hc]. done.
  - destruct (pool c !! id) as [[|]|] eqn:Hid; [done| |done].
    apply refresh_ok.
    eapply carouselOk_view; [|apply timeout_fired_timers, Hc; done|exact Hc].
    done.
  - destruct (pool c !! id) as [[|]|]; [by apply goTo_ok|done|done].
  - apply stopAutoplay_ok.
    eapply carouselOk_view; [| |exact Hc]; [done|].
    eapply timersOk_ext; [|apply Hc]. done.
  - unfold onTouchMove.
    eapply carouselOk_view; [| |exact Hc]; [done|].
    eapply timersOk_ext; [|apply Hc]. done.
  - unfold onTouchEnd. apply resetAutoplay_ok.
    destruct (60 <? Z.abs (deltaX c)).
    + destruct (deltaX c <? 0); by apply goTo_ok.
    + by apply refresh_ok.
  - by apply stopAutoplay_ok.
  - by apply resetAutoplay_ok.
  - by apply stopAutoplay_ok.
  - by apply resetAutoplay_ok.
Qed.

Lemma runEvents_ok {J} (es : list Event) (c : @Carousel J) :
  carouselOk c → carouselOk (runEvents es c).
Proof.
  revert c. induction es as [|e es IH]; intros c Hc; [done|].
  apply IH. by apply handle_ok.
Qed.

Lemma startAutoplay_ok {J} (c : @Carousel J) :
  carouselOk c → carouselOk (startAutoplay c).
Proof.
  intros Hc. eapply carouselOk_view; [apply startAutoplay_view| |exact Hc].
  apply startAutoplay_timers, Hc.
Qed.

Lemma buildSlides_length {J} existing (imgs : list (@ImageSrc J)) :
  length (buildSlides existing imgs)
  = match existing, imgs with
    | O, [] => 1%nat
    | O, _ :: _ => length imgs
    | S _, _ => existing
    end.
Proof.
  unfold buildSlides. destruct imgs as [|x imgs], existing as [|k]; simpl;
    try done.
  - by rewrite length_replicate.
  - by rewrite length_imap.
  - by rewrite length_replicate.
Qed.

Lemma buildSlides_nonempty {J} existing (imgs : list (@ImageSrc J)) :
  buildSlides existing imgs ≠ [].
Proof.
  intros H. apply (f_equal length) in H. rewrite buildSlides_length in H.
  destruct existing, imgs; simpl in H; lia.
Qed.

Lemma initCarousel_ok {J} (parse : jsstr → option (list J)) root firstId c :
  initCarousel parse root firstId = Some c → carouselOk c.
Proof.
  unfold initCarousel. destruct (trackChildren root) as [existing|]; [|done].
  intros [= <-]. apply startAutoplay_ok.
  set (sl := buildSlides existing _).
  assert (sl ≠ []) as Hne by apply buildSlides_nonempty.
  split; [|split].
  - unfold indexOk, createDots. simpl.
    destruct (hasDotsWrap root); simpl; (split; [done|]);
      destruct sl; try done; simpl; lia.
  - apply refresh_dots. unfold createDots. simpl.
    destruct (hasDotsWrap root); simpl; [|done].
    intros ds [= <-]. by rewrite length_imap.
  - eapply (timersOk_ext (mkCarousel sl (hasPrevBtn root) (hasNextBtn root)
              0 (bool_decide (dataAutoplay root = Some (u "true"))) None None
              0 0 (rootLayout root) [] None ∅ firstId) _).
    + unfold createDots. simpl. by destruct (hasDotsWrap root).
    + unfold timersOk. simpl. split; [|split; [|split; [|split]]]; done.
Qed.

Lemma goTo_slides {J} i (c : @Carousel J) : slides (goTo i c) = slides c.
Proof.
  unfold goTo. cbv zeta.
  pose proof (resetAutoplay_view
                (refresh (setIndex
                   (wrapIndex i (Z.of_nat (length (slides c)))) c))) as Hv.
  unfold viewFields in Hv. by injection Hv as Hs _ _.
Qed.

Lemma view_slides {J} (c c' : @Carousel J) :
  viewFields c' = viewFields c → slides c' = slides c.
Proof. unfold viewFields. by intros [= -> _ _]. Qed.

Lemma handle_slides {J} e (c : @Carousel J) : slides (handle e c) = slides c.
Proof.
  destruct e as [| |i|key|l|id|id|x|x| | | | |]; simpl.
  - destruct (nextBtn c); [apply goTo_slides|done].
  - destruct (prevBtn c); [apply goTo_slides|done].
  - destruct (dots c); [|done]. case_bool_decide; [apply goTo_slides|done].
  - unfold onKeyDown, next, prev.
    repeat case_bool_decide; rewrite ?goTo_slides; done.
  - done.
  - by destruct (pool c !! id) as [[|]|].
  - destruct (pool c !! id) as [[|]|]; [apply goTo_slides|done|done].
  - by rewrite (view_slides _ _ (stopAutoplay_view _)).
  - done.
  - unfold onTouchEnd.
    rewrite (view_slides _ _ (resetAutoplay_view _)).
    destruct (60 <? Z.abs (deltaX c)); [|done].
    destruct (deltaX c <? 0); apply goTo_slides.
  - apply (view_slides _ _ (stopAutoplay_view _)).
  - apply (view_slides _ _ (resetAutoplay_view _)).
  - apply (view_slides _ _ (stopAutoplay_view _)).
  - apply (view_slides _ _ (resetAutoplay_view _)).
Qed.

Lemma runEvents_slides {J} es (c : @Carousel J) :
  slides (runEvents es c) = slides c.
Proof.
  revert c. induction es as [|e es IH]; intros c; [done|].
  change (runEvents (e :: es) c) with (runEvents es (handle e c)).
  by rewrite IH, handle_slides.
Qed.

(** X9. The carousel always shows a slide that exists. After
    [initCarousel] and any sequence of clicks, keys, swipes, hovers,
    resizes and timer callbacks, the track is not empty and keeps its
    slides, the index is the position of one of them, and, when there are
    dots, there is one per slide and the active dot is exactly the one at
    the index. *)
Theorem X9_carousel_index_in_range {J} (parse : jsstr → option (list J))
        (root : CarouselRoot) (firstId : positive) (c0 : Carousel)
        (es : list Event) :
  initCarousel parse root firstId = Some c0 →
  let c := runEvents es c0 in
  slides c = slides c0 ∧ slides c ≠ []
  ∧ 0 <= index c < Z.of_nat (length (slides c))
  ∧ ∀ ds, dots c = Some ds →
      length ds = length (slides c)
      ∧ ∀ i d, ds !! i = Some d → (dotActive d = true ↔ Z.of_nat i = index c).
Proof.
  intros Hinit c.
  pose proof (runEvents_ok es c0 (initCarousel_ok _ _ _ _ Hinit))
    as ([Hne Hidx] & Hd & _).
  fold c in Hne, Hidx, Hd. split; [apply runEvents_slides|].
  split; [exact Hne|]. split; [exact Hidx|].
  intros ds Hds. destruct (Hd ds Hds) as [Hl Ha]. split; [exact Hl|].
  intros i d Hi. rewrite (Ha i d Hi). apply bool_decide_eq_true.
Qed.

Lemma stopAutoplay_autoplay {J} (c : @Carousel J) :
  autoplay (stopAutoplay c) = autoplay c.
Proof. unfold stopAutoplay. by destruct (timer c). Qed.

Lemma startAutoplay_autoplay {J} (c : @Carousel J) :
  autoplay (startAutoplay c) = autoplay c.
Proof.
  unfold startAutoplay. destruct (autoplay c) eqn:E; simpl; [|done].
  by rewrite stopAutoplay_autoplay.
Qed.

Lemma resetAutoplay_autoplay {J} (c : @Carousel J) :
  autoplay (resetAutoplay c) = autoplay c.
Proof.
  unfold resetAutoplay.
  by rewrite startAutoplay_autoplay, stopAutoplay_autoplay.
Qed.

Lemma goTo_autoplay {J} i (c : @Carousel J) :
  autoplay (goTo i c) = autoplay c.
Proof. unfold goTo. cbv zeta. by rewrite resetAutoplay_autoplay. Qed.

Lemma handle_autoplay {J} e (c : @Carousel J) :
  autoplay (handle e c) = autoplay c.
Proof.
  destruct e as [| |i|key|l|id|id|x|x| | | | |]; simpl.
  - destruct (nextBtn c); [apply goTo_autoplay|done].
  - destruct (prevBtn c); [apply goTo_autoplay|done].
  - destruct (dots c); [|done]. case_bool_decide; [apply goTo_autoplay|done].
  - unfold onKeyDown, next, prev.
    repeat case_bool_decide; rewrite ?goTo_autoplay; done.
  - done.
  - by destruct (pool c !! id) as [[|]|].
  - destruct (pool c !! id) as [[|]|]; [apply goTo_autoplay|done|done].
  - by rewrite stopAutoplay_autoplay.
  - done.
  - unfold onTouchEnd. rewrite resetAutoplay_autoplay.
    destruct (60 <? Z.abs (deltaX c)); [|done].
    destruct (deltaX c <? 0); apply goTo_autoplay.
  - apply stopAutoplay_autoplay.
  - apply resetAutoplay_autoplay.
  - apply stopAutoplay_autoplay.
  - apply resetAutoplay_autoplay.
Qed.

Lemma runEvents_autoplay {J} es (c : @Carousel J) :
  autoplay (runEvents es c) = autoplay c.
Proof.
  revert c. induction es as [|e es IH]; intros c; [done|].
  change (runEvents (e :: es) c) with (runEvents es (handle e c)).
  by rewrite IH, handle_autoplay.
Qed.

Lemma initCarousel_autoplay {J} (parse : jsstr → option (list J))
      root firstId c :
  initCarousel parse root firstId = Some c →
  autoplay c = bool_decide (dataAutoplay root = Some (u "true")).
Proof.
  unfold initCarousel. destruct (trackChildren root); [|done].
  intros [= <-]. rewrite startAutoplay_autoplay. simpl.
  unfold createDots. simpl. by destruct (hasDotsWrap root).
Qed.

(** X10. The carousel never piles up timers. After [initCarousel] and any
    sequence of events at most one autoplay interval is live, and it is
    live exactly when [timer] holds its id; at most one refresh timeout is
    pending; and a carousel without [data-autoplay="true"] never has an
    interval. *)
Theorem X10_carousel_timers {J} (parse : jsstr → option (list J))
        (root : CarouselRoot) (firstId : positive) (c0 : Carousel)
        (es : list Event) :
  initCarousel parse root firstId = Some c0 →
  let c := runEvents es c0 in
  (∀ id, pool c !! id = Some IntervalNext ↔ timer c = Some id)
  ∧ (∀ id1 id2, pool c !! id1 = Some IntervalNext →
                pool c !! id2 = Some IntervalNext → id1 = id2)
  ∧ (∀ id1 id2, pool c !! id1 = Some TimeoutRefresh →
                pool c !! id2 = Some TimeoutRefresh → id1 = id2)
  ∧ (dataAutoplay root ≠ Some (u "true") →
     ∀ id, pool c !! id ≠ Some IntervalNext).
Proof.
  intros Hinit c.
  pose proof (runEvents_ok es c0 (initCarousel_ok _ _ _ _ Hinit))
    as (_ & _ & (Hti & Htr & _ & _ & Hta)).
  fold c in Hti, Htr, Hta. split; [exact Hti|]. split; [|split].
  - intros id1 id2 H1%Hti H2%Hti. congruence.
  - intros id1 id2 H1%Htr H2%Htr. congruence.
  - intros Hno id Hid. apply Hti in Hid.
    assert (autoplay c = false) as Hauto.
    { unfold c. rewrite runEvents_autoplay, (initCarousel_autoplay _ _ _ _ Hinit).
      by apply bool_decide_eq_false. }
    rewrite (Hta Hauto) in Hid. done.
Qed.

Lemma stopAutoplay_rest {J} (c : @Carousel J) :
  restFields (stopAutoplay c) = restFields c.
Proof. unfold stopAutoplay. by destruct (timer c). Qed.

Lemma startAutoplay_rest {J} (c : @Carousel J) :
  restFields (startAutoplay c) = restFields c.
Proof.
  unfold startAutoplay. destruct (autoplay c) eqn:E; simpl; [|done].
  rewrite <- (stopAutoplay_rest c). done.
Qed.

Lemma resetAutoplay_rest {J} (c : @Carousel J) :
  restFields (resetAutoplay c) = restFields c.
Proof.
  unfold resetAutoplay. by rewrite startAutoplay_rest, stopAutoplay_rest.
Qed.

Lemma rest_index {J} (c c' : @Carousel J) :
  restFields c' = restFields c → index c' = index c.
Proof. unfold restFields. by intros [= _ _ _ -> _ _ _ _ _ _]. Qed.

Lemma rest_transform {J} (c c' : @Carousel J) :
  restFields c' = restFields c → transform c' = transform c.
Proof. unfold restFields. by intros [= _ _ _ _ _ _ _ _ -> _]. Qed.

Lemma iter_next {J} (k : nat) (c : @Carousel J) :
  carouselOk c →
  carouselOk (Nat.iter k next c)
  ∧ slides (Nat.iter k next c) = slides c
  ∧ index (Nat.iter k next c)
    = (index c + Z.of_nat k) mod Z.of_nat (length (slides c)).
Proof.
  intros Hc. induction k as [|k (Hk & Hs & Hi)].
  - simpl. split; [done|]. split; [done|].
    rewrite Z.add_0_r, Z.mod_small; [done|]. apply Hc.
  - simpl. unfold next at 1 3 5.
    destruct (goTo_ok (index (Nat.iter k next c) + 1) _ Hk) as (Hk' & Hi' & Hs').
    split; [done|]. split; [by rewrite Hs', Hs|].
    rewrite Hi', Hs, Hi, Zplus_mod_idemp_l. f_equal. lia.
Qed.

(** X11. Moving through the slides is arithmetic modulo their number
    [n]. In every state the carousel can reach, [goTo(i)] sets the index
    to [i mod n] for every integer [i], negative or large; [next] and
    [prev] step by one with wrap-around (from the last slide to the first
    and back), undo each other, and [n] times [next] comes back to the
    same slide. *)
Theorem X11_carousel_wraps {J} (parse : jsstr → option (list J))
        (root : CarouselRoot) (firstId : positive) (c0 : Carousel)
        (es : list Event) :
  initCarousel parse root firstId = Some c0 →
  let c := runEvents es c0 in
  let n := Z.of_nat (length (slides c)) in
  (∀ i, index (goTo i c) = i mod n ∧ 0 <= index (goTo i c) < n)
  ∧ index (next c) = (index c + 1) mod n
  ∧ index (prev c) = (index c - 1) mod n
  ∧ (index c = n - 1 → index (next c) = 0)
  ∧ (index c = 0 → index (prev c) = n - 1)
  ∧ index (prev (next c)) = index c
  ∧ index (next (prev c)) = index c
  ∧ index (Nat.iter (length (slides c)) next c) = index c.
Proof.
  intros Hinit c n.
  pose proof (runEvents_ok es c0 (initCarousel_ok _ _ _ _ Hinit)) as Hc.
  fold c in Hc. pose proof Hc as ([Hne Hidx] & _ & _). fold n in Hidx.
  assert (0 < n) as Hn by lia.
  assert (Hgo : ∀ i, index (goTo i c) = i mod n).
  { intros i. by destruct (goTo_ok i c Hc) as (_ & ? & _). }
  split; [|split; [|split; [|split; [|split; [|split; [|split]]]]]].
  - intros i. rewrite Hgo. split; [done|]. by apply Z.mod_pos_bound.
  - apply Hgo.
  - apply Hgo.
  - intros E. unfold next. rewrite Hgo, E.
    replace (n - 1 + 1) with (0 + 1 * n) by lia.
    rewrite Z_mod_plus_full. by apply Z.mod_small.
  - intros E. unfold prev. rewrite Hgo, E.
    replace (0 - 1) with (n - 1 + (-1) * n) by lia.
    rewrite Z_mod_plus_full. apply Z.mod_small. lia.
  - destruct (goTo_ok (index c + 1) c Hc) as (Hc1 & Hi1 & Hs1).
    destruct (goTo_ok (index (next c) - 1) (next c) Hc1) as (_ & Hi2 & _).
    unfold prev at 1. rewrite Hi2. unfold next at 2. rewrite Hs1.
    fold n. unfold next. rewrite Hi1. fold n.
    rewrite Zminus_mod_idemp_l. replace (index c + 1 - 1) with (index c) by lia.
    by apply Z.mod_small.
  - destruct (goTo_ok (index c - 1) c Hc) as (Hc1 & Hi1 & Hs1).
    destruct (goTo_ok (index (prev c) + 1) (prev c) Hc1) as (_ & Hi2 & _).
    unfold next at 1. rewrite Hi2. unfold prev at 2. rewrite Hs1.
    fold n. unfold prev. rewrite Hi1. fold n.
    rewrite Zplus_mod_idemp_l. replace (index c - 1 + 1) with (index c) by lia.
    by apply Z.mod_small.
  - destruct (iter_next (length (slides c)) c Hc) as (_ & _ & Hi).
    rewrite Hi. fold n. replace (index c + n) with (index c + 1 * n) by lia.
    rewrite Z_mod_plus_full. by apply Z.mod_small.
Qed.

Lemma rest_touch {J} (c c' : @Carousel J) :
  restFields c' = restFields c →
  startX c' = startX c ∧ deltaX c' = deltaX c ∧ layout c' = layout c
  ∧ slides c' = slides c.
Proof. unfold restFields. by intros [= -> _ _ _ _ -> -> -> _ _]. Qed.

(** X12. A swipe moves by at most one slide. A touch that starts at [x0],
    last moves to [x1] and ends there goes to the next slide (with
    wrap-around) when the finger travelled more than 60 pixels to the
    left, to the previous one when it travelled more than 60 to the right,
    and otherwise stays and puts the track back in place. *)
Theorem X12_carousel_swipe {J} (parse : jsstr → option (list J))
        (root : CarouselRoot) (firstId : positive) (c0 : Carousel)
        (es : list Event) (x0 x1 : Z) :
  initCarousel parse root firstId = Some c0 →
  let c := runEvents es c0 in
  let n := Z.of_nat (length (slides c)) in
  let c' := runEvents [TouchStart x0; TouchMove x1; TouchEnd] c in
  (x1 - x0 < -60 → index c' = (index c + 1) mod n)
  ∧ (60 < x1 - x0 → index c' = (index c - 1) mod n)
  ∧ (-60 <= x1 - x0 <= 60 →
     index c' = index c
     ∧ transform c' = translateX (- index c * widthOf (layout c))).
Proof.
  intros Hinit c n c'.
  pose proof (runEvents_ok es c0 (initCarousel_ok _ _ _ _ Hinit)) as Hc.
  fold c in Hc.
  set (c1 := handle (TouchStart x0) c).
  set (c2 := handle (TouchMove x1) c1).
  assert (c' = handle TouchEnd c2) as -> by done.
  assert (Hc2 : carouselOk c2) by (by do 2 apply handle_ok).
  pose proof (stopAutoplay_rest (setTouch x0 0 c)) as R1.
  fold (handle (TouchStart x0) c) in R1. fold c1 in R1.
  apply rest_touch in R1 as R1t. destruct R1t as (Hsx & _ & Hl1 & Hs1).
  apply rest_index in R1 as Hi1. simpl in Hsx, Hl1, Hs1, Hi1.
  assert (deltaX c2 = x1 - x0) as Hd by (simpl; by rewrite Hsx).
  assert (index c2 = index c) as Hi2 by (simpl; exact Hi1).
  assert (slides c2 = slides c) as Hs2 by (simpl; exact Hs1).
  assert (layout c2 = layout c) as Hl2 by (simpl; exact Hl1).
  simpl handle. unfold onTouchEnd.
  rewrite (rest_index _ _ (resetAutoplay_rest _)),
          (rest_transform _ _ (resetAutoplay_rest _)), Hd.
  split; [|split].
  - intros Hlt. destruct (Z.ltb_spec 60 (Z.abs (x1 - x0))); [|lia].
    destruct (Z.ltb_spec (x1 - x0) 0); [|lia].
    destruct (goTo_ok (index c2 + 1) c2 Hc2) as (_ & Hi & _).
    unfold next. rewrite Hi, Hs2, Hi2. done.
  - intros Hgt. destruct (Z.ltb_spec 60 (Z.abs (x1 - x0))); [|lia].
    destruct (Z.ltb_spec (x1 - x0) 0); [lia|].
    destruct (goTo_ok (index c2 - 1) c2 Hc2) as (_ & Hi & _).
    unfold prev. rewrite Hi, Hs2, Hi2. done.
  - intros Hin. destruct (Z.ltb_spec 60 (Z.abs (x1 - x0))); [lia|].
    split; [exact Hi2|]. unfold refresh. simpl transform.
    change (index (setTouch (startX c1) (x1 - startX c1) c1)) with (index c1).
    change (layout (setTouch (startX c1) (x1 - startX c1) c1))
      with (layout c1).
    by rewrite Hi1, Hl1.
Qed.

(** X13. Autoplay pauses and resumes. In every state the carousel can
    reach, after the pointer enters, the focus moves in or a touch starts
    no interval is live; after the pointer leaves, the focus moves out or
    a touch ends exactly one interval is live when the carousel has
    autoplay, and none otherwise. Hovering and focusing leave the index
    and the position of the track untouched. *)
Theorem X13_carousel_pause_resume {J} (parse : jsstr → option (list J))
        (root : CarouselRoot) (firstId : positive) (c0 : Carousel)
        (es : list Event) (e : Event) :
  initCarousel parse root firstId = Some c0 →
  let c := runEvents es c0 in
  ((e = MouseEnter ∨ e = FocusIn ∨ ∃ x, e = TouchStart x) →
     timer (handle e c) = None
     ∧ ∀ id, pool (handle e c) !! id ≠ Some IntervalNext)
  ∧ ((e = MouseLeave ∨ e = FocusOut ∨ e = TouchEnd) →
       if autoplay c
       then ∃ id, timer (handle e c) = Some id
                  ∧ ∀ id', pool (handle e c) !! id' = Some IntervalNext
                           ↔ id' = id
       else timer (handle e c) = None
            ∧ ∀ id, pool (handle e c) !! id ≠ Some IntervalNext)
  ∧ ((e = MouseEnter ∨ e = FocusIn ∨ e = MouseLeave ∨ e = FocusOut) →
       index (handle e c) = index c ∧ transform (handle e c) = transform c).
Proof.
  intros Hinit c.
  pose proof (runEvents_ok es c0 (initCarousel_ok _ _ _ _ Hinit)) as Hc.
  fold c in Hc.
  pose proof (handle_ok e c Hc) as (_ & _ & Ht).
  pose proof Ht as (Hti & _ & _ & _ & Hta).
  assert (Hnone : timer (handle e c) = None →
                  ∀ id, pool (handle e c) !! id ≠ Some IntervalNext).
  { intros Hn id Hid. apply Hti in Hid. congruence. }
  split; [|split].
  - intros He. assert (timer (handle e c) = None) as Hn.
    { destruct He as [-> | [-> | [x ->]]]; simpl; apply stopAutoplay_timers.
      - apply Hc.
      - apply Hc.
      - eapply timersOk_ext; [|apply Hc]. done. }
    split; [exact Hn|by apply Hnone].
  - intros He. rewrite <- (handle_autoplay e c).
    destruct (autoplay (handle e c)) eqn:Hau.
    + assert (∃ id, timer (handle e c) = Some id) as [id Hid].
      { rewrite handle_autoplay in Hau.
        assert (∀ d : @Carousel J, carouselOk d → autoplay d = true →
                  ∃ id, timer (resetAutoplay d) = Some id) as Hreset.
        { intros d Hd Had. unfold resetAutoplay.
          destruct (startAutoplay_timers (stopAutoplay d)) as [_ H].
          - apply stopAutoplay_timers, Hd.
          - apply H. by rewrite stopAutoplay_autoplay. }
        destruct He as [-> | [-> | ->]]; simpl; try (by apply Hreset).
        unfold onTouchEnd. apply Hreset.
        - destruct (60 <? Z.abs (deltaX c));
            [destruct (deltaX c <? 0); by apply goTo_ok|by apply refresh_ok].
        - unfold next, prev. destruct (60 <? Z.abs (deltaX c));
            [destruct (deltaX c <? 0); by rewrite goTo_autoplay|done]. }
      exists id. split; [done|]. intros id'. rewrite Hti, Hid.
      split; [by intros [= ->]|by intros ->].
    + split; [by apply Hta|]. by apply Hnone, Hta.
  - intros He.
    destruct He as [-> | [-> | [-> | ->]]]; simpl;
      rewrite ?(rest_index _ _ (stopAutoplay_rest _)),
              ?(rest_transform _ _ (stopAutoplay_rest _)),
              ?(rest_index _ _ (resetAutoplay_rest _)),
              ?(rest_transform _ _ (resetAutoplay_rest _)); done.
Qed.

(** X14. How a carousel starts. [initCarousel] gives up exactly when the
    root has no track. Otherwise it starts at the first slide, with the
    track in place; slides found in the markup are kept and [data-images]
    is then ignored; an empty track is filled with one image per entry of
    [data-images], or with the placeholder when there is none, so that the
    track is never empty; and the autoplay interval is the only timer,
    started exactly when [data-autoplay] is "true". *)
Theorem X14_carousel_init {J} (parse : jsstr → option (list J))
        (root : CarouselRoot) (firstId : positive) :
  (initCarousel parse root firstId = None ↔ trackChildren root = None)
  ∧ ∀ c0, initCarousel parse root firstId = Some c0 →
      let imgs := parseImageList parse (default [] (dataImages root)) in
      index c0 = 0
      ∧ transform c0 = u "translateX(0px)"
      ∧ (∀ k, trackChildren root = Some (S k) →
              slides c0 = replicate (S k) Existing)
      ∧ (trackChildren root = Some O → imgs ≠ [] →
         slides c0 = imap imgFor imgs)
      ∧ (trackChildren root = Some O → imgs = [] → slides c0 = [Placeholder])
      ∧ (if bool_decide (dataAutoplay root = Some (u "true"))
         then timer c0 = Some firstId
              ∧ pool c0 = {[firstId := IntervalNext]}
         else timer c0 = None ∧ pool c0 = ∅).
Proof.
  split.
  - unfold initCarousel. by destruct (trackChildren root).
  - intros c0. unfold initCarousel.
    destruct (trackChildren root) as [existing|] eqn:Ht; [|done].
    intros [= <-]. cbv zeta.
    set (au := bool_decide (dataAutoplay root = Some (u "true"))).
    assert (orStr (default [] (dataImages root)) [] = default [] (dataImages root))
      as -> by (unfold orStr; by destruct (default [] (dataImages root))).
    set (imgs := parseImageList parse (default [] (dataImages root))).
    set (cd := createDots _).
    assert (slides cd = buildSlides existing imgs) as Hs.
    { unfold cd, createDots. simpl. by destruct (hasDotsWrap root). }
    assert (index cd = 0) as Hi.
    { unfold cd, createDots. simpl. by destruct (hasDotsWrap root). }
    assert (timerFields cd = (∅, None, None, firstId, au)) as Htf.
    { unfold cd, createDots. simpl. by destruct (hasDotsWrap root). }
    pose proof (startAutoplay_rest (refresh cd)) as Hr.
    unfold restFields in Hr. simpl in Hr.
    injection Hr as Hsl _ _ Hidx _ _ _ _ Htr _.
    rewrite Hsl, Hidx, Htr, Hs, Hi.
    split; [done|]. split; [done|]. split; [|split; [|split]].
    + intros k [= ->]. unfold buildSlides. by destruct imgs.
    + intros [= ->] Hne. unfold buildSlides. destruct imgs as [|x xs]; [done|].
      done.
    + intros [= ->] Hnil. by rewrite Hnil.
    + unfold timerFields in Htf. injection Htf as Hp Htm _ Hn Ha.
      unfold startAutoplay. simpl. rewrite Ha.
      destruct au; simpl.
      * unfold stopAutoplay. simpl. rewrite Htm. simpl. rewrite Hn, Hp.
        split; [done|]. by rewrite insert_empty.
      * by rewrite Htm, Hp.
Qed.

(** ** The list of images *)

Lemma isSpaces_trimStart s : isSpaces s → trimStart s = [].
Proof.
  induction 1 as [|c s Hc _ IH]; simpl; [done|]. by rewrite Hc.
Qed.

Lemma isSpaces_trim s : isSpaces s ↔ trim s = [].
Proof.
  split.
  - intros Hs. unfold trim. by rewrite (isSpaces_trimStart s Hs).
  - intros Ht. destruct (trim_split s) as (l & r & E & Hl & Hr & _).
    rewrite Ht in E. rewrite E. simpl. by apply Forall_app.
Qed.

Lemma trimStart_snoc_nonspace x c :
  isSpace c = false → trimStart (x ++ [c]) ≠ [].
Proof.
  intros Hc. induction x as [|a x IH]; simpl.
  - by rewrite Hc.
  - by destruct (isSpace a).
Qed.

Lemma trim_head_nonspace c l : isSpace c = false → trim (c :: l) ≠ [].
Proof.
  intros Hc. unfold trim. rewrite (trimStart_id (c :: l)) by done.
  simpl. intros H. apply (f_equal (@rev N)) in H.
  rewrite rev_involutive in H. simpl in H.
  by apply (trimStart_snoc_nonspace (rev l) c Hc).
Qed.

Lemma splitLines_cons c t :
  splitLines (c :: t)
  = if (c =? 10)%N then [] :: splitLines t
    else match t with
         | d :: t' =>
             if (c =? 13)%N && (d =? 10)%N then [] :: splitLines t'
             else consHead c (splitLines t)
         | [] => [[c]]
         end.
Proof. by destruct t. Qed.

Lemma splitLines_nonempty s : splitLines s ≠ [].
Proof.
  destruct s as [|c t]; [done|]. rewrite splitLines_cons.
  destruct (c =? 10)%N; [done|]. destruct t as [|d t']; [done|].
  destruct ((c =? 13)%N && (d =? 10)%N); [done|].
  unfold consHead. by destruct (splitLines (d :: t')).
Qed.

Lemma consHead_elem c ls l :
  l ∈ consHead c ls →
  (∃ l0 r, ls = l0 :: r ∧ (l = c :: l0 ∨ l ∈ r)) ∨ (ls = [] ∧ l = [c]).
Proof.
  unfold consHead. destruct ls as [|l0 r].
  - intros ->%list_elem_of_singleton. by right.
  - intros [->|Hl]%elem_of_cons; left; exists l0, r; auto.
Qed.

Lemma splitLines_no_lf s l : l ∈ splitLines s → 10%N ∉ l.
Proof.
  revert l. induction s as [s IH] using (induction_ltof1 _ (@length N)).
  unfold ltof in IH. intros l.
  destruct s as [|c t]; [by intros ->%list_elem_of_singleton ?%elem_of_nil|].
  rewrite splitLines_cons. destruct (N.eqb_spec c 10) as [->|Hc].
  - intros [->|Hl]%elem_of_cons; [by intros ?%elem_of_nil|].
    apply (IH t); [simpl; lia|done].
  - destruct t as [|d t'].
    + intros ->%list_elem_of_singleton H%list_elem_of_singleton. congruence.
    + destruct ((c =? 13)%N && (d =? 10)%N).
      * intros [->|Hl]%elem_of_cons; [by intros ?%elem_of_nil|].
        apply (IH t'); [simpl; lia|done].
      * pose proof (IH (d :: t') ltac:(simpl; lia)) as IH'.
        intros [(l0 & r & E & [-> | Hl])|[_ ->]]%consHead_elem.
        -- intros [<-|H0]%elem_of_cons; [done|].
           apply (IH' l0); [rewrite E; by left|done].
        -- apply IH'. rewrite E. by right.
        -- intros H%list_elem_of_singleton. congruence.
Qed.

Lemma trim_elem s x : x ∈ trim s → x ∈ s.
Proof.
  intros Hx. destruct (trim_split s) as (l & r & E & _). rewrite E.
  apply elem_of_app. right. apply elem_of_app. by left.
Qed.

Lemma splitLines_elem s l x : l ∈ splitLines s → x ∈ l → x ∈ s.
Proof.
  revert l. induction s as [s IH] using (induction_ltof1 _ (@length N)).
  unfold ltof in IH. intros l.
  destruct s as [|c t]; [by intros ->%list_elem_of_singleton ?%elem_of_nil|].
  rewrite splitLines_cons. destruct (c =? 10)%N.
  - intros [->|Hl]%elem_of_cons; [by intros ?%elem_of_nil|].
    intros Hx. right. apply (IH t) with l; [simpl; lia|done|done].
  - destruct t as [|d t'].
    + by intros ->%list_elem_of_singleton.
    + destruct ((c =? 13)%N && (d =? 10)%N).
      * intros [->|Hl]%elem_of_cons; [by intros ?%elem_of_nil|].
        intros Hx. right. right.
        apply (IH t') with l; [simpl; lia|done|done].
      * pose proof (IH (d :: t') ltac:(simpl; lia)) as IH'.
        intros [(l0 & r & E & [-> | Hl])|[_ ->]]%consHead_elem.
        -- intros [->|H0]%elem_of_cons; [by left|]. right.
           apply (IH' l0); [rewrite E; by left|done].
        -- intros Hx. right. apply (IH' l); [rewrite E; by right|done].
        -- intros ->%list_elem_of_singleton. by left.
Qed.

Lemma lines_nonblank t :
  t ≠ [] → noSpaceEnds t →
  filter (λ s, truthyStr s = true) (map trim (splitLines t)) ≠ [].
Proof.
  destruct t as [|c t']; [done|]. intros _ [Hc _].
  assert (∃ l ls, splitLines (c :: t') = (c :: l) :: ls) as (l & ls & ->).
  { rewrite splitLines_cons.
    assert ((c =? 10)%N = false) as ->.
    { apply N.eqb_neq. intros ->. vm_compute in Hc. discriminate Hc. }
    destruct t' as [|d t'']; [eauto|].
    assert ((c =? 13)%N = false) as ->.
    { apply N.eqb_neq. intros ->. vm_compute in Hc. discriminate Hc. }
    cbn [andb]. pose proof (splitLines_nonempty (d :: t'')) as Hne.
    unfold consHead. destruct (splitLines (d :: t'')); [done|eauto]. }
  rewrite fmap_cons, filter_cons.
  pose proof (trim_head_nonspace c l Hc) as Hn. case_decide as H; [done|].
  destruct (trim (c :: l)); [done|]. exfalso. by apply H.
Qed.

(** X15. Reading [data-images]. An empty attribute gives no image. A
    text that is the JSON of an array gives the elements of the array.
    Any other text gives its lines: each returned line is non-empty, has no
    white space at either end and no line break inside, and there is at
    least one, except that a text of white space only gives a single empty
    source (so that the carousel then builds one image without address
    rather than the placeholder). *)
Theorem X15_parseImageList {J} (parse : jsstr → option (list J))
        (str : jsstr) :
  parseImageList parse [] = []
  ∧ (str ≠ [] → ∀ p, parse (trim str) = Some p →
       parseImageList parse str = map JsonSrc p)
  ∧ (str ≠ [] → parse (trim str) = None →
       (isSpaces str → parseImageList parse str = [TextSrc []])
       ∧ (¬ isSpaces str →
          ∃ lines, parseImageList parse str = map TextSrc lines
                   ∧ lines ≠ []
                   ∧ ∀ l, l ∈ lines →
                       l ≠ [] ∧ trim l = l ∧ (10%N ∉ l)
                       ∧ ∀ x, x ∈ l → x ∈ str)).
Proof.
  split; [done|]. split.
  - intros Hne p Hp. unfold parseImageList.
    destruct str; [done|]. simpl negb. cbv iota zeta. by rewrite Hp.
  - intros Hne Hp. unfold parseImageList.
    destruct str as [|c0 str0]; [done|]. simpl negb. cbv iota zeta.
    rewrite Hp. set (str := c0 :: str0) in *. split.
    + intros Hs. apply isSpaces_trim in Hs. rewrite Hs. done.
    + intros Hs.
      assert (trim str ≠ []) as Ht by (by rewrite <- isSpaces_trim).
      destruct (trim_split str) as (_ & _ & _ & _ & _ & Hends).
      pose proof (lines_nonblank _ Ht Hends) as Hl.
      set (lines := filter _ _) in *.
      exists lines. split; [by destruct lines|]. split; [done|].
      intros l [Hl1 Hl2]%list_elem_of_filter.
      apply list_elem_of_fmap in Hl2 as (l0 & -> & Hl0).
      split; [by destruct (trim l0)|]. split; [apply trim_idemp|].
      split.
      * intros H10%trim_elem. by apply (splitLines_no_lf _ _ Hl0).
      * intros x Hx%trim_elem. apply trim_elem.
        by apply (splitLines_elem _ _ _ Hl0).
Qed.

Lemma splitLines_line l :
  l ≠ [] → 10%N ∉ l → splitLines l = [l].
Proof.
  induction l as [|c l IH]; [done|]. intros _ Hlf.
  rewrite splitLines_cons.
  assert ((c =? 10)%N = false) as ->.
  { apply N.eqb_neq. intros ->. apply Hlf. by left. }
  destruct l as [|d l']; [done|].
  assert ((d =? 10)%N = false) as ->.
  { apply N.eqb_neq. intros ->. apply Hlf. right. by left. }
  rewrite andb_false_r, IH; [done|done|].
  intros H. apply Hlf. by right.
Qed.

Lemma splitLines_break l rest :
  l ≠ [] → 10%N ∉ l → last l ≠ Some 13%N →
  splitLines (l ++ 10%N :: rest) = l :: splitLines rest.
Proof.
  induction l as [|c l IH]; [done|]. intros _ Hlf Hcr.
  rewrite <- app_comm_cons, splitLines_cons.
  assert ((c =? 10)%N = false) as ->.
  { apply N.eqb_neq. intros ->. apply Hlf. by left. }
  destruct l as [|d l'].
  - simpl app. assert ((c =? 13)%N = false) as ->.
    { apply N.eqb_neq. intros ->. by apply Hcr. }
    cbn [andb]. by rewrite splitLines_cons.
  - rewrite <- app_comm_cons.
    assert ((d =? 10)%N = false) as ->.
    { apply N.eqb_neq. intros ->. apply Hlf. right. by left. }
    rewrite andb_false_r. rewrite app_comm_cons, IH; [done|done| |].
    + intros H. apply Hlf. by right.
    + by rewrite last_cons_cons in Hcr.
Qed.

Lemma cleanLine_last l : cleanLine l → last l ≠ Some 13%N.
Proof.
  intros (Hne & Hends & _). destruct l as [|c l]; [done|].
  destruct Hends as [_ (z & -> & Hz)]. intros [= ->].
  vm_compute in Hz. discriminate Hz.
Qed.

Lemma joinLines_cons l l' rest :
  joinLines (l :: l' :: rest) = l ++ 10%N :: joinLines (l' :: rest).
Proof. done. Qed.

Lemma splitLines_joinLines ls :
  ls ≠ [] → Forall cleanLine ls → splitLines (joinLines ls) = ls.
Proof.
  induction ls as [|l ls IH]; [done|]. intros _ Hall.
  apply Forall_cons in Hall as [Hl Hall].
  destruct ls as [|l' rest].
  - simpl. apply splitLines_line; apply Hl.
  - rewrite joinLines_cons, splitLines_break, IH; try done.
    + apply Hl.
    + apply Hl.
    + by apply cleanLine_last.
Qed.

Lemma noSpaceEnds_joinLines ls :
  Forall cleanLine ls → noSpaceEnds (joinLines ls).
Proof.
  induction ls as [|l ls IH]; [done|]. intros Hall.
  apply Forall_cons in Hall as [Hl Hall].
  destruct ls as [|l' rest]; [apply Hl|].
  rewrite joinLines_cons. specialize (IH Hall).
  destruct Hl as (Hne & Hends & _). destruct l as [|c l]; [done|].
  destruct Hends as [Hc _]. rewrite <- app_comm_cons.
  unfold noSpaceEnds. split; [done|].
  assert (joinLines (l' :: rest) ≠ []) as Hj.
  { apply Forall_cons in Hall as [(Hne' & _) _].
    destruct rest; [done|]. rewrite joinLines_cons. by destruct l'. }
  destruct (joinLines (l' :: rest)) as [|e j] eqn:Ej; [done|].
  destruct IH as [_ (z & Hz & Hsp)]. exists z. split; [|done].
  rewrite app_comm_cons, last_app_cons, last_cons_cons. exact Hz.
Qed.

(** X16. Lines written one per line are read back as they are: a
    non-empty list of lines, each non-empty, without white space at either
    end and without line feed, joined by line feeds, is returned unchanged
    by [parseImageList] (the text not being the JSON of an array). *)
Theorem X16_parseImageList_lines {J} (parse : jsstr → option (list J))
        (ls : list jsstr) :
  ls ≠ [] → Forall cleanLine ls → parse (joinLines ls) = None →
  parseImageList parse (joinLines ls) = map TextSrc ls.
Proof.
  intros Hne Hall Hp.
  pose proof (noSpaceEnds_joinLines ls Hall) as Hends.
  assert (joinLines ls ≠ []) as Hj.
  { destruct ls as [|l [|l' rest]]; [done| |].
    - simpl. apply Forall_cons in Hall as [(? & _) _]. done.
    - rewrite joinLines_cons. apply Forall_cons in Hall as [(? & _) _].
      by destruct l. }
  unfold parseImageList. destruct (joinLines ls) as [|c j] eqn:Ej; [done|].
  simpl negb. cbv iota zeta. rewrite (noSpaceEnds_trim _ Hends), Hp.
  rewrite <- Ej, splitLines_joinLines by done.
  assert (filter (λ s, truthyStr s = true) (map trim ls) = ls) as ->.
  { clear -Hall. induction Hall as [|l ls (Hl & He & _) _ IH]; [done|].
    cbn [map]. rewrite filter_cons, IH, (noSpaceEnds_trim _ He).
    case_decide as H; [done|]. exfalso. apply H. by destruct l. }
  by destruct ls.
Qed.

(** * The day tabs *)

Lemma keyOf_showKey lower n k h :
  keyOf lower n = Some k → showKey lower (mkDaySection n h) = k.
Proof.
  unfold keyOf, showKey, orStr. simpl.
  destruct (datasetDay n) as [[|c d]|]; simpl;
    destruct (id n) as [|c' i]; simpl; congruence.
Qed.

Lemma show_days lower query day p :
  scheduleDays (show lower query day p).1
  = if bool_decide (day = u "all")
    then map (setHidden false) (scheduleDays p)
    else map (showOnly lower day) (scheduleDays p).
Proof.
  unfold show. case_bool_decide; [done|].
  by destruct (query (selectorFor day)) as [|[first|]].
Qed.

Lemma show_tabs lower query day p :
  tabs (show lower query day p).1 = tabs p
  ∧ wired (show lower query day p).1 = wired p.
Proof.
  unfold show. case_bool_decide; [done|].
  by destruct (query (selectorFor day)) as [|[first|]].
Qed.

(** X17. Showing a day. After [show(day)] the page has the same tabs and
    the same day-sections in the same order. For "all" every section is
    visible, nothing is scrolled and the call returns. For any other day a
    section is visible exactly when its lower-cased [data-day], or else
    [id], is that day; this holds whatever the selector query does, also
    when it throws: the classes are set before the query, and an exception
    then escapes the listener. *)
Theorem X17_show_day (lower : jsstr → jsstr)
        (query : jsstr → QueryResult) (day : jsstr) (p : TabsPage) :
  let p' := (show lower query day p).1 in
  tabs p' = tabs p
  ∧ map sdNode (scheduleDays p') = map sdNode (scheduleDays p)
  ∧ (day = u "all" →
       (∀ sd, sd ∈ scheduleDays p' → sdHidden sd = false)
       ∧ scrolledTo p' = scrolledTo p
       ∧ (show lower query day p).2 = Returned)
  ∧ (day ≠ u "all" →
       (∀ sd, sd ∈ scheduleDays p' →
              (sdHidden sd = false ↔ showKey lower sd = day))
       ∧ ((show lower query day p).2 = Threw
          ↔ query (selectorFor day) = QueryThrows)).
Proof.
  intros p'. split; [apply show_tabs|]. split; [|split].
  - unfold p'. rewrite show_days. case_bool_decide;
      rewrite <- list_fmap_compose; by apply list_fmap_ext.
  - intros ->. split; [|split].
    + intros sd. unfold p'. rewrite show_days, bool_decide_true by done.
      by intros (sd0 & -> & _)%list_elem_of_fmap.
    + unfold p', show. by rewrite bool_decide_true.
    + unfold show. by rewrite bool_decide_true.
  - intros Hne. split.
    + intros sd. unfold p'. rewrite show_days, bool_decide_false by done.
      intros (sd0 & -> & _)%list_elem_of_fmap. unfold showOnly, showKey.
      simpl. case_bool_decide; simpl; split; done.
    + unfold show. rewrite bool_decide_false by done.
      destruct (query (selectorFor day)) as [|[first|]]; simpl; split; done.
Qed.

(** X18. The section the resolver reads is the one its tab shows. If the
    key map of the page's day-sections holds a node under a day, then
    after [show] of that day (other than "all") every section with that
    node is visible, and every visible section has that day as its key. *)
Theorem X18_tab_shows_resolved_section (lower : jsstr → jsstr)
        (query : jsstr → QueryResult) (day : jsstr) (p : TabsPage)
        (n : Node) :
  day ≠ u "all" →
  buildMap lower (map sdNode (scheduleDays p)) !! day = Some n →
  let p' := (show lower query day p).1 in
  (∃ sd, sd ∈ scheduleDays p' ∧ sdNode sd = n)
  ∧ (∀ sd, sd ∈ scheduleDays p' → sdNode sd = n → sdHidden sd = false)
  ∧ (∀ sd, sd ∈ scheduleDays p' → sdHidden sd = false →
           showKey lower sd = day).
Proof.
  intros Hne Hm p'.
  apply buildMap_lookup_Some in Hm as (Hin & Hk & _).
  assert (Hdays : scheduleDays p' = map (showOnly lower day) (scheduleDays p)).
  { unfold p'. by rewrite show_days, bool_decide_false. }
  rewrite Hdays. split; [|split].
  - apply list_elem_of_fmap in Hin as (sd0 & -> & Hsd0).
    exists (showOnly lower day sd0). split; [|done].
    apply list_elem_of_fmap. eauto.
  - intros sd (sd0 & -> & _)%list_elem_of_fmap. simpl. intros <-.
    destruct sd0 as [n0 h0]. simpl in *.
    rewrite (keyOf_showKey lower n0 day h0 Hk).
    by rewrite bool_decide_true.
  - intros sd (sd0 & -> & _)%list_elem_of_fmap. unfold showOnly, showKey.
    simpl. by case_bool_decide.
Qed.

(** X19. Clicking a tab. On a page whose tabs are wired, a click on tab
    [i] leaves exactly that tab pressed ([aria-pressed] is "true" on it
    and "false" on every other tab), keeps every tab's day, and shows the
    sections of the clicked tab's day; a tab without [data-day] shows all
    sections (lower-casing leaving "all" as it is). *)
Theorem X19_click_tab (lower : jsstr → jsstr)
        (query : jsstr → QueryResult) (i : nat) (p : TabsPage) (t : Tab) :
  wired p = true → tabs p !! i = Some t →
  let p' := (clickTab lower query i p).1 in
  length (tabs p') = length (tabs p)
  ∧ (∀ j t', tabs p' !! j = Some t' →
       ariaPressed t'
       = Some (if bool_decide (j = i) then u "true" else u "false")
       ∧ tabDay <$> tabs p !! j = Some (tabDay t'))
  ∧ scheduleDays p'
    = scheduleDays (show lower query (tabKey lower t) p).1
  ∧ (lower (u "all") = u "all" →
     (tabDay t = None ∨ tabDay t = Some []) →
     ∀ sd, sd ∈ scheduleDays p' → sdHidden sd = false).
Proof.
  intros Hw Ht p'. unfold p', clickTab. rewrite Hw, Ht. simpl negb.
  cbv iota zeta.
  set (ts := <[i:=setPressed (u "true") t]> (map (setPressed (u "false")) (tabs p))).
  set (p1 := mkTabsPage ts _ _ _).
  destruct (show_tabs lower query (tabKey lower t) p1) as [Htabs _].
  rewrite Htabs. simpl tabs.
  assert (Hdays : scheduleDays (show lower query (tabKey lower t) p1).1
                  = scheduleDays (show lower query (tabKey lower t) p).1).
  { by rewrite !show_days. }
  split; [|split; [|split]].
  - unfold ts. by rewrite length_insert, length_map.
  - intros j t'. unfold ts. destruct (decide (j = i)) as [->|Hne].
    + rewrite list_lookup_insert_eq.
      * intros [= <-]. rewrite bool_decide_true by done. by rewrite Ht.
      * rewrite length_map. by eapply lookup_lt_Some.
    + rewrite list_lookup_insert_ne by done.
      change (map (setPressed (u "false")) (tabs p))
        with (setPressed (u "false") <$> tabs p).
      rewrite list_lookup_fmap. destruct (tabs p !! j) as [t0|]; [|done].
      simpl. intros [= <-]. by rewrite bool_decide_false.
  - exact Hdays.
  - intros Hall Hd sd. rewrite Hdays, show_days.
    assert (tabKey lower t = u "all") as ->.
    { unfold tabKey. by destruct Hd as [-> | ->]. }
    rewrite bool_decide_true by done.
    by intros (sd0 & -> & _)%list_elem_of_fmap.
Qed.

(** X20. Starting the tabs. On a page without day-sections nothing is
    wired and a click on a tab changes nothing. Otherwise the tabs are
    wired and the first tab marked pressed, or else the first tab, is
    pressed and its day shown; without any tab nothing else happens. *)
Theorem X20_init_day_tabs (lower : jsstr → jsstr)
        (query : jsstr → QueryResult) (ts : list Tab)
        (days : list DaySection) :
  let p := (initDayTabs lower query ts days).1 in
  (days = [] →
     p = mkTabsPage ts [] false None
     ∧ ∀ i, clickTab lower query i p = (p, Returned))
  ∧ (days ≠ [] →
     wired p = true
     ∧ (ts = [] → p = mkTabsPage [] days true None)
     ∧ ∀ t0 rest, ts = t0 :: rest →
         ∃ i t,
           ts !! i = Some t
           ∧ (ariaPressed t = Some (u "true")
              ∨ (i = O ∧ ∀ t', t' ∈ ts → ariaPressed t' ≠ Some (u "true")))
           ∧ (∀ j t', (j < i)%nat → ts !! j = Some t' →
                      ariaPressed t' ≠ Some (u "true"))
           ∧ tabs p = <[i := setPressed (u "true") t]> ts
           ∧ scheduleDays p
             = scheduleDays (show lower query (tabKey lower t)
                               (mkTabsPage ts days true None)).1).
Proof.
  intros p. split.
  - intros ->. unfold p. simpl. split; [done|]. intros i. done.
  - intros Hne. unfold p, initDayTabs. destruct days as [|d0 days']; [done|].
    set (days := d0 :: days').
    destruct (list_find (λ t, ariaPressed t = Some (u "true")) ts)
      as [[i t]|] eqn:Hf.
    + apply list_find_Some in Hf as (Hi & Hp & Hbefore).
      destruct (show_tabs lower query (tabKey lower t)
                  (mkTabsPage (<[i:=setPressed (u "true") t]> ts) days true
                     None)) as [Htabs Hw].
      split; [exact Hw|]. split.
      * intros ->. done.
      * intros t0 rest E. exists i, t. split; [done|]. split; [by left|].
        split; [|split].
        -- intros j t' Hj Ht'. by eapply Hbefore.
        -- exact Htabs.
        -- by rewrite !show_days.
    + apply list_find_None in Hf. rewrite Forall_forall in Hf.
      destruct ts as [|t0 rest].
      * split; [done|]. split; [done|]. intros ? ? [=].
      * destruct (show_tabs lower query (tabKey lower t0)
                    (mkTabsPage (<[O:=setPressed (u "true") t0]> (t0 :: rest))
                       days true None)) as [Htabs Hw].
        split; [exact Hw|]. split; [done|].
        intros ? ? _. exists O, t0. split; [done|]. split.
        { right. split; [done|]. intros t' Ht'. by apply Hf. }
        split; [|split].
        -- intros j t' Hj. lia.
        -- exact Htabs.
        -- by rewrite !show_days.
Qed.

(** * The sticky header *)

Lemma pastThreshold_spec y : pastThreshold y = true ↔ (inject_Z 60 < y)%Q.
Proof.
  unfold pastThreshold. rewrite negb_true_iff, <- not_true_iff_false.
  rewrite Qle_bool_iff. split.
  - apply Qnot_le_lt.
  - apply Qlt_not_le.
Qed.

Lemma handleHeader_ok e h : headerOk h → headerOk (handleHeader e h).
Proof.
  intros (Hf & Ht & Hs). destruct e as [y|]; simpl.
  - unfold onScroll. destruct (ticking h) eqn:E; simpl.
    + unfold headerOk. simpl. split; [done|]. split; [|done].
      split; [|done]. intros _. by apply Ht.
    + unfold headerOk. simpl.
      assert (frames h = O) as ->.
      { destruct (frames h) as [|[|k]]; [done| |lia].
        destruct Ht as [_ Ht]. by specialize (Ht eq_refl). }
      split; [lia|]. split; [done|done].
  - unfold onFrame. destruct (frames h) as [|[|k]] eqn:E; simpl; [| |lia].
    + unfold headerOk. simpl. split; [lia|]. split.
      * split; [|done]. intros Htk. apply Ht in Htk. congruence.
      * exact Hs.
    + unfold headerOk. simpl. split; [lia|]. split; [done|done].
Qed.

(** X21. The header never lags and never double-books a frame. From
    [initHeaderSticky] on, through any scrolls and animation frames, at
    most one [update] waits for the next frame, and one waits exactly when
    [ticking] is set; whenever none waits (in particular right after a
    frame) the header has the class [scrolled] exactly when the window is
    scrolled by more than 60 pixels. *)
Theorem X21_header_in_step (y0 : Q) (es : list HeaderEvent) :
  let h := foldl (λ h e, handleHeader e h) (initHeaderSticky y0) es in
  (frames h <= 1)%nat
  ∧ (ticking h = true ↔ frames h = 1%nat)
  ∧ (ticking h = false → (scrolled h = true ↔ (inject_Z 60 < scrollY h)%Q))
  ∧ ticking (handleHeader Frame h) = false.
Proof.
  intros h.
  assert (headerOk h) as (Hf & Ht & Hs).
  { unfold h. generalize (initHeaderSticky y0),
      (ltac:(unfold headerOk; simpl; split; [lia|split; [done|done]])
        : headerOk (initHeaderSticky y0)).
    induction es as [|e es IH]; intros h0 H0; [done|].
    simpl. apply IH. by apply handleHeader_ok. }
  split; [exact Hf|]. split; [exact Ht|]. split.
  - intros Htk. rewrite (Hs Htk). apply pastThreshold_spec.
  - simpl. unfold onFrame.
    destruct (frames h) as [|[|k]] eqn:E; simpl; [|done|lia].
    destruct (ticking h) eqn:Etk; [|done]. destruct Ht as [Ht _].
    specialize (Ht eq_refl). congruence.
Qed.

(** * [clamp] *)

(** X3. [clamp(n, a, b)] brings [n] into [[a, b]]: when [a <= b] the
    result lies between [a] and [b], is [n] itself when [n] already does,
    is [a] below and [b] above, and clamping twice changes nothing more.
    When the bounds are crossed ([b < a]) the result is [a] whatever [n]. *)
Theorem X3_clamp (n a b : Z) :
  (a <= b →
     a <= clamp n a b <= b
     ∧ (a <= n <= b → clamp n a b = n)
     ∧ (n < a → clamp n a b = a)
     ∧ (b < n → clamp n a b = b)
     ∧ clamp (clamp n a b) a b = clamp n a b)
  ∧ (b < a → clamp n a b = a).
Proof. unfold clamp. lia. Qed.

(** * The properties on sample pages *)

Lemma X8_witness :
  timeEl (mkElement None None (u " 08:00-09:00 Ochtendshow ")) = None
  ∧ (timeText (itemOf (mkElement None None (u " 08:00-09:00 Ochtendshow ")))
     = []
     ∨ ((∃ pre post,
           trim (textContent
                   (mkElement None None (u " 08:00-09:00 Ochtendshow ")))
           = pre ++ timeText (itemOf (mkElement None None
                                        (u " 08:00-09:00 Ochtendshow ")))
               ++ post)
        ∧ sem reItem (timeText (itemOf (mkElement None None
                                          (u " 08:00-09:00 Ochtendshow "))))
            []
        ∧ digitEnds (timeText (itemOf (mkElement None None
                                         (u " 08:00-09:00 Ochtendshow ")))))).
Proof.
  split; [reflexivity|].
  apply (proj1 (proj2 X8_extracted_fields)). reflexivity.
Defined.

Lemma X9_witness :
  ∃ c0, initCarousel noJson sampleRoot 1 = Some c0
        ∧ slides (runEvents sampleEvents c0) ≠ []
        ∧ 0 <= index (runEvents sampleEvents c0)
          < Z.of_nat (length (slides (runEvents sampleEvents c0))).
Proof.
  eexists. split; [vm_compute; reflexivity|].
  match goal with
  | |- context [runEvents sampleEvents ?c] =>
      pose proof (X9_carousel_index_in_range noJson sampleRoot 1 c
                    sampleEvents ltac:(vm_compute; reflexivity))
        as (_ & H1 & H2 & _)
  end.
  split; [exact H1|exact H2].
Defined.

Lemma X10_witness :
  ∃ c0, initCarousel noJson sampleRoot 1 = Some c0
        ∧ ∀ id1 id2,
            pool (runEvents sampleEvents c0) !! id1 = Some IntervalNext →
            pool (runEvents sampleEvents c0) !! id2 = Some IntervalNext →
            id1 = id2.
Proof.
  eexists. split; [vm_compute; reflexivity|].
  match goal with
  | |- context [runEvents sampleEvents ?c] =>
      pose proof (X10_carousel_timers noJson sampleRoot 1 c
                    sampleEvents ltac:(vm_compute; reflexivity))
        as (_ & H1 & _)
  end.
  exact H1.
Defined.

Lemma X11_witness :
  ∃ c0, initCarousel noJson sampleRoot 1 = Some c0
        ∧ index (goTo (-7) (runEvents sampleEvents c0))
          = (-7) mod Z.of_nat (length (slides (runEvents sampleEvents c0))).
Proof.
  eexists. split; [vm_compute; reflexivity|].
  match goal with
  | |- context [runEvents sampleEvents ?c] =>
      pose proof (X11_carousel_wraps noJson sampleRoot 1 c
                    sampleEvents ltac:(vm_compute; reflexivity))
        as (H1 & _)
  end.
  apply (H1 (-7)).
Defined.

Lemma X12_witness :
  ∃ c0, initCarousel noJson sampleRoot 1 = Some c0
        ∧ (100 - 200 < -60 →
           index (runEvents [TouchStart 200; TouchMove 100; TouchEnd]
                    (runEvents sampleEvents c0))
           = (index (runEvents sampleEvents c0) + 1)
               mod Z.of_nat (length (slides (runEvents sampleEvents c0)))).
Proof.
  eexists. split; [vm_compute; reflexivity|].
  match goal with
  | |- context [runEvents sampleEvents ?c] =>
      pose proof (X12_carousel_swipe noJson sampleRoot 1 c
                    sampleEvents 200 100 ltac:(vm_compute; reflexivity))
        as (H1 & _)
  end.
  exact H1.
Defined.

Lemma X13_witness :
  ∃ c0, initCarousel noJson sampleRoot 1 = Some c0
        ∧ timer (handle MouseEnter (runEvents sampleEvents c0)) = None.
Proof.
  eexists. split; [vm_compute; reflexivity|].
  match goal with
  | |- context [runEvents sampleEvents ?c] =>
      pose proof (X13_carousel_pause_resume noJson sampleRoot 1 c
                    sampleEvents MouseEnter ltac:(vm_compute; reflexivity))
        as (H1 & _)
  end.
  apply H1. by left.
Defined.

Lemma X14_witness :
  ∃ c0, initCarousel noJson sampleRoot 1 = Some c0
        ∧ index c0 = 0 ∧ transform c0 = u "translateX(0px)".
Proof.
  eexists. split; [vm_compute; reflexivity|].
  match goal with
  | |- index ?c = 0 ∧ _ =>
      pose proof (proj2 (X14_carousel_init noJson sampleRoot 1) c
                    ltac:(vm_compute; reflexivity)) as (H1 & H2 & _)
  end.
  split; [exact H1|exact H2].
Defined.

Lemma X15_witness :
  u "  " ≠ [] ∧ noJson (trim (u "  ")) = None ∧ isSpaces (u "  ")
  ∧ parseImageList noJson (u "  ") = [TextSrc []].
Proof.
  assert (isSpaces (u "  ")) as Hs by (repeat constructor).
  split; [discriminate|]. split; [reflexivity|]. split; [exact Hs|].
  apply (proj2 (proj2 (X15_parseImageList noJson (u "  ")))
           ltac:(discriminate) eq_refl). exact Hs.
Defined.

Lemma X16_witness :
  Forall cleanLine [u "a.jpg"; u "b c.png"]
  ∧ parseImageList noJson (joinLines [u "a.jpg"; u "b c.png"])
    = map TextSrc [u "a.jpg"; u "b c.png"].
Proof.
  assert (Forall cleanLine [u "a.jpg"; u "b c.png"]) as Hall.
  { repeat constructor; try done; try (by eexists);
      intros H; vm_compute in H;
      repeat (apply elem_of_cons in H as [H|H]; [discriminate H|]);
      by apply elem_of_nil in H. }
  split; [exact Hall|].
  apply (X16_parseImageList_lines noJson [u "a.jpg"; u "b c.png"]);
    [discriminate|exact Hall|reflexivity].
Defined.

Lemma X17_witness :
  u "maandag" ≠ u "all"
  ∧ ∀ sd, sd ∈ scheduleDays
            (show asciiLower findsNothing (u "maandag")
               (mkTabsPage sampleTabs sampleDays true None)).1 →
          (sdHidden sd = false ↔ showKey asciiLower sd = u "maandag").
Proof.
  assert (u "maandag" ≠ u "all") as Hne by discriminate.
  split; [exact Hne|].
  apply (X17_show_day asciiLower findsNothing (u "maandag")
           (mkTabsPage sampleTabs sampleDays true None)). exact Hne.
Defined.

Lemma X18_witness :
  u "maandag" ≠ u "all"
  ∧ buildMap asciiLower (map sdNode sampleDays) !! u "maandag" = Some maandag
  ∧ ∀ sd, sd ∈ scheduleDays
            (show asciiLower findsNothing (u "maandag")
               (mkTabsPage sampleTabs sampleDays true None)).1 →
          sdNode sd = maandag → sdHidden sd = false.
Proof.
  assert (u "maandag" ≠ u "all") as Hne by discriminate.
  assert (buildMap asciiLower (map sdNode sampleDays) !! u "maandag"
          = Some maandag) as Hm by (vm_compute; reflexivity).
  split; [exact Hne|]. split; [exact Hm|].
  apply (X18_tab_shows_resolved_section asciiLower findsNothing (u "maandag")
           (mkTabsPage sampleTabs sampleDays true None) maandag Hne Hm).
Defined.

Lemma X19_witness :
  wired (mkTabsPage sampleTabs sampleDays true None) = true
  ∧ sampleTabs !! 1%nat = Some (mkTab (Some (u "Zondag")) None)
  ∧ length (tabs (clickTab asciiLower findsNothing 1
                    (mkTabsPage sampleTabs sampleDays true None)).1)
    = length sampleTabs.
Proof.
  split; [reflexivity|]. split; [reflexivity|].
  apply (X19_click_tab asciiLower findsNothing 1
           (mkTabsPage sampleTabs sampleDays true None)
           (mkTab (Some (u "Zondag")) None)); reflexivity.
Defined.

Lemma X20_witness :
  sampleDays ≠ []
  ∧ wired (initDayTabs asciiLower findsNothing sampleTabs sampleDays).1 = true.
Proof.
  assert (sampleDays ≠ []) as Hne by discriminate.
  split; [exact Hne|].
  apply (proj2 (X20_init_day_tabs asciiLower findsNothing sampleTabs
                  sampleDays) Hne).
Defined.

Lemma X21_witness :
  let h := foldl (λ h e, handleHeader e h) (initHeaderSticky (inject_Z 0))
             [Scroll (inject_Z 80); Scroll (inject_Z 10); Frame] in
  ticking h = false
  ∧ (scrolled h = true ↔ (inject_Z 60 < scrollY h)%Q).
Proof.
  intros h. split; [reflexivity|].
  apply (X21_header_in_step (inject_Z 0)
           [Scroll (inject_Z 80); Scroll (inject_Z 10); Frame]).
  reflexivity.
Defined.

Lemma X3_witness : 0 <= 10 ∧ 0 <= clamp 25 0 10 <= 10.
Proof.
  split; [lia|]. apply (X3_clamp 25 0 10). lia.
Defined.
